(** * The style pane: row pool and reconciliation engine

    A shallow embedding of [studio/feature/stylepane.py]: the class-level
    pool of [ReusableStyleItem], the four [StyleGroup] classes with their
    [can_optimize] predicates, and the [StylePane] that routes selection
    changes to its groups.

    Python objects live in a store: rows in [heap] (a row's identity is its
    index), groups in [groups].  Methods are computations in a monad that
    threads the store and may raise; mutations made before a [Raise] stay,
    as they do in Python. *)

From Stdlib Require Import ZArith.
From stdpp Require Import gmap strings list fin_maps.

(** ** Values, definitions and exceptions *)

(** A property value is any Python object; the code only ever compares it
    with the empty string. *)
Inductive Value :=
| VStr (s : string)
| VInt (z : Z)
| VNone.

(** [value != ''] *)
Definition not_empty_str (v : Value) : bool :=
  match v with
  | VStr s => negb (String.eqb s "")
  | _ => true
  end.

(** A style definition, read through [.get("name")], [.get("value")] and
    [.get("display_name")]. *)
Record StyleDef := mkDef {
  d_name : string;
  d_display_name : string;
  d_value : Value
}.

(** A dict of definitions in insertion order. *)
Abbreviation Definitions := (list (string * StyleDef)).

Fixpoint dict_get {A} (k : string) (d : list (string * A)) : option A :=
  match d with
  | [] => None
  | (k', v) :: d' => if String.eqb k k' then Some v else dict_get k d'
  end.

(** [d[k] = v]: replaces in place, or appends a new key. *)
Fixpoint dict_set {A} (k : string) (v : A) (d : list (string * A)) : list (string * A) :=
  match d with
  | [] => [(k, v)]
  | (k', v') :: d' => if String.eqb k k' then (k, v) :: d' else (k', v') :: dict_set k v d'
  end.

Fixpoint dict_pop {A} (k : string) (d : list (string * A)) : list (string * A) :=
  match d with
  | [] => []
  | (k', v') :: d' => if String.eqb k k' then d' else (k', v') :: dict_pop k d'
  end.

Definition dict_keys {A} (d : list (string * A)) : list string := d.*1.
Definition dict_values {A} (d : list (string * A)) : list A := d.*2.

(** The exceptions the code can meet.  [HostError] stands for whatever the
    host object or an editor raises; [Dangling] is no Python exception: it
    marks a reference to a row or group that is not in the store, which
    Python's object model excludes. *)
Inductive Exn :=
| TypeError (msg : string)
| KeyError (key : string)
| AttributeError (msg : string)
| HostError (msg : string)
| Dangling.

(** ** The selected object *)

Inductive PyClass :=
| NoneType
| Class (cname : string).

Global Instance PyClass_eq_dec : EqDecision PyClass.
Proof. solve_decision. Defined.

Record LayoutStrategy := mkStrategy {
  strategy_class : string;
  strategy_name : string
}.

(** The host object's methods are fields: [configure] and [layout_apply]
    answer [Some e] when the call raises [e]. *)
Record Layout := mkLayout {
  layout_strategy : LayoutStrategy;
  definition_for : Definitions;
  layout_apply : string -> Value -> option Exn
}.

Record Widget := mkWidget {
  wid : nat;
  wclass : string;
  identity : option Definitions;
  properties : option Definitions;
  layout : Layout;
  configure : string -> Value -> option Exn
}.

(** [x.__class__] of a reference that may be [None]. *)
Definition class_of (w : option Widget) : PyClass :=
  match w with
  | None => NoneType
  | Some x => Class (wclass x)
  end.

Definition strategy_class_of (l : option LayoutStrategy) : PyClass :=
  match l with
  | None => NoneType
  | Some x => Class (strategy_class x)
  end.

(** [a == b] on object references: identity, with [None == None]. *)
Definition same_object (a b : option Widget) : bool :=
  match a, b with
  | None, None => true
  | Some x, Some y => Nat.eqb (wid x) (wid y)
  | _, _ => false
  end.

(** ** Rows *)

Abbreviation RowId := nat (only parsing).
Abbreviation Scope := nat (only parsing).

(** What a row's [_on_change] holds: a group's bound [apply], or some other
    callable. *)
Inductive Callback :=
| BoundApply (g : Scope)
| Callable (n : nat).

(** [packed] and [mapped] are the toolkit's side of a row: whether it is
    managed by [pack], and whether the toolkit last reported it mapped. *)
Record Row := mkRow {
  parent : Scope;
  name : string;
  definition : StyleDef;
  editor_value : Value;
  label_text : string;
  _on_change : option Callback;
  is_available : bool;
  packed : bool;
  mapped : bool;
  destroyed : bool
}.

Definition set_name (x : string) (r : Row) : Row :=
  mkRow (parent r) x (definition r) (editor_value r) (label_text r)
        (_on_change r) (is_available r) (packed r) (mapped r) (destroyed r).
Definition set_editor_value (x : Value) (r : Row) : Row :=
  mkRow (parent r) (name r) (definition r) x (label_text r)
        (_on_change r) (is_available r) (packed r) (mapped r) (destroyed r).
Definition set_label_text (x : string) (r : Row) : Row :=
  mkRow (parent r) (name r) (definition r) (editor_value r) x
        (_on_change r) (is_available r) (packed r) (mapped r) (destroyed r).
Definition set_on_change (x : option Callback) (r : Row) : Row :=
  mkRow (parent r) (name r) (definition r) (editor_value r) (label_text r)
        x (is_available r) (packed r) (mapped r) (destroyed r).
Definition set_is_available (x : bool) (r : Row) : Row :=
  mkRow (parent r) (name r) (definition r) (editor_value r) (label_text r)
        (_on_change r) x (packed r) (mapped r) (destroyed r).
Definition set_packed (x : bool) (r : Row) : Row :=
  mkRow (parent r) (name r) (definition r) (editor_value r) (label_text r)
        (_on_change r) (is_available r) x (mapped r) (destroyed r).
Definition set_mapped (x : bool) (r : Row) : Row :=
  mkRow (parent r) (name r) (definition r) (editor_value r) (label_text r)
        (_on_change r) (is_available r) (packed r) x (destroyed r).
Definition set_destroyed (x : bool) (r : Row) : Row :=
  mkRow (parent r) (name r) (definition r) (editor_value r) (label_text r)
        (_on_change r) (is_available r) (packed r) (mapped r) x.

(** ** Groups and the pane *)

Inductive GroupClass :=
| StyleGroup
| IdentityGroup
| AttributeGroup
| LayoutGroup.

Record Group := mkGroup {
  gclass : GroupClass;
  _widget : option Widget;
  _prev_widget : option Widget;
  _has_initialized : bool;
  items : list (string * RowId);
  label : string;
  _prev_layout : option LayoutStrategy;
  collapsed : bool
}.

Definition set_widget (x : option Widget) (g : Group) : Group :=
  mkGroup (gclass g) x (_prev_widget g) (_has_initialized g) (items g)
          (label g) (_prev_layout g) (collapsed g).
Definition set_prev_widget (x : option Widget) (g : Group) : Group :=
  mkGroup (gclass g) (_widget g) x (_has_initialized g) (items g)
          (label g) (_prev_layout g) (collapsed g).
Definition set_has_initialized (x : bool) (g : Group) : Group :=
  mkGroup (gclass g) (_widget g) (_prev_widget g) x (items g)
          (label g) (_prev_layout g) (collapsed g).
Definition set_items (x : list (string * RowId)) (g : Group) : Group :=
  mkGroup (gclass g) (_widget g) (_prev_widget g) (_has_initialized g) x
          (label g) (_prev_layout g) (collapsed g).
Definition set_label (x : string) (g : Group) : Group :=
  mkGroup (gclass g) (_widget g) (_prev_widget g) (_has_initialized g) (items g)
          x (_prev_layout g) (collapsed g).
Definition set_prev_layout (x : option LayoutStrategy) (g : Group) : Group :=
  mkGroup (gclass g) (_widget g) (_prev_widget g) (_has_initialized g) (items g)
          (label g) x (collapsed g).
Definition set_collapsed (x : bool) (g : Group) : Group :=
  mkGroup (gclass g) (_widget g) (_prev_widget g) (_has_initialized g) (items g)
          (label g) (_prev_layout g) x.

(** The pane's [_empty_frame]: whether it is placed over the body, and the
    text of the label it holds. *)
Record EmptyFrame := mkEmptyFrame {
  placed : bool;
  frame_text : option string
}.

Record Pane := mkPane {
  pane_groups : list Scope;
  _layout_group : Scope;
  _current : option Widget;
  _empty_frame : EmptyFrame;
  _expanded : bool
}.

Inductive LogEntry :=
| LogExn (e : Exn)
| LogMsg (msg : string) (prop : string) (value : Value)
| LogExnMsg (e : Exn) (msg : string) (prop : string) (value : Value).

(** ** The store

    [_pool] is the class attribute [defaultdict(dict)]: scope, then key,
    then row.  A Python dict takes any hashable key; the code uses property
    names ([inl]) when it files a row and the row object itself ([inr])
    when [destroy] asks [self in pool]. *)

Record State := mkState {
  heap : list Row;
  _pool : gmap nat (gmap (string + nat) nat);
  groups : list Group;
  pane : Pane;
  log : list LogEntry
}.

Definition set_heap (x : list Row) (s : State) : State :=
  mkState x (_pool s) (groups s) (pane s) (log s).
Definition set_pool (x : gmap nat (gmap (string + nat) nat)) (s : State) : State :=
  mkState (heap s) x (groups s) (pane s) (log s).
Definition set_groups (x : list Group) (s : State) : State :=
  mkState (heap s) (_pool s) x (pane s) (log s).
Definition set_pane (x : Pane) (s : State) : State :=
  mkState (heap s) (_pool s) (groups s) x (log s).
Definition set_log (x : list LogEntry) (s : State) : State :=
  mkState (heap s) (_pool s) (groups s) (pane s) x.

(** ** Computations: state that survives exceptions *)

Inductive Outcome (A : Type) :=
| Ret (a : A)
| Raise (e : Exn).
Arguments Ret {A} a.
Arguments Raise {A} e.

Definition M (A : Type) : Type := State -> Outcome A * State.

Global Instance M_ret : MRet M := fun A a s => (Ret a, s).
Global Instance M_bind : MBind M := fun A B f m s =>
  match m s with
  | (Ret a, s') => f a s'
  | (Raise e, s') => (Raise e, s')
  end.

Definition raise {A} (e : Exn) : M A := fun s => (Raise e, s).
Definition get : M State := fun s => (Ret s, s).
Definition modify (f : State -> State) : M unit := fun s => (Ret tt, f s).

(** [try: c except Exception as e: h e] *)
Definition try_except {A} (c : M A) (h : Exn -> M A) : M A := fun s =>
  match c s with
  | (Ret a, s') => (Ret a, s')
  | (Raise e, s') => h e s'
  end.

(** [for x in xs: f x] *)
Fixpoint for_each {A} (xs : list A) (f : A -> M unit) : M unit :=
  match xs with
  | [] => mret tt
  | x :: xs' => f x ;; for_each xs' f
  end.

Definition read_row (r : RowId) : M Row := fun s =>
  match heap s !! r with
  | Some row => (Ret row, s)
  | None => (Raise Dangling, s)
  end.

Definition update_row (r : RowId) (f : Row -> Row) : M unit := fun s =>
  match heap s !! r with
  | Some row => (Ret tt, set_heap (<[r := f row]> (heap s)) s)
  | None => (Raise Dangling, s)
  end.

Definition read_group (g : Scope) : M Group := fun s =>
  match groups s !! g with
  | Some grp => (Ret grp, s)
  | None => (Raise Dangling, s)
  end.

Definition update_group (g : Scope) (f : Group -> Group) : M unit := fun s =>
  match groups s !! g with
  | Some grp => (Ret tt, set_groups (<[g := f grp]> (groups s)) s)
  | None => (Raise Dangling, s)
  end.

Definition logging (e : LogEntry) : M unit :=
  modify (fun s => set_log (log s ++ [e]) s).

(** ** The rendering surface

    Modelled from the spec: the toolkit classes ([Frame], [CollapseFrame],
    [StyleItem]) are not part of the source file.  The surface "accepts row
    creation under a given parent scope, supports show/hide with
    visibility-change notification"; [pack] and [pack_forget] manage a row,
    [clear_children] un-manages every child of a group ("this unmaps all
    style items"), [collapse] and [expand] fold and unfold a group.  The
    [<Map>] and [<Unmap>] notifications themselves are delivered by the
    toolkit's event loop, as separate steps ([deliver_Map],
    [deliver_Unmap]). *)

Definition pack (item : RowId) : M unit := update_row item (set_packed true).
Definition pack_forget (item : RowId) : M unit := update_row item (set_packed false).

Definition clear_children (g : Scope) : M unit :=
  modify (fun s =>
    set_heap ((fun row => if Nat.eqb (parent row) g then set_packed false row else row)
                <$> heap s) s).

Definition collapse (g : Scope) : M unit := update_group g (set_collapsed true).
Definition expand (g : Scope) : M unit := update_group g (set_collapsed false).

(** ** ReusableStyleItem *)

Section Engine.

(** The row's editor is a collaborator outside the source file:
    [editor_set v] answers [Some e] when [self._editor.set(v)] raises [e]. *)
Variable editor_set : Value -> option Exn.

(** [self._editor.set(value)] *)
Definition _editor_set (self : RowId) (v : Value) : M unit :=
  match editor_set v with
  | Some e => raise e
  | None => update_row self (set_editor_value v)
  end.

(** [__init__]: the new row is allocated at the end of the heap, starts
    available, and registers itself at [_pool[parent][name]] (a
    [defaultdict]: a missing scope starts from the empty dict).
    Modelled from the spec: [StyleItem.__init__] binds the row to its
    definition (key, bound value, label, callback). *)
Definition ReusableStyleItem (parent : Scope) (style_definition : StyleDef)
    (on_change : option Callback) : M RowId := fun s =>
  let self := length (heap s) in
  let row := mkRow parent (d_name style_definition) style_definition
                   (d_value style_definition) (d_display_name style_definition)
                   on_change true false false false in
  let pool := default ∅ (_pool s !! parent) in
  (Ret self,
   set_pool (<[parent := <[inl (d_name style_definition) := self]> pool]> (_pool s))
            (set_heap (heap s ++ [row]) s)).

Definition _make_available (self : RowId) (flag : bool) : M unit :=
  update_row self (set_is_available flag).

(** The handlers bound in [__init__], run when the toolkit delivers the
    notification. *)
Definition deliver_Map (self : RowId) : M unit :=
  update_row self (set_mapped true) ;; _make_available self false.
Definition deliver_Unmap (self : RowId) : M unit :=
  update_row self (set_mapped false) ;; _make_available self true.

(** [_re_purposed], in three parts: lines 32-37 install the callback and
    null it, lines 38-41 reassign, line 42 restores. *)
Definition rebind_begin (self : RowId) (on_change : option Callback)
    : M (option Callback) :=
  match on_change with
  | Some cb => update_row self (set_on_change (Some cb))
  | None => mret tt
  end ;;
  row ← read_row self;
  let temp := _on_change row in
  update_row self (set_on_change None) ;;
  mret temp.

(** The reassignment, statement by statement.  Rewiring the editor's own
    [on_change] to [self._change] changes nothing the model tracks. *)
Definition rebind_stmts (self : RowId) (style_definition : StyleDef) : list (M unit) :=
  [ update_row self (set_name (d_name style_definition));
    _editor_set self (d_value style_definition);
    mret tt;
    update_row self (set_label_text (d_display_name style_definition)) ].

Fixpoint run_stmts (stmts : list (M unit)) : M unit :=
  match stmts with
  | [] => mret tt
  | c :: stmts' => c ;; run_stmts stmts'
  end.

Definition rebind_end (self : RowId) (temp : option Callback) : M unit :=
  update_row self (set_on_change temp).

Definition _re_purposed (self : RowId) (style_definition : StyleDef)
    (on_change : option Callback) : M RowId :=
  temp ← rebind_begin self on_change;
  run_stmts (rebind_stmts self style_definition) ;;
  rebind_end self temp ;;
  mret self.

(** [destroy]: [self in pool] asks whether the row object is a key of the
    scope's dict. *)
Definition destroy (self : RowId) : M unit :=
  row ← read_row self;
  s ← get;
  let pool := default ∅ (_pool s !! parent row) in
  modify (set_pool (<[parent row := pool]> (_pool s))) ;;
  (if decide (is_Some (pool !! inr self))
   then modify (set_pool (<[parent row := delete (inr self) pool]> (_pool s)))
   else mret tt) ;;
  update_row self (set_destroyed true).

(** The lookup part of [acquire]: the pooled row, when the scope has a
    non-empty dict, the key is there and the row is available. *)
Definition pooled (parent : Scope) (style_definition : StyleDef) : M (option RowId) :=
  s ← get;
  match _pool s !! parent with
  | Some pool =>
      if decide (pool = ∅) then mret None
      else match pool !! inl (d_name style_definition) with
           | Some item =>
               row ← read_row item;
               if is_available row then mret (Some item) else mret None
           | None => mret None
           end
  | None => mret None
  end.

Definition acquire (parent : Scope) (style_definition : StyleDef)
    (on_change : option Callback) : M RowId :=
  found ← pooled parent style_definition;
  match found with
  | Some item => _re_purposed item style_definition on_change
  | None => ReusableStyleItem parent style_definition on_change
  end.

(** ** StyleGroup and its subclasses

    A group is named by its index in [groups]; that index is also the scope
    under which the group's rows are pooled ([acquire(self, ...)]). *)

(** [can_optimize], dispatched on the group's class. *)
Definition can_optimize (self : Scope) : M bool :=
  grp ← read_group self;
  match gclass grp with
  | StyleGroup => mret false
  | IdentityGroup => mret (_has_initialized grp)
  | AttributeGroup =>
      mret (bool_decide (class_of (_widget grp) = class_of (_prev_widget grp))
            && _has_initialized grp)
  | LayoutGroup =>
      match _widget grp with
      | None => raise (AttributeError "'NoneType' object has no attribute 'layout'")
      | Some w =>
          mret (bool_decide (Class (strategy_class (layout_strategy (layout w)))
                             = strategy_class_of (_prev_layout grp))
                && same_object (_widget grp) (_prev_widget grp))
      end
  end.

(** [get_definition]; the answer [None] is Python's [None]. *)
Definition get_definition (self : Scope) : M (option Definitions) :=
  grp ← read_group self;
  match gclass grp with
  | StyleGroup => mret (Some [])
  | IdentityGroup =>
      match _widget grp with
      | Some w =>
          match identity w with
          | Some d => mret (Some d)
          | None => mret None
          end
      | None => mret None
      end
  | AttributeGroup =>
      match _widget grp with
      | Some w =>
          match properties w with
          | Some d => mret (Some d)
          | None => mret (Some [])
          end
      | None => mret (Some [])
      end
  | LayoutGroup =>
      match _widget grp with
      | Some w => mret (Some (definition_for (layout w)))
      | None => mret (Some [])
      end
  end.

(** A raising call of the host object. *)
Definition host_call (r : option Exn) : M unit :=
  match r with
  | Some e => raise e
  | None => mret tt
  end.

Definition StyleGroup_apply (self : Scope) (prop : string) (value : Value) : M unit :=
  grp ← read_group self;
  match _widget grp with
  | None => mret tt
  | Some w =>
      try_except (host_call (configure w prop value))
        (fun e =>
           if not_empty_str value
           then logging (LogExn e) ;;
                logging (LogMsg "Could not set style" prop value)
           else mret tt)
  end.

Definition LayoutGroup_apply (self : Scope) (prop : string) (value : Value) : M unit :=
  grp ← read_group self;
  try_except
    (match _widget grp with
     | None => raise (AttributeError "'NoneType' object has no attribute 'layout'")
     | Some w => host_call (layout_apply (layout w) prop value)
     end)
    (fun e => logging (LogExnMsg e "Could not set layout" prop value)).

Definition apply (self : Scope) (prop : string) (value : Value) : M unit :=
  grp ← read_group self;
  match gclass grp with
  | LayoutGroup => LayoutGroup_apply self prop value
  | _ => StyleGroup_apply self prop value
  end.

Definition _show (item : RowId) : M unit := pack item.
Definition _hide (item : RowId) : M unit := pack_forget item.

Definition add (self : Scope) (style_item : RowId) : M unit :=
  row ← read_row style_item;
  update_group self (fun grp => set_items (dict_set (name row) style_item (items grp)) grp) ;;
  _show style_item.

Definition remove (self : Scope) (style_item : RowId) : M unit :=
  row ← read_row style_item;
  update_group self (fun grp => set_items (dict_pop (name row) (items grp)) grp) ;;
  _hide style_item.

(** Iterating Python's [None] *)
Definition iter (definitions : option Definitions) : M Definitions :=
  match definitions with
  | None => raise (TypeError "'NoneType' object is not iterable")
  | Some d => mret d
  end.

(** [d[k]] *)
Definition subscript {A} (d : list (string * A)) (k : string) : M A :=
  match dict_get k d with
  | Some v => mret v
  | None => raise (KeyError k)
  end.

(** The in-place refresh (the branch under [if self.can_optimize()]). *)
Definition refresh (self : Scope) (definitions : option Definitions) : M unit :=
  defs ← iter definitions;
  for_each (dict_keys defs) (fun prop =>
    grp ← read_group self;
    item ← subscript (items grp) prop;
    d ← subscript defs prop;
    _re_purposed item d None ;;
    mret tt).

(** The full rebuild (the [else] branch). *)
Definition rebuild (self : Scope) (definitions : option Definitions) : M unit :=
  clear_children self ;;
  update_group self (set_items []) ;;
  defs ← iter definitions;
  for_each (dict_keys defs) (fun p =>
    d ← subscript defs p;
    item ← acquire self d (Some (BoundApply self));
    add self item).

Definition StyleGroup_on_widget_change (self : Scope) (widget : option Widget) : M unit :=
  update_group self (set_widget widget) ;;
  match widget with
  | None => collapse self
  | Some _ =>
      definitions ← get_definition self;
      optimize ← can_optimize self;
      (if (optimize : bool) then refresh self definitions else rebuild self definitions) ;;
      update_group self (set_has_initialized true) ;;
      update_group self (set_prev_widget widget)
  end.

Definition LayoutGroup_on_widget_change (self : Scope) (widget : option Widget) : M unit :=
  StyleGroup_on_widget_change self widget ;;
  match widget with
  | None => raise (AttributeError "'NoneType' object has no attribute 'layout'")
  | Some w =>
      update_group self (set_prev_layout (Some (layout_strategy (layout w)))) ;;
      update_group self
        (set_label ("Layout (" +:+ strategy_name (layout_strategy (layout w)) +:+ ")"))
  end.

Definition on_widget_change (self : Scope) (widget : option Widget) : M unit :=
  grp ← read_group self;
  match gclass grp with
  | LayoutGroup => LayoutGroup_on_widget_change self widget
  | _ => StyleGroup_on_widget_change self widget
  end.

(** [query in s] *)
Fixpoint contains (query s : string) : bool :=
  String.prefix query s ||
  match s with
  | EmptyString => false
  | String _ s' => contains query s'
  end.

Definition on_search_query (self : Scope) (query : string) : M unit :=
  grp ← read_group self;
  for_each (dict_values (items grp)) (fun item =>
    row ← read_row item;
    if contains query (d_display_name (definition row))
    then _show item else _hide item).

Definition on_search_clear (self : Scope) : M unit := on_search_query self "".

(** ** StylePane *)

Definition update_pane (f : Pane -> Pane) : M unit :=
  modify (fun s => set_pane (f (pane s)) s).

Definition set_empty_frame (x : EmptyFrame) (p : Pane) : Pane :=
  mkPane (pane_groups p) (_layout_group p) (_current p) x (_expanded p).
Definition set_current (x : option Widget) (p : Pane) : Pane :=
  mkPane (pane_groups p) (_layout_group p) x (_empty_frame p) (_expanded p).
Definition set_expanded (x : bool) (p : Pane) : Pane :=
  mkPane (pane_groups p) (_layout_group p) (_current p) (_empty_frame p) x.

Definition remove_empty : M unit :=
  update_pane (set_empty_frame (mkEmptyFrame false None)).

Definition show_empty : M unit :=
  remove_empty ;;
  update_pane (set_empty_frame (mkEmptyFrame true (Some "You have not selected any item"))).

Definition show_loading : M unit :=
  remove_empty ;;
  update_pane (set_empty_frame (mkEmptyFrame true (Some "Loading..."))).

(** [styles_for]; the closing [update_idletasks] is a call into the
    toolkit that touches nothing of the store. *)
Definition styles_for (widget : option Widget) : M unit :=
  update_pane (set_current widget) ;;
  match widget with
  | None => show_empty
  | Some _ =>
      show_loading ;;
      s ← get;
      for_each (pane_groups (pane s)) (fun group => on_widget_change group widget) ;;
      remove_empty
  end.

Definition layout_for (widget : option Widget) : M unit :=
  s ← get;
  on_widget_change (_layout_group (pane s)) widget.

Definition expand_all : M unit :=
  s ← get;
  for_each (pane_groups (pane s)) expand ;;
  update_pane (set_expanded true).

Definition collapse_all : M unit :=
  s ← get;
  for_each (pane_groups (pane s)) collapse ;;
  update_pane (set_expanded false).

Definition clear_all : M unit :=
  s ← get;
  for_each (pane_groups (pane s)) clear_children.

Definition pane_on_search_query (query : string) : M unit :=
  s ← get;
  for_each (pane_groups (pane s)) (fun group => on_search_query group query).

Definition pane_on_search_clear : M unit :=
  s ← get;
  for_each (pane_groups (pane s)) on_search_clear.

(** ** Operations and reachable stores

    The public entry points of the pane, its groups and the pool, and the
    two notifications of the toolkit.  [on_select] and the pane's
    [on_widget_change] are [styles_for]; [on_widget_layout_change] is
    [layout_for]. *)

Inductive Op :=
| Select (widget : option Widget)
| LayoutChanged (widget : option Widget)
| GroupChange (g : Scope) (widget : option Widget)
| Edit (g : Scope) (prop : string) (value : Value)
| Acquire (scope : Scope) (d : StyleDef) (on_change : option Callback)
| Destroy (r : RowId)
| AddRow (g : Scope) (r : RowId)
| RemoveRow (g : Scope) (r : RowId)
| SearchQuery (query : string)
| SearchClear
| ExpandAll
| CollapseAll
| ClearAll
| MapEvent (r : RowId)
| UnmapEvent (r : RowId).

Definition exec (op : Op) : M unit :=
  match op with
  | Select w => styles_for w
  | LayoutChanged w => layout_for w
  | GroupChange g w => on_widget_change g w
  | Edit g prop value => apply g prop value
  | Acquire scope d cb => acquire scope d cb ;; mret tt
  | Destroy r => destroy r
  | AddRow g r => add g r
  | RemoveRow g r => remove g r
  | SearchQuery q => pane_on_search_query q
  | SearchClear => pane_on_search_clear
  | ExpandAll => expand_all
  | CollapseAll => collapse_all
  | ClearAll => clear_all
  | MapEvent r => deliver_Map r
  | UnmapEvent r => deliver_Unmap r
  end.

(** The store after an operation, whether it returned or raised. *)
Definition after (op : Op) (s : State) : State := (exec op s).2.

Definition run (ops : list Op) (s : State) : State := foldl (fun s op => after op s) s ops.

End Engine.

(** [StylePane.__init__]: three groups in registration order, the empty
    placeholder shown, nothing selected; the class-level pool starts empty. *)
Definition new_group (c : GroupClass) (lbl : string) : Group :=
  mkGroup c None None false [] lbl None false.

Definition init : State :=
  mkState []
          ∅
          [ new_group IdentityGroup "Widget identity";
            new_group LayoutGroup "Layout";
            new_group AttributeGroup "Attributes" ]
          (mkPane [0; 1; 2] 1 None
                  (mkEmptyFrame true (Some "You have not selected any item")) false)
          [].

Inductive reachable (editor_set : Value -> option Exn) : State -> Prop :=
| reachable_init : reachable editor_set init
| reachable_step s op :
    reachable editor_set s -> reachable editor_set (after editor_set op s).

(** * Vocabulary of the statements

    Invariants of the store, the predicates the specification speaks of,
    and the concrete stores the statements are tried on. *)

(** [c] keeps [I], whether it returns or raises. *)
Definition preserves {A} (I : State -> Prop) (c : M A) : Prop :=
  forall s, I s -> I (c s).2.

(** Setters that leave alone what the pool and the availability flag depend
    on. *)
Definition row_frame (f : Row -> Row) : Prop :=
  forall row, parent (f row) = parent row
              /\ is_available (f row) = is_available row
              /\ mapped (f row) = mapped row.

Definition group_frame (f : Group -> Group) : Prop :=
  forall grp, gclass (f grp) = gclass grp
              /\ _widget (f grp) = _widget grp
              /\ _has_initialized (f grp) = _has_initialized grp
              /\ _prev_widget (f grp) = _prev_widget grp.

(** Every entry of the pool is keyed by a name and leads to a row of the
    heap whose parent is the scope it is filed under. *)
Definition pool_inv (s : State) : Prop :=
  forall p (pool : gmap (string + nat) nat) k r,
    _pool s !! p = Some pool -> pool !! k = Some r ->
    exists nm row, k = inl nm /\ heap s !! r = Some row /\ parent row = p.

(** The flag is the negation of what the toolkit last reported. *)
Definition tracks_visibility (row : Row) : Prop :=
  is_available row = negb (mapped row).

Definition avail_inv (s : State) : Prop :=
  forall r row, heap s !! r = Some row -> tracks_visibility row.

(** A group that remembers a previous widget has been initialized. *)
Definition init_inv (s : State) : Prop :=
  forall g grp, groups s !! g = Some grp ->
    is_Some (_prev_widget grp) -> _has_initialized grp = true.

(** [pool[scope][key]], read without touching the store. *)
Definition pool_row (s : State) (scope : Scope) (key : string) : option RowId :=
  _pool s !! scope ≫= fun pool => pool !! inl key.

Definition available (s : State) (r : RowId) : Prop :=
  exists row, heap s !! r = Some row /\ is_available row = true.

(** The store with row [r] replaced. *)
Definition with_row (r : RowId) (row : Row) (s : State) : State :=
  set_heap (<[r := row]> (heap s)) s.

(** The callback [_re_purposed] ends with. *)
Definition installed (on_change : option Callback) (row : Row) : option Callback :=
  match on_change with
  | Some cb => Some cb
  | None => _on_change row
  end.

(** The row after a completed rebind. *)
Definition rebound (d : StyleDef) (on_change : option Callback) (row : Row) : Row :=
  mkRow (parent row) (d_name d) (definition row) (d_value d) (d_display_name d)
        (installed on_change row) (is_available row) (packed row) (mapped row)
        (destroyed row).

(** The row a rebind leaves behind when the editor raises: renamed, and
    with no callback. *)
Definition abandoned (d : StyleDef) (row : Row) : Row :=
  set_name (d_name d) (set_on_change None row).

Definition reusable (s : State) (scope : Scope) (key : string) : option RowId :=
  match pool_row s scope key with
  | Some r =>
      match heap s !! r with
      | Some row => if is_available row then Some r else None
      | None => None
      end
  | None => None
  end.

Definition in_pool (s : State) (r : RowId) : Prop :=
  exists scope (pool : gmap (string + nat) nat) k,
    _pool s !! scope = Some pool /\ pool !! k = Some r.

(** [r] is one of the values of some group's [items]. *)
Definition displayed (s : State) (r : RowId) : Prop :=
  exists g grp, groups s !! g = Some grp /\ r ∈ dict_values (items grp).

(** The duality as the specification words it. *)
Definition availability_duality (s : State) : Prop :=
  forall r row, in_pool s r -> heap s !! r = Some row ->
    (is_available row = true <-> ~ displayed s r).

(** The predicate of the specification's table, over the group as the
    previous selection left it and the newly selected object. *)
Definition spec_layout_can_optimize (grp : Group) (w : Widget) : bool :=
  _has_initialized grp
  && bool_decide (Class (strategy_class (layout_strategy (layout w)))
                  = strategy_class_of (_prev_layout grp))
  && same_object (Some w) (_prev_widget grp).

(** [LayoutGroup.on_widget_change] for a present widget, with the choice
    between refresh and rebuild given from outside. *)
Definition layout_change_deciding (editor_set : Value -> option Exn)
    (optimize : bool) (self : Scope) (w : Widget) : M unit :=
  (update_group self (set_widget (Some w)) ;;
   definitions ← get_definition self;
   (if optimize then refresh editor_set self definitions
    else rebuild editor_set self definitions) ;;
   update_group self (set_has_initialized true) ;;
   update_group self (set_prev_widget (Some w))) ;;
  update_group self (set_prev_layout (Some (layout_strategy (layout w)))) ;;
  update_group self
    (set_label ("Layout (" +:+ strategy_name (layout_strategy (layout w)) +:+ ")")).

(** What holds of the store when [c], started under [P], returns. *)
Definition hoare {A} (P : State -> Prop) (c : M A) (Q : State -> Prop) : Prop :=
  forall s a s', P s -> c s = (Ret a, s') -> Q s'.

(** Group [g] has been told of [w] ([told]) and has finished its update
    ([notified]). *)
Definition told (w : Widget) (g : Scope) (s : State) : Prop :=
  exists grp, groups s !! g = Some grp /\ _widget grp = Some w.

Definition notified (w : Widget) (g : Scope) (s : State) : Prop :=
  exists grp, groups s !! g = Some grp /\ _widget grp = Some w
              /\ _prev_widget grp = Some w /\ _has_initialized grp = true.

Definition group_has (P : Group -> Prop) (g : Scope) (s : State) : Prop :=
  exists grp, groups s !! g = Some grp /\ P grp.

Definition is_notified (w : Widget) (grp : Group) : Prop :=
  _widget grp = Some w /\ _prev_widget grp = Some w /\ _has_initialized grp = true.

Definition is_told (w : Widget) (grp : Group) : Prop := _widget grp = Some w.

(** The store [styles_for] leaves for an absent widget, and the store in
    which it starts notifying the groups of a present one. *)
Definition deselected (s : State) : State :=
  set_pane (mkPane (pane_groups (pane s)) (_layout_group (pane s)) None
                   (mkEmptyFrame true (Some "You have not selected any item"))
                   (_expanded (pane s))) s.

Definition loading (w : Widget) (s : State) : State :=
  set_pane (mkPane (pane_groups (pane s)) (_layout_group (pane s)) (Some w)
                   (mkEmptyFrame true (Some "Loading..."))
                   (_expanded (pane s))) s.

Definition no_layout_attribute : Exn :=
  AttributeError "'NoneType' object has no attribute 'layout'".

Definition not_iterable : Exn :=
  TypeError "'NoneType' object is not iterable".

(** The claim for the empty value: a failing [apply] leaves the log as it
    was. *)
Definition silent_on_empty_value (s : State) (g : Scope) (prop : string) : Prop :=
  log (apply g prop (VStr "") s).2 = log s.

Definition on_change_of (s : State) (r : RowId) : option (option Callback) :=
  _on_change <$> heap s !! r.

(** The claim for all exit paths: whatever the rebind's outcome, the row
    ends with the supplied callback, or with its previous one when none was
    supplied. *)
Definition restores_callback (editor_set : Value -> option Exn) (s : State)
    (self : RowId) (d : StyleDef) (on_change : option Callback) : Prop :=
  forall row, heap s !! self = Some row ->
    on_change_of (_re_purposed editor_set self d on_change s).2 self
    = Some (installed on_change row).

Definition suspended (self : RowId) (s : State) : Prop :=
  on_change_of s self = Some None.

(** Row [r] is filed at [pool[scope][key]] and is available. *)
Definition on_offer (scope : Scope) (key : string) (r : RowId) (s : State) : Prop :=
  pool_row s scope key = Some r /\ available s r.

Definition accepting : Value -> option Exn := fun _ => None.
Definition rejecting : Value -> option Exn := fun _ => Some (HostError "invalid value").

Definition colour : StyleDef := mkDef "color" "Color" (VStr "red").
Definition colour_blue : StyleDef := mkDef "color" "Colour" (VStr "blue").
Definition side : StyleDef := mkDef "side" "Side" (VStr "left").

(** A layout and a widget that reject every write. *)
Definition strict_layout : Layout :=
  mkLayout (mkStrategy "PackLayout" "pack") [("side", side)]
           (fun _ _ => Some (HostError "invalid value")).

Definition button : Widget :=
  mkWidget 7 "Button" (Some [("id", mkDef "id" "ID" (VStr "button_1"))])
           (Some [("color", colour)]) strict_layout
           (fun _ _ => Some (HostError "invalid value")).

(** The same widget class without an [identity] attribute. *)
Definition anonymous : Widget :=
  mkWidget 8 "Button" None (Some [("color", colour)]) strict_layout
           (fun _ _ => Some (HostError "invalid value")).

(** [button] selected: rows 0, 1 and 2 built for the three groups. *)
Definition selected : State := after accepting (Select (Some button)) init.

(** ... and its three rows reported mapped. *)
Definition shown : State :=
  run accepting [Select (Some button); MapEvent 0; MapEvent 1; MapEvent 2] init.

(** [button] selected, the colour row mapped, then filtered out by a
    search and reported unmapped. *)
Definition filtered : State :=
  run accepting
      [Select (Some button); MapEvent 2; SearchQuery "zzz"; UnmapEvent 2] init.

(** One row acquired under scope 0 with a callback. *)
Definition one_row : State :=
  (acquire rejecting 0 colour (Some (BoundApply 0)) init).2.

(** The claim for an absent widget: every registered group is told. *)
Definition deselect_tells_every_group (editor_set : Value -> option Exn) (s : State) : Prop :=
  forall g, g ∈ pane_groups (pane s) ->
    exists grp, groups (after editor_set (Select None) s) !! g = Some grp
                /\ _widget grp = None.

(** [pool[p][k]] for any key of the inner dict. *)
Definition pool_at (pools : gmap nat (gmap (string + nat) nat))
    (p : Scope) (k : string + nat) : option RowId :=
  pools !! p ≫= fun pool => pool !! k.

(** No row is filed twice. *)
Definition pool_injective (pools : gmap nat (gmap (string + nat) nat)) : Prop :=
  forall p1 k1 p2 k2 r,
    pool_at pools p1 k1 = Some r -> pool_at pools p2 k2 = Some r ->
    p1 = p2 /\ k1 = k2.

(** [pool[scope][key]] holds a row at least as young as [r]. *)
Definition pool_holds_since (scope : Scope) (key : string) (r : RowId)
    (pools : gmap nat (gmap (string + nat) nat)) : Prop :=
  exists r', pool_at pools scope (inl key) = Some r' /\ r <= r'.

(** A store whose pool points into the heap and has shape [Q]. *)
Definition pool_shaped (Q : gmap nat (gmap (string + nat) nat) -> Prop)
    (s : State) : Prop :=
  pool_inv s /\ Q (_pool s).

(** Row [r] exists and belongs to scope [p]. *)
Definition row_of_scope (r : RowId) (p : Scope) (s : State) : Prop :=
  exists row, heap s !! r = Some row /\ parent row = p.

(** [row'] is [row] bound to something else: same parent, definition, flags
    and packing. *)
Definition same_place (row row' : Row) : Prop :=
  parent row' = parent row /\ definition row' = definition row
  /\ is_available row' = is_available row /\ packed row' = packed row
  /\ mapped row' = mapped row /\ destroyed row' = destroyed row.

(** [s'] differs from [s] in nothing but what its rows are bound to: the
    same pool, no row built, every row in its place. *)
Definition rebinds_only (s s' : State) : Prop :=
  _pool s' = _pool s /\ length (heap s') = length (heap s)
  /\ forall r row, heap s !! r = Some row ->
       exists row', heap s' !! r = Some row' /\ same_place row row'.

(** [StyleGroup.on_widget_change] for a present widget, with the choice
    between refresh and rebuild given from outside. *)
Definition group_change_deciding (editor_set : Value -> option Exn)
    (optimize : bool) (self : Scope) (w : Widget) : M unit :=
  update_group self (set_widget (Some w)) ;;
  definitions ← get_definition self;
  (if optimize then refresh editor_set self definitions
   else rebuild editor_set self definitions) ;;
  update_group self (set_has_initialized true) ;;
  update_group self (set_prev_widget (Some w)).

(** The new widget has the class of the previous one. *)
Definition same_class_as_previous (grp : Group) (w : Widget) : bool :=
  bool_decide (class_of (Some w) = class_of (_prev_widget grp)).

(** The branch each class of group takes for a present widget. *)
Definition refreshes_in_place (grp : Group) (w : Widget) : bool :=
  match gclass grp with
  | StyleGroup => false
  | IdentityGroup => _has_initialized grp
  | AttributeGroup => same_class_as_previous grp w
  | LayoutGroup => spec_layout_can_optimize grp w
  end.

(** The pane as [StylePane.__init__] wired it: the three groups of their
    classes in registration order, the Layout group known as such, and every
    row a group lists in [items] a row of the store. *)
Definition wired (s : State) : Prop :=
  pane_groups (pane s) = [0; 1; 2]
  /\ _layout_group (pane s) = 1
  /\ gclass <$> groups s = [IdentityGroup; LayoutGroup; AttributeGroup]
  /\ forall g grp r, groups s !! g = Some grp ->
       r ∈ dict_values (items grp) -> r < length (heap s).

(** What a search for [query] makes of a row that a group lists. *)
Definition filter_row (query : string) (row : Row) : Row :=
  set_packed (contains query (d_display_name (definition row))) row.

(** [s'] is [s] after a search for [query] has gone over the rows [seen]. *)
Definition searched (query : string) (seen : list RowId) (s s' : State) : Prop :=
  groups s' = groups s /\ _pool s' = _pool s /\ pane s' = pane s /\ log s' = log s
  /\ length (heap s') = length (heap s)
  /\ forall r row, heap s !! r = Some row ->
       heap s' !! r = Some (if decide (r ∈ seen) then filter_row query row else row).

(** [_toggle], the handler of the header's button. *)
Definition _toggle : M unit :=
  s ← get;
  if negb (_expanded (pane s)) then expand_all else collapse_all.

(** Row [r] has been displaced from [pool[scope][key]]: the entry holds a
    younger row, and no entry of the pool holds [r]. *)
Definition displaced (scope : Scope) (key : string) (r : RowId)
    (pools : gmap nat (gmap (string + nat) nat)) : Prop :=
  pool_holds_since scope key (S r) pools
  /\ forall p k, pool_at pools p k <> Some r.

(** Row [row] shows definition [d] on behalf of group [g]: built under the
    group, bound to the definition's name, value and label, packed, and
    reporting edits to the group's [apply]. *)
Definition shows (g : Scope) (d : StyleDef) (row : Row) : Prop :=
  parent row = g /\ name row = d_name d /\ editor_value row = d_value d
  /\ label_text row = d_display_name d /\ packed row = true
  /\ _on_change row = Some (BoundApply g).

(** Group [g] lists one row for each of the definitions [ds], in their
    order and under their names, each row filed in the pool under that name
    and showing its definition. *)
Definition lists_rows_for (g : Scope) (ds : list StyleDef) (s : State) : Prop :=
  exists grp, groups s !! g = Some grp
    /\ dict_keys (items grp) = d_name <$> ds
    /\ forall d, d ∈ ds ->
         exists r row, dict_get (d_name d) (items grp) = Some r
                       /\ pool_row s g (d_name d) = Some r
                       /\ heap s !! r = Some row /\ shows g d row.

(** * Reasoning about computations *)

Lemma preserves_ret {A} I (a : A) : preserves I (mret a).
Proof. intros s Hs. exact Hs. Qed.

Lemma preserves_raise {A} I e : preserves I (@raise A e).
Proof. intros s Hs. exact Hs. Qed.

Lemma preserves_get I : preserves I get.
Proof. intros s Hs. exact Hs. Qed.

Lemma preserves_read_row I r : preserves I (read_row r).
Proof. intros s Hs. unfold read_row. destruct (heap s !! r); exact Hs. Qed.

Lemma preserves_read_group I g : preserves I (read_group g).
Proof. intros s Hs. unfold read_group. destruct (groups s !! g); exact Hs. Qed.

Lemma preserves_bind {A B} I (m : M A) (f : A -> M B) :
  preserves I m -> (forall a, preserves I (f a)) -> preserves I (m ≫= f).
Proof.
  intros Hm Hf s Hs. specialize (Hm s Hs).
  unfold mbind, M_bind. destruct (m s) as [[a|e] s']; simpl in *.
  - apply Hf, Hm.
  - exact Hm.
Qed.

Lemma preserves_try_except {A} I (c : M A) h :
  preserves I c -> (forall e, preserves I (h e)) -> preserves I (try_except c h).
Proof.
  intros Hc Hh s Hs. specialize (Hc s Hs).
  unfold try_except. destruct (c s) as [[a|e] s']; simpl in *.
  - exact Hc.
  - apply Hh, Hc.
Qed.

Lemma preserves_for_each {A} I (xs : list A) f :
  (forall x, preserves I (f x)) -> preserves I (for_each xs f).
Proof.
  intros Hf. induction xs as [|x xs IH]; simpl.
  - apply preserves_ret.
  - apply preserves_bind; [apply Hf | intros _; exact IH].
Qed.

Lemma preserves_run_stmts I stmts :
  Forall (preserves I) stmts -> preserves I (run_stmts stmts).
Proof.
  induction 1 as [|c stmts Hc _ IH]; simpl.
  - apply preserves_ret.
  - apply preserves_bind; [exact Hc | intros _; exact IH].
Qed.

Lemma preserves_host_call I r : preserves I (host_call r).
Proof. destruct r; [apply preserves_raise | apply preserves_ret]. Qed.

Lemma preserves_iter I d : preserves I (iter d).
Proof. destruct d; [apply preserves_ret | apply preserves_raise]. Qed.

Lemma preserves_subscript {A} I (d : list (string * A)) k : preserves I (subscript d k).
Proof. unfold subscript. destruct (dict_get k d); [apply preserves_ret | apply preserves_raise]. Qed.

Create HintDb preserve.
#[export] Hint Resolve preserves_ret preserves_raise preserves_get preserves_read_row
  preserves_read_group preserves_host_call preserves_iter preserves_subscript : preserve.

(** Walks a computation along its binds, loops and branches; what is left
    are the primitive updates. *)
Ltac preserve_step :=
  match goal with
  | |- preserves _ (_ ≫= _) => apply preserves_bind; [| intros ?]
  | |- preserves _ (try_except _ _) => apply preserves_try_except; [| intros ?]
  | |- preserves _ (for_each _ _) => apply preserves_for_each; intros ?
  | |- preserves _ (match ?x with _ => _ end) => destruct x
  | |- preserves _ (if ?b then _ else _) => destruct b
  end.

Ltac preserve := repeat (first [ solve [eauto with preserve] | preserve_step ]).

Lemma row_frame_set_name x : row_frame (set_name x).
Proof. intros row. auto. Qed.
Lemma row_frame_set_editor_value x : row_frame (set_editor_value x).
Proof. intros row. auto. Qed.
Lemma row_frame_set_label_text x : row_frame (set_label_text x).
Proof. intros row. auto. Qed.
Lemma row_frame_set_on_change x : row_frame (set_on_change x).
Proof. intros row. auto. Qed.
Lemma row_frame_set_packed x : row_frame (set_packed x).
Proof. intros row. auto. Qed.
Lemma row_frame_set_destroyed x : row_frame (set_destroyed x).
Proof. intros row. auto. Qed.

Lemma group_frame_set_items x : group_frame (set_items x).
Proof. intros grp. auto. Qed.
Lemma group_frame_set_label x : group_frame (set_label x).
Proof. intros grp. auto. Qed.
Lemma group_frame_set_prev_layout x : group_frame (set_prev_layout x).
Proof. intros grp. auto. Qed.
Lemma group_frame_set_collapsed x : group_frame (set_collapsed x).
Proof. intros grp. auto. Qed.
Lemma group_frame_set_items_fun (f : list (string * nat) -> list (string * nat)) :
  group_frame (fun grp => set_items (f (items grp)) grp).
Proof. intros grp. auto. Qed.

#[export] Hint Resolve row_frame_set_name row_frame_set_editor_value
  row_frame_set_label_text row_frame_set_on_change row_frame_set_packed
  row_frame_set_destroyed group_frame_set_items group_frame_set_label
  group_frame_set_prev_layout group_frame_set_collapsed
  group_frame_set_items_fun : preserve.

(** ** Invariants carried by every operation

    An invariant that survives the primitive updates survives every method
    built from them. *)
Section Stability.

Variable editor_set : Value -> option Exn.
Variable I : State -> Prop.

(** The groups a method may write to. *)
Variable touched : Scope -> Prop.

Hypothesis I_row : forall r f, row_frame f -> preserves I (update_row r f).
Hypothesis I_children : forall g, preserves I (clear_children g).
Hypothesis I_group :
  forall g f, touched g -> group_frame f -> preserves I (update_group g f).
Hypothesis I_pane : forall f, preserves I (update_pane f).
Hypothesis I_log : forall e, preserves I (logging e).
Hypothesis I_acquire :
  forall p d cb, touched p -> preserves I (acquire editor_set p d cb).

Local Hint Resolve I_row I_children I_group I_pane I_log I_acquire : preserve.

Lemma re_purposed_preserves self d cb : preserves I (_re_purposed editor_set self d cb).
Proof.
  unfold _re_purposed, rebind_begin, rebind_end. preserve.
  apply preserves_run_stmts. unfold rebind_stmts, _editor_set.
  repeat constructor; preserve.
Qed.

Lemma add_preserves g item : touched g -> preserves I (add g item).
Proof. intros Hg. unfold add, _show, pack. preserve. Qed.

Lemma remove_preserves g item : touched g -> preserves I (remove g item).
Proof. intros Hg. unfold remove, _hide, pack_forget. preserve. Qed.

Lemma apply_preserves g prop value : preserves I (apply g prop value).
Proof. unfold apply, StyleGroup_apply, LayoutGroup_apply. preserve. Qed.

Local Hint Resolve re_purposed_preserves add_preserves : preserve.

Lemma refresh_preserves g defs : preserves I (refresh editor_set g defs).
Proof. unfold refresh. preserve. Qed.

Lemma rebuild_preserves g defs : touched g -> preserves I (rebuild editor_set g defs).
Proof. intros Hg. unfold rebuild. preserve. Qed.

Local Hint Resolve refresh_preserves rebuild_preserves : preserve.

Lemma on_search_query_preserves g q : preserves I (on_search_query g q).
Proof. unfold on_search_query, _show, _hide, pack, pack_forget. preserve. Qed.

Lemma collapse_preserves g : touched g -> preserves I (collapse g).
Proof. intros Hg. unfold collapse. preserve. Qed.

Lemma expand_preserves g : touched g -> preserves I (expand g).
Proof. intros Hg. unfold expand. preserve. Qed.

Lemma remove_empty_preserves : preserves I remove_empty.
Proof. unfold remove_empty. preserve. Qed.

Local Hint Resolve on_search_query_preserves collapse_preserves expand_preserves
  remove_empty_preserves : preserve.

Lemma can_optimize_preserves g : preserves I (can_optimize g).
Proof. unfold can_optimize. preserve. Qed.

Lemma get_definition_preserves g : preserves I (get_definition g).
Proof. unfold get_definition. preserve. Qed.

Local Hint Resolve can_optimize_preserves get_definition_preserves : preserve.

(** [on_widget_change] also writes [_widget], and on success
    [_has_initialized] and [_prev_widget]: an invariant has to survive those
    writes as the method makes them. *)
Section OneChange.

Variable w : option Widget.
Hypothesis I_widget : forall g, touched g -> preserves I (update_group g (set_widget w)).
Hypothesis I_finish : forall g, touched g ->
  preserves I (update_group g (set_has_initialized true) ;;
               update_group g (set_prev_widget w)).

Lemma StyleGroup_on_widget_change_preserves g :
  touched g -> preserves I (StyleGroup_on_widget_change editor_set g w).
Proof using All. intros Hg. unfold StyleGroup_on_widget_change. preserve. Qed.

Lemma on_widget_change_preserves g :
  touched g -> preserves I (on_widget_change editor_set g w).
Proof using All.
  intros Hg. pose proof (StyleGroup_on_widget_change_preserves g Hg).
  unfold on_widget_change, LayoutGroup_on_widget_change. preserve.
Qed.

Lemma styles_for_preserves :
  (forall g, touched g) -> preserves I (styles_for editor_set w).
Proof using All.
  intros Hall. pose proof (fun g => on_widget_change_preserves g (Hall g)).
  unfold styles_for, show_empty, show_loading. preserve.
Qed.

Lemma layout_for_preserves :
  (forall g, touched g) -> preserves I (layout_for editor_set w).
Proof using All.
  intros Hall. pose proof (fun g => on_widget_change_preserves g (Hall g)).
  unfold layout_for. preserve.
Qed.

End OneChange.

Variable allowed : Op -> Prop.

Hypothesis touched_all : forall g, touched g.
Hypothesis I_widget : forall w g, preserves I (update_group g (set_widget w)).
Hypothesis I_finish : forall w g,
  preserves I (update_group g (set_has_initialized true) ;;
               update_group g (set_prev_widget w)).
Hypothesis I_destroy : forall r, preserves I (destroy r).
Hypothesis I_map : forall r, allowed (MapEvent r) -> preserves I (deliver_Map r).
Hypothesis I_unmap : forall r, preserves I (deliver_Unmap r).

Lemma exec_preserves op : allowed op -> preserves I (exec editor_set op).
Proof using All.
  intros Hop. destruct op; simpl.
  - apply styles_for_preserves; auto.
  - apply layout_for_preserves; auto.
  - apply on_widget_change_preserves; auto.
  - apply apply_preserves.
  - preserve.
  - apply I_destroy.
  - apply add_preserves, touched_all.
  - apply remove_preserves, touched_all.
  - unfold pane_on_search_query. preserve.
  - unfold pane_on_search_clear, on_search_clear. preserve.
  - unfold expand_all. preserve.
  - unfold collapse_all. preserve.
  - unfold clear_all. preserve.
  - apply I_map, Hop.
  - apply I_unmap.
Qed.

Lemma run_preserves ops s : Forall allowed ops -> I s -> I (run editor_set ops s).
Proof using All.
  intros Hops. revert s. induction Hops as [|op ops Hop _ IH]; intros s Hs; simpl.
  - exact Hs.
  - apply IH. apply exec_preserves; assumption.
Qed.

End Stability.

(** ** What the primitive updates do to the store *)

Lemma update_row_post r f s :
  (update_row r f s).2 =
  match heap s !! r with
  | Some row => set_heap (<[r := f row]> (heap s)) s
  | None => s
  end.
Proof. unfold update_row. destruct (heap s !! r); reflexivity. Qed.

Lemma update_group_post g f s :
  (update_group g f s).2 =
  match groups s !! g with
  | Some grp => set_groups (<[g := f grp]> (groups s)) s
  | None => s
  end.
Proof. unfold update_group. destruct (groups s !! g); reflexivity. Qed.

Lemma bind_eval {A B} (m : M A) (f : A -> M B) s a s' :
  m s = (Ret a, s') -> (m ≫= f) s = f a s'.
Proof. intros H. unfold mbind, M_bind. by rewrite H. Qed.

Lemma bind_raise {A B} (m : M A) (f : A -> M B) s e s' :
  m s = (Raise e, s') -> (m ≫= f) s = (Raise e, s').
Proof. intros H. unfold mbind, M_bind. by rewrite H. Qed.

Lemma bind_cong_l {A B} (m m' : M A) (f : A -> M B) s :
  m s = m' s -> (m ≫= f) s = (m' ≫= f) s.
Proof. intros H. unfold mbind, M_bind. by rewrite H. Qed.

Lemma preserves_modify I f : (forall s, I s -> I (f s)) -> preserves I (modify f).
Proof. intros H s Hs. apply H, Hs. Qed.

(** Reading a row after an update of row [r]. *)
Lemma heap_insert_lookup (h : list Row) r f row r' row' :
  h !! r = Some row ->
  <[r := f row]> h !! r' = Some row' ->
  (r' = r /\ row' = f row) \/ (r' <> r /\ h !! r' = Some row').
Proof.
  intros Hr H. apply list_lookup_insert_Some in H as [(-> & <- & _)|[Hne H]].
  - left. split; reflexivity.
  - right. split; [congruence | exact H].
Qed.

(** An invariant of the heap alone survives an update that maps a good
    row to a good row. *)
Lemma heap_rows_update (P : Row -> Prop) r f s :
  (forall row, P row -> P (f row)) ->
  (forall r' row, heap s !! r' = Some row -> P row) ->
  forall r' row, heap (update_row r f s).2 !! r' = Some row -> P row.
Proof.
  intros Hf Hs r' row'. rewrite update_row_post.
  destruct (heap s !! r) as [row|] eqn:Hr; simpl; [| apply Hs].
  intros H. destruct (heap_insert_lookup _ _ _ _ _ _ Hr H) as [[-> ->]|[_ H']].
  - apply Hf, (Hs r), Hr.
  - apply (Hs r'), H'.
Qed.

(** ** The pool points into the heap *)

Lemma pool_inv_same_rows s s' :
  _pool s' = _pool s -> heap s' = heap s -> pool_inv s -> pool_inv s'.
Proof. intros Hp Hh H p pool k r. rewrite Hp, Hh. apply H. Qed.

Lemma pool_inv_update_row r f :
  (forall row, parent (f row) = parent row) -> preserves pool_inv (update_row r f).
Proof.
  intros Hf s Hs p pool k r0. rewrite update_row_post.
  destruct (heap s !! r) as [row|] eqn:Hr; simpl; [| apply Hs].
  intros Hp Hk. destruct (Hs p pool k r0 Hp Hk) as (nm & row0 & -> & Hr0 & Hpar).
  exists nm. destruct (decide (r = r0)) as [->|Hne].
  - exists (f row). rewrite list_lookup_insert_eq by (eapply lookup_lt_Some; eauto).
    rewrite Hf. split_and!; [done..|congruence].
  - exists row0. rewrite list_lookup_insert_ne by done. done.
Qed.

Lemma pool_inv_clear_children g : preserves pool_inv (clear_children g).
Proof.
  intros s Hs p pool k r0 Hp Hk. simpl in *.
  destruct (Hs p pool k r0 Hp Hk) as (nm & row0 & -> & Hr0 & Hpar).
  exists nm. eexists. split; [done|]. rewrite list_lookup_fmap, Hr0. simpl.
  split; [done|]. by destruct (parent row0 =? g).
Qed.

Lemma pool_inv_update_group g f : preserves pool_inv (update_group g f).
Proof.
  intros s Hs. rewrite update_group_post.
  destruct (groups s !! g); [| exact Hs]. by eapply pool_inv_same_rows.
Qed.

Lemma pool_inv_update_pane f : preserves pool_inv (update_pane f).
Proof. intros s Hs. by eapply pool_inv_same_rows. Qed.

Lemma pool_inv_logging e : preserves pool_inv (logging e).
Proof. intros s Hs. by eapply pool_inv_same_rows. Qed.

Lemma pool_inv_construct p d cb : preserves pool_inv (ReusableStyleItem p d cb).
Proof.
  intros s Hs p0 pool0 k r0. simpl.
  destruct (decide (p = p0)) as [<-|Hne].
  - rewrite lookup_insert_eq. intros [= <-].
    destruct (decide (k = inl (d_name d))) as [->|Hk].
    + rewrite lookup_insert_eq. intros [= <-]. eexists _, _.
      split; [done|]. rewrite lookup_app_r, Nat.sub_diag by done. done.
    + rewrite lookup_insert_ne by done. intros Hk0.
      destruct (_pool s !! p) as [pool|] eqn:Hp; simpl in Hk0; [| by rewrite lookup_empty in Hk0].
      destruct (Hs p pool k r0 Hp Hk0) as (nm & row0 & -> & Hr0 & Hpar).
      exists nm, row0. split_and!; [done| |done]. by apply lookup_app_l_Some.
  - rewrite lookup_insert_ne by done. intros Hp Hk.
    destruct (Hs p0 pool0 k r0 Hp Hk) as (nm & row0 & -> & Hr0 & Hpar).
    exists nm, row0. split_and!; [done| |done]. by apply lookup_app_l_Some.
Qed.

Lemma pool_inv_pooled p d : preserves pool_inv (pooled p d).
Proof.
  unfold pooled. apply preserves_bind; [apply preserves_get | intros s0].
  preserve.
Qed.

Lemma pool_inv_acquire editor_set p d cb : preserves pool_inv (acquire editor_set p d cb).
Proof.
  unfold acquire. apply preserves_bind; [apply pool_inv_pooled | intros [item|]].
  - apply re_purposed_preserves. intros r f Hf. apply pool_inv_update_row, Hf.
  - apply pool_inv_construct.
Qed.

(** Filing a scope's own dict again, or the same dict less some key. *)
Lemma pool_inv_refile (s : State) (p : nat) (pool' : gmap (string + nat) nat) :
  pool_inv s ->
  (forall k r, pool' !! k = Some r -> exists pool, _pool s !! p = Some pool /\ pool !! k = Some r) ->
  pool_inv (set_pool (<[p := pool']> (_pool s)) s).
Proof.
  intros Hs Hsub p0 pool0 k r0. simpl.
  destruct (decide (p = p0)) as [<-|Hne].
  - rewrite lookup_insert_eq. intros [= <-] Hk.
    destruct (Hsub k r0 Hk) as (pool & Hp & Hk'). by eapply Hs.
  - rewrite lookup_insert_ne by done. apply Hs.
Qed.

Lemma default_pool_lookup (pools : gmap nat (gmap (string + nat) nat)) (p : nat) k r :
  default ∅ (pools !! p) !! k = Some r ->
  exists pool, pools !! p = Some pool /\ pool !! k = Some r.
Proof.
  destruct (pools !! p) as [pool|]; simpl.
  - intros H. by exists pool.
  - by rewrite lookup_empty.
Qed.

Lemma pool_inv_destroy r : preserves pool_inv (destroy r).
Proof.
  unfold destroy. apply preserves_bind; [apply preserves_read_row | intros row].
  intros s Hs. unfold mbind, M_bind, get, modify. simpl.
  destruct (decide (is_Some (default ∅ (_pool s !! parent row) !! inr r))); simpl;
    apply pool_inv_update_row; try done.
  - apply (pool_inv_same_rows (set_pool (<[parent row := delete (inr r) (default ∅ (_pool s !! parent row))]> (_pool s)) s)); [done..|].
    apply pool_inv_refile; [done|]. intros k r0 [_ Hk]%lookup_delete_Some.
    by apply default_pool_lookup.
  - apply pool_inv_refile; [done|]. intros k r0. apply default_pool_lookup.
Qed.

Lemma pool_inv_deliver_Map r : preserves pool_inv (deliver_Map r).
Proof. unfold deliver_Map, _make_available. preserve; by apply pool_inv_update_row. Qed.

Lemma pool_inv_deliver_Unmap r : preserves pool_inv (deliver_Unmap r).
Proof. unfold deliver_Unmap, _make_available. preserve; by apply pool_inv_update_row. Qed.

Lemma pool_inv_init : pool_inv init.
Proof. intros p pool k r. simpl. by rewrite lookup_empty. Qed.

Lemma pool_inv_exec editor_set op : preserves pool_inv (exec editor_set op).
Proof.
  apply (exec_preserves editor_set pool_inv (fun _ => True))
    with (allowed := fun _ => True); try done.
  - intros r f Hf. apply pool_inv_update_row, Hf.
  - apply pool_inv_clear_children.
  - intros g f _ _. apply pool_inv_update_group.
  - apply pool_inv_update_pane.
  - apply pool_inv_logging.
  - intros p d cb _. apply pool_inv_acquire.
  - intros w g. apply pool_inv_update_group.
  - intros w g. apply preserves_bind; [| intros _]; apply pool_inv_update_group.
  - apply pool_inv_destroy.
  - intros r _. apply pool_inv_deliver_Map.
  - apply pool_inv_deliver_Unmap.
Qed.

Lemma reachable_pool_inv editor_set s : reachable editor_set s -> pool_inv s.
Proof.
  induction 1 as [|s op _ IH]; [apply pool_inv_init | by apply pool_inv_exec].
Qed.

(** ** Availability follows the visibility notifications *)

Lemma avail_inv_same_heap s s' : heap s' = heap s -> avail_inv s -> avail_inv s'.
Proof. intros Hh H r row. rewrite Hh. apply H. Qed.

Lemma avail_inv_update_row r f :
  (forall row, tracks_visibility row -> tracks_visibility (f row)) ->
  preserves avail_inv (update_row r f).
Proof. intros Hf s Hs. exact (heap_rows_update tracks_visibility r f s Hf Hs). Qed.

Lemma row_frame_tracks f row :
  row_frame f -> tracks_visibility row -> tracks_visibility (f row).
Proof.
  intros Hf. unfold tracks_visibility.
  destruct (Hf row) as (_ & -> & ->). done.
Qed.

Lemma avail_inv_clear_children g : preserves avail_inv (clear_children g).
Proof.
  intros s Hs r row. simpl. rewrite list_lookup_fmap.
  destruct (heap s !! r) as [row0|] eqn:Hr; simpl; [| done].
  intros [= <-]. specialize (Hs r row0 Hr).
  by destruct (parent row0 =? g).
Qed.

Lemma avail_inv_update_group g f : preserves avail_inv (update_group g f).
Proof.
  intros s Hs. rewrite update_group_post.
  destruct (groups s !! g); [| exact Hs]. by eapply avail_inv_same_heap.
Qed.

Lemma avail_inv_construct p d cb : preserves avail_inv (ReusableStyleItem p d cb).
Proof.
  intros s Hs r row. simpl.
  intros [H|[_ H]]%lookup_app_Some; [by eapply Hs|].
  destruct (r - length (heap s)); [| done]. by injection H as <-.
Qed.

Lemma avail_inv_acquire editor_set p d cb : preserves avail_inv (acquire editor_set p d cb).
Proof.
  unfold acquire. apply preserves_bind.
  - unfold pooled. apply preserves_bind; [apply preserves_get | intros s0]. preserve.
  - intros [item|]; [| apply avail_inv_construct].
    apply re_purposed_preserves. intros r f Hf.
    apply avail_inv_update_row. intros row. by apply row_frame_tracks.
Qed.

Lemma avail_inv_destroy r : preserves avail_inv (destroy r).
Proof.
  unfold destroy. apply preserves_bind; [apply preserves_read_row | intros row].
  apply preserves_bind; [apply preserves_get | intros s0].
  assert (forall x, preserves avail_inv (modify (set_pool x))) as Hpool.
  { intros x. apply preserves_modify. intros s. by apply avail_inv_same_heap. }
  preserve. apply avail_inv_update_row. intros row0.
  apply row_frame_tracks. auto with preserve.
Qed.

(** The handler runs with the notification: between the two writes the
    flag is stale, after both it is right again. *)
Lemma deliver_post self flag s :
  (update_row self (set_mapped flag) ;; _make_available self (negb flag)) s =
  match heap s !! self with
  | Some row =>
      (Ret tt,
       set_heap (<[self := set_is_available (negb flag) (set_mapped flag row)]> (heap s)) s)
  | None => (Raise Dangling, s)
  end.
Proof.
  unfold mbind, M_bind, _make_available, update_row.
  destruct (heap s !! self) as [row|] eqn:Hr; simpl; [| done].
  rewrite list_lookup_insert_eq by (eapply lookup_lt_Some; eauto).
  unfold set_heap. simpl. by rewrite list_insert_insert_eq.
Qed.

Lemma avail_inv_deliver self flag :
  preserves avail_inv (update_row self (set_mapped flag) ;; _make_available self (negb flag)).
Proof.
  intros s Hs. rewrite deliver_post.
  destruct (heap s !! self) as [row|] eqn:Hr; simpl; [| done].
  intros r row'. simpl. intros H.
  destruct (heap_insert_lookup _ _ (fun _ => _) _ _ _ Hr H) as [[-> ->]|[_ H']].
  - done.
  - by eapply Hs.
Qed.

Lemma avail_inv_init : avail_inv init.
Proof. intros r row. done. Qed.

Lemma avail_inv_exec editor_set op : preserves avail_inv (exec editor_set op).
Proof.
  apply (exec_preserves editor_set avail_inv (fun _ => True))
    with (allowed := fun _ => True); try done.
  - intros r f Hf. apply avail_inv_update_row. intros row. by apply row_frame_tracks.
  - apply avail_inv_clear_children.
  - intros g f _ _. apply avail_inv_update_group.
  - intros f. apply preserves_modify. intros s. by apply avail_inv_same_heap.
  - intros e. apply preserves_modify. intros s. by apply avail_inv_same_heap.
  - intros p d cb _. apply avail_inv_acquire.
  - intros w g. apply avail_inv_update_group.
  - intros w g. apply preserves_bind; [| intros _]; apply avail_inv_update_group.
  - apply avail_inv_destroy.
  - intros r _. apply (avail_inv_deliver r true).
  - intros r. apply (avail_inv_deliver r false).
Qed.

(** ** A group that remembers a previous widget has been initialized *)

Lemma init_inv_same_groups s s' : groups s' = groups s -> init_inv s -> init_inv s'.
Proof. intros Hg H g grp. rewrite Hg. apply H. Qed.

Lemma init_inv_update_row r f : preserves init_inv (update_row r f).
Proof.
  intros s Hs. rewrite update_row_post.
  destruct (heap s !! r); [| exact Hs]. by eapply init_inv_same_groups.
Qed.

Lemma init_inv_update_group g f :
  (forall grp, is_Some (_prev_widget (f grp)) ->
               (is_Some (_prev_widget grp) -> _has_initialized grp = true) ->
               _has_initialized (f grp) = true) ->
  preserves init_inv (update_group g f).
Proof.
  intros Hf s Hs g' grp'. rewrite update_group_post.
  destruct (groups s !! g) as [grp|] eqn:Hg; simpl; [| apply Hs].
  intros [(-> & <- & _)|[_ H]]%list_lookup_insert_Some.
  - intros Hp. apply Hf; [done|]. exact (Hs _ _ Hg).
  - exact (Hs _ _ H).
Qed.

Lemma init_inv_group_frame g f : group_frame f -> preserves init_inv (update_group g f).
Proof.
  intros Hf. apply init_inv_update_group. intros grp.
  destruct (Hf grp) as (_ & _ & -> & ->). auto.
Qed.

Lemma init_inv_set_widget g w : preserves init_inv (update_group g (set_widget w)).
Proof. apply init_inv_update_group. intros grp. simpl. auto. Qed.

(** The order of the last two writes of [on_widget_change] matters:
    [_has_initialized] is set before [_prev_widget]. *)
Lemma init_inv_finish g w :
  preserves init_inv (update_group g (set_has_initialized true) ;;
                      update_group g (set_prev_widget w)).
Proof.
  intros s Hs. unfold mbind, M_bind, update_group.
  destruct (groups s !! g) as [grp|] eqn:Hg; simpl; [| done].
  rewrite list_lookup_insert_eq by (eapply lookup_lt_Some; eauto). simpl.
  intros g' grp'. simpl. rewrite list_insert_insert_eq.
  intros [(-> & <- & _)|[_ H]]%list_lookup_insert_Some; [done|].
  by apply (Hs g').
Qed.

Lemma init_inv_construct p d cb : preserves init_inv (ReusableStyleItem p d cb).
Proof. intros s Hs. by eapply init_inv_same_groups. Qed.

Lemma init_inv_acquire editor_set p d cb : preserves init_inv (acquire editor_set p d cb).
Proof.
  unfold acquire. apply preserves_bind.
  - unfold pooled. apply preserves_bind; [apply preserves_get | intros s0]. preserve.
  - intros [item|]; [| apply init_inv_construct].
    apply re_purposed_preserves. intros r f _. apply init_inv_update_row.
Qed.

Lemma init_inv_destroy r : preserves init_inv (destroy r).
Proof.
  unfold destroy. apply preserves_bind; [apply preserves_read_row | intros row].
  apply preserves_bind; [apply preserves_get | intros s0].
  assert (forall x, preserves init_inv (modify (set_pool x))) as Hpool.
  { intros x. apply preserves_modify. intros s. by apply init_inv_same_groups. }
  preserve. apply init_inv_update_row.
Qed.

Lemma init_inv_init : init_inv init.
Proof.
  intros g grp Hg [w Hw].
  destruct g as [|[|[|g]]]; simpl in Hg; try done; by injection Hg as <-.
Qed.

Lemma init_inv_exec editor_set op : preserves init_inv (exec editor_set op).
Proof.
  apply (exec_preserves editor_set init_inv (fun _ => True))
    with (allowed := fun _ => True); try done.
  - intros r f _. apply init_inv_update_row.
  - intros g. apply preserves_modify. intros s. by apply init_inv_same_groups.
  - intros g f _. apply init_inv_group_frame.
  - intros f. apply preserves_modify. intros s. by apply init_inv_same_groups.
  - intros e. apply preserves_modify. intros s. by apply init_inv_same_groups.
  - intros p d cb _. apply init_inv_acquire.
  - intros w g. apply init_inv_set_widget.
  - intros w g. apply init_inv_finish.
  - apply init_inv_destroy.
  - intros r _. unfold deliver_Map, _make_available. preserve; apply init_inv_update_row.
  - intros r. unfold deliver_Unmap, _make_available. preserve; apply init_inv_update_row.
Qed.

Lemma reachable_init_inv editor_set s : reachable editor_set s -> init_inv s.
Proof.
  induction 1 as [|s op _ IH]; [apply init_inv_init | by apply init_inv_exec].
Qed.

Lemma reachable_avail_inv editor_set s : reachable editor_set s -> avail_inv s.
Proof.
  induction 1 as [|s op _ IH]; [apply avail_inv_init | by apply avail_inv_exec].
Qed.

(** * The pool *)

Lemma with_row_id r row s : heap s !! r = Some row -> with_row r row s = s.
Proof.
  intros H. unfold with_row, set_heap. rewrite list_insert_id by done. by destruct s.
Qed.

Lemma with_row_lookup r row0 row s :
  heap s !! r = Some row0 -> heap (with_row r row s) !! r = Some row.
Proof. intros H. simpl. apply list_lookup_insert_eq. by eapply lookup_lt_Some. Qed.

Lemma with_row_twice r row row' s : with_row r row' (with_row r row s) = with_row r row' s.
Proof. unfold with_row, set_heap. simpl. by rewrite list_insert_insert_eq. Qed.

Lemma update_row_with_row r f row0 row s :
  heap s !! r = Some row0 ->
  update_row r f (with_row r row s) = (Ret tt, with_row r (f row) s).
Proof.
  intros H. unfold update_row. rewrite (with_row_lookup _ _ _ _ H).
  f_equal. apply with_row_twice.
Qed.

Lemma read_row_with_row r row0 row s :
  heap s !! r = Some row0 ->
  read_row r (with_row r row s) = (Ret row, with_row r row s).
Proof. intros H. unfold read_row. by rewrite (with_row_lookup _ _ _ _ H). Qed.

Section PoolFacts.

Variable editor_set : Value -> option Exn.

Lemma rebind_begin_with_row self on_change row0 row s :
  heap s !! self = Some row0 ->
  rebind_begin self on_change (with_row self row s) =
  (Ret (installed on_change row), with_row self (set_on_change None row) s).
Proof.
  intros H. unfold rebind_begin, mbind, M_bind.
  destruct on_change as [cb|]; unfold mret, M_ret.
  - rewrite (update_row_with_row _ _ _ _ _ H), (read_row_with_row _ _ _ _ H).
    by rewrite (update_row_with_row _ _ _ _ _ H).
  - rewrite (read_row_with_row _ _ _ _ H).
    by rewrite (update_row_with_row _ _ _ _ _ H).
Qed.

Lemma rebind_begin_eval self on_change row s :
  heap s !! self = Some row ->
  rebind_begin self on_change s =
  (Ret (installed on_change row), with_row self (set_on_change None row) s).
Proof.
  intros H. rewrite <- (with_row_id _ _ _ H) at 1.
  by apply rebind_begin_with_row with (row0 := row).
Qed.

Lemma re_purposed_eval self d on_change row s :
  heap s !! self = Some row ->
  _re_purposed editor_set self d on_change s =
  match editor_set (d_value d) with
  | None => (Ret self, with_row self (rebound d on_change row) s)
  | Some e => (Raise e, with_row self (abandoned d row) s)
  end.
Proof.
  intros H. unfold _re_purposed, mbind, M_bind.
  rewrite (rebind_begin_eval _ _ _ _ H).
  unfold rebind_stmts, run_stmts, _editor_set, rebind_end, mbind, M_bind, mret, M_ret.
  rewrite (update_row_with_row _ _ _ _ _ H).
  destruct (editor_set (d_value d)) as [e|]; [done|].
  by rewrite !(update_row_with_row _ _ _ _ _ H).
Qed.

(** What [pooled] answers in a store whose pool points into the heap. *)
Lemma pooled_eval s scope d :
  pool_inv s ->
  pooled scope d s =
  (Ret (match pool_row s scope (d_name d) with
        | Some r =>
            match heap s !! r with
            | Some row => if is_available row then Some r else None
            | None => None
            end
        | None => None
        end), s).
Proof.
  intros Hinv. unfold pooled, pool_row, mbind at 1, M_bind, get.
  destruct (_pool s !! scope) as [pool|] eqn:Hp; simpl; [| done].
  destruct (decide (pool = ∅)) as [->|Hne].
  - by rewrite lookup_empty.
  - destruct (pool !! inl (d_name d)) as [r|] eqn:Hk; [| done].
    destruct (Hinv _ _ _ _ Hp Hk) as (nm & row & _ & Hr & _).
    unfold mbind, M_bind, read_row. rewrite Hr. by destruct (is_available row).
Qed.

Lemma pool_row_construct s scope d cb :
  pool_row (ReusableStyleItem scope d cb s).2 scope (d_name d) = Some (length (heap s)).
Proof. unfold pool_row. simpl. rewrite lookup_insert_eq. simpl. by rewrite lookup_insert_eq. Qed.

Lemma acquire_eval s scope d cb :
  pool_inv s ->
  acquire editor_set scope d cb s =
  match reusable s scope (d_name d) with
  | Some r => _re_purposed editor_set r d cb s
  | None => ReusableStyleItem scope d cb s
  end.
Proof.
  intros Hinv. unfold acquire, mbind, M_bind.
  rewrite (pooled_eval _ _ _ Hinv). fold (reusable s scope (d_name d)).
  by destruct (reusable s scope (d_name d)).
Qed.

Lemma reusable_Some s scope key r :
  reusable s scope key = Some r <-> pool_row s scope key = Some r /\ available s r.
Proof.
  unfold reusable, available. split.
  - destruct (pool_row s scope key) as [r'|]; [| done].
    destruct (heap s !! r') as [row|] eqn:Hrow; [| done].
    destruct (is_available row) eqn:Hav; [| done].
    intros [= ->]. split; [done|]. by exists row.
  - intros [-> (row & -> & ->)]. done.
Qed.

Lemma reusable_None s scope key :
  reusable s scope key = None <->
  forall r, pool_row s scope key = Some r -> ~ available s r.
Proof.
  split.
  - intros Hn r Hr Hav. assert (reusable s scope key = Some r) by by apply reusable_Some.
    congruence.
  - intros H. destruct (reusable s scope key) as [r|] eqn:Hr; [| done].
    apply reusable_Some in Hr as [Hr Hav]. by destruct (H r Hr).
Qed.

Lemma pool_row_parent s scope key r :
  pool_inv s -> pool_row s scope key = Some r ->
  exists row, heap s !! r = Some row /\ parent row = scope.
Proof.
  intros Hinv Hr. unfold pool_row in Hr.
  destruct (_pool s !! scope) as [pool|] eqn:Hp; [| done]. simpl in Hr.
  destruct (Hinv _ _ _ _ Hp Hr) as (nm & row & _ & Hrow & Hpar). by exists row.
Qed.

(** The reuse branch of [acquire]. *)
Lemma acquire_reuse s scope d cb r :
  pool_inv s -> avail_inv s ->
  pool_row s scope (d_name d) = Some r -> available s r ->
  exists row, heap s !! r = Some row /\ parent row = scope /\
    mapped row = false /\
    acquire editor_set scope d cb s = _re_purposed editor_set r d cb s /\
    (forall r', (acquire editor_set scope d cb s).1 = Ret r' -> r' = r) /\
    (editor_set (d_value d) = None ->
       acquire editor_set scope d cb s =
       (Ret r, with_row r (rebound d cb row) s)) /\
    _pool (acquire editor_set scope d cb s).2 = _pool s /\
    length (heap (acquire editor_set scope d cb s).2) = length (heap s).
Proof.
  intros Hinv Havail Hr Hav. rewrite (acquire_eval _ _ _ _ Hinv).
  destruct (pool_row_parent _ _ _ _ Hinv Hr) as (row & Hrow & Hpar).
  assert (reusable s scope (d_name d) = Some r) as -> by by apply reusable_Some.
  exists row. split; [done|]. split; [done|]. split.
  { destruct Hav as (row' & Hrow' & Hav).
    pose proof (Havail _ _ Hrow) as Htr. unfold tracks_visibility in Htr.
    assert (row' = row) as -> by congruence.
    rewrite Hav in Htr. by destruct (mapped row). }
  rewrite (re_purposed_eval _ _ _ _ _ Hrow).
  destruct (editor_set (d_value d)) as [e|]; simpl.
  - split_and!; [done | intros r'; done | done | done | by rewrite length_insert].
  - split_and!; [done | by intros r' [= <-] | done | done | by rewrite length_insert].
Qed.

(** The construction branch of [acquire]. *)
Lemma acquire_construct s scope d cb :
  pool_inv s ->
  (forall r, pool_row s scope (d_name d) = Some r -> ~ available s r) ->
  acquire editor_set scope d cb s = ReusableStyleItem scope d cb s.
Proof.
  intros Hinv Hnone. rewrite (acquire_eval _ _ _ _ Hinv).
  by apply reusable_None in Hnone as ->.
Qed.

(** C1.  In a reachable store, [acquire] answers the pooled row of
    [pool[scope][key]], re-purposed, exactly when that row exists and is
    available: its outcome is then the outcome of re-purposing that row (the
    row whenever the rebind completes), the row's parent is [scope], and
    neither the pool nor the number of rows changes.  In every other case it
    returns a row that did not exist before, whose parent is [scope], that
    starts available, and that is filed at [pool[scope][key]].  A reused row
    is not mapped: no visible slot owns it. *)
Theorem acquire_reuses_exactly_the_available_row s scope d cb :
  reachable editor_set s ->
  (forall r, pool_row s scope (d_name d) = Some r -> available s r ->
     exists row, heap s !! r = Some row /\ parent row = scope /\
       mapped row = false /\
       acquire editor_set scope d cb s = _re_purposed editor_set r d cb s /\
       (forall r', (acquire editor_set scope d cb s).1 = Ret r' -> r' = r) /\
       (editor_set (d_value d) = None ->
          acquire editor_set scope d cb s =
          (Ret r, with_row r (rebound d cb row) s)) /\
       _pool (acquire editor_set scope d cb s).2 = _pool s /\
       length (heap (acquire editor_set scope d cb s).2) = length (heap s))
  /\ ((forall r, pool_row s scope (d_name d) = Some r -> ~ available s r) ->
      exists row, parent row = scope /\ is_available row = true /\
        name row = d_name d /\ _on_change row = cb /\
        heap s !! length (heap s) = None /\
        (acquire editor_set scope d cb s).1 = Ret (length (heap s)) /\
        heap (acquire editor_set scope d cb s).2 = heap s ++ [row] /\
        pool_row (acquire editor_set scope d cb s).2 scope (d_name d)
        = Some (length (heap s))).
Proof.
  intros Hreach. pose proof (reachable_pool_inv _ _ Hreach) as Hinv.
  pose proof (reachable_avail_inv _ _ Hreach) as Havail. split.
  - intros r Hr Hav. by apply acquire_reuse.
  - intros Hnone. rewrite (acquire_construct _ _ _ _ Hinv Hnone).
    exists (mkRow scope (d_name d) d (d_value d) (d_display_name d) cb
                  true false false false).
    split_and!; try done; [by apply lookup_ge_None | apply pool_row_construct].
Qed.

End PoolFacts.

(** * Availability and the displayed rows *)

(** C2, as amended.  Between operations, in every reachable store, a row's
    [is_available] is true exactly when the toolkit has not reported it
    mapped since it was built or since its last [<Unmap>]; whether the row
    is in a group's [items] does not enter. *)
Theorem available_iff_not_mapped editor_set s r row :
  reachable editor_set s ->
  heap s !! r = Some row ->
  (is_available row = true <-> mapped row = false).
Proof.
  intros Hreach Hrow.
  pose proof (reachable_avail_inv _ _ Hreach _ _ Hrow) as H.
  unfold tracks_visibility in H. rewrite H. by destruct (mapped row).
Qed.

(** * The Layout group's [can_optimize] *)

Section LayoutFacts.

Variable editor_set : Value -> option Exn.

Lemma update_group_eval g f grp s :
  groups s !! g = Some grp ->
  update_group g f s = (Ret tt, set_groups (<[g := f grp]> (groups s)) s).
Proof. intros H. unfold update_group. by rewrite H. Qed.

Lemma read_group_eval g grp s : groups s !! g = Some grp -> read_group g s = (Ret grp, s).
Proof. intros H. unfold read_group. by rewrite H. Qed.

(** Where the group remembers a previous widget it has been initialized, so
    the missing [_has_initialized] conjunct of the code changes nothing. *)
Lemma layout_can_optimize_eval s g grp w :
  init_inv s ->
  groups s !! g = Some grp ->
  gclass grp = LayoutGroup ->
  _widget grp = Some w ->
  can_optimize g s = (Ret (spec_layout_can_optimize grp w), s).
Proof.
  intros Hinv Hg Hc Hw. unfold can_optimize, mbind, M_bind.
  rewrite (read_group_eval _ _ _ Hg), Hc, Hw. unfold mret, M_ret. do 2 f_equal.
  unfold spec_layout_can_optimize.
  destruct (_has_initialized grp) eqn:Hi; [done|]. simpl.
  destruct (_prev_widget grp) as [pw|] eqn:Hp; simpl.
  - specialize (Hinv g grp Hg). rewrite Hp in Hinv.
    rewrite Hinv in Hi by eauto. done.
  - by rewrite andb_false_r.
Qed.

(** C3.  For a Layout group of a reachable store: [can_optimize], asked
    while a widget is selected, answers true exactly when the group is
    initialized, the widget's layout-strategy class is the remembered one,
    and the widget is the previous widget; and [on_widget_change] for a
    present widget refreshes in place when that predicate, taken over the
    group as the previous selection left it, is true and rebuilds when it is
    false. *)
Theorem layout_can_optimize_decides s g grp w :
  reachable editor_set s ->
  groups s !! g = Some grp ->
  gclass grp = LayoutGroup ->
  (_widget grp = Some w ->
   can_optimize g s = (Ret (spec_layout_can_optimize grp w), s))
  /\ (spec_layout_can_optimize grp w = true <->
      _has_initialized grp = true
      /\ Class (strategy_class (layout_strategy (layout w)))
         = strategy_class_of (_prev_layout grp)
      /\ same_object (Some w) (_prev_widget grp) = true)
  /\ on_widget_change editor_set g (Some w) s
     = layout_change_deciding editor_set (spec_layout_can_optimize grp w) g w s
  /\ (spec_layout_can_optimize grp w = false ->
      on_widget_change editor_set g (Some w) s = layout_change_deciding editor_set false g w s).
Proof.
  intros Hreach Hg Hc. pose proof (reachable_init_inv _ _ Hreach) as Hinv.
  assert (on_widget_change editor_set g (Some w) s
          = layout_change_deciding editor_set (spec_layout_can_optimize grp w) g w s) as Heq.
  { unfold on_widget_change. rewrite (bind_eval _ _ _ _ _ (read_group_eval _ _ _ Hg)), Hc.
    unfold LayoutGroup_on_widget_change, layout_change_deciding. apply bind_cong_l.
    unfold StyleGroup_on_widget_change.
    rewrite !(bind_eval _ _ _ _ _ (update_group_eval _ (set_widget (Some w)) _ _ Hg)).
    set (s1 := set_groups _ s).
    assert (groups s1 !! g = Some (set_widget (Some w) grp)) as Hg1.
    { simpl. apply list_lookup_insert_eq. by eapply lookup_lt_Some. }
    assert (init_inv s1) as Hinv1.
    { pose proof (init_inv_set_widget g (Some w) s Hinv) as H.
      by rewrite (update_group_eval _ _ _ _ Hg) in H. }
    assert (get_definition g s1 = (Ret (Some (definition_for (layout w))), s1)) as Hdef.
    { unfold get_definition. rewrite (bind_eval _ _ _ _ _ (read_group_eval _ _ _ Hg1)).
      simpl. by rewrite Hc. }
    rewrite !(bind_eval _ _ _ _ _ Hdef).
    by rewrite (bind_eval _ _ _ _ _ (layout_can_optimize_eval s1 g _ w Hinv1 Hg1 Hc eq_refl)). }
  split_and!.
  - intros Hw. by apply layout_can_optimize_eval.
  - unfold spec_layout_can_optimize. rewrite !andb_true_iff, bool_decide_eq_true.
    tauto.
  - exact Heq.
  - intros Hb. by rewrite Heq, Hb.
Qed.

End LayoutFacts.

(** * The pane's [styles_for] *)

Lemma bind_Ret_inv {A B} (m : M A) (f : A -> M B) s b s' :
  (m ≫= f) s = (Ret b, s') -> exists a s1, m s = (Ret a, s1) /\ f a s1 = (Ret b, s').
Proof.
  unfold mbind, M_bind. destruct (m s) as [[a|e] s1]; [| done].
  intros H. by exists a, s1.
Qed.

Lemma bind_Raise_inv {A B} (m : M A) (f : A -> M B) s e s' :
  (m ≫= f) s = (Raise e, s') ->
  m s = (Raise e, s') \/ exists a s1, m s = (Ret a, s1) /\ f a s1 = (Raise e, s').
Proof.
  unfold mbind, M_bind. destruct (m s) as [[a|e0] s1]; intros H.
  - right. by exists a, s1.
  - left. by injection H as -> ->.
Qed.

Lemma hoare_bind {A B} P R Q (m : M A) (f : A -> M B) :
  hoare P m R -> (forall a, hoare R (f a) Q) -> hoare P (m ≫= f) Q.
Proof.
  intros Hm Hf s b s' HP (a & s1 & H1 & H2)%bind_Ret_inv.
  eapply Hf; [| exact H2]. eapply Hm; eauto.
Qed.

Lemma hoare_preserves {A} I (c : M A) : preserves I c -> hoare I c I.
Proof. intros Hc s a s' HI H. specialize (Hc s HI). by rewrite H in Hc. Qed.

Lemma hoare_weaken {A} (P P' Q : State -> Prop) (c : M A) :
  (forall s, P' s -> P s) -> hoare P c Q -> hoare P' c Q.
Proof. intros HP Hc s a s' H. apply Hc, HP, H. Qed.

(** Predicates that read nothing but the groups survive whatever leaves the
    groups alone. *)
Section GroupsOnly.

Variable editor_set : Value -> option Exn.
Variable I : State -> Prop.
Hypothesis I_groups : forall s s', groups s' = groups s -> I s -> I s'.

Lemma groups_only_update_row r f : preserves I (update_row r f).
Proof using I_groups.
  intros s Hs. rewrite update_row_post.
  destruct (heap s !! r); [| exact Hs]. by apply (I_groups s).
Qed.

Lemma groups_only_modify f :
  (forall s, groups (f s) = groups s) -> preserves I (modify f).
Proof using I_groups.
  intros Hf. apply preserves_modify. intros s. apply (I_groups s), Hf.
Qed.

Lemma groups_only_acquire p d cb : preserves I (acquire editor_set p d cb).
Proof using I_groups.
  unfold acquire. apply preserves_bind.
  - unfold pooled. apply preserves_bind; [apply preserves_get | intros s0]. preserve.
  - intros [item|].
    + apply re_purposed_preserves. intros r f _. apply groups_only_update_row.
    + intros s. by apply (I_groups s).
Qed.

End GroupsOnly.

Section PaneFacts.

Variable editor_set : Value -> option Exn.

(** A property of one group that every frame-respecting write keeps. *)
Section GroupProperty.

Variable P : Group -> Prop.
Variable g : Scope.
Hypothesis P_frame : forall grp f, group_frame f -> P grp -> P (f grp).

Lemma group_has_ext s s' : groups s' = groups s -> (group_has P g) s -> (group_has P g) s'.
Proof. intros Heq. unfold group_has. by rewrite Heq. Qed.

Lemma group_has_update g0 f :
  (forall grp, P grp -> P (f grp)) -> preserves (group_has P g) (update_group g0 f).
Proof.
  intros Hf s (grp & Hg & HP). rewrite update_group_post.
  destruct (groups s !! g0) as [grp0|] eqn:Hg0; [| by exists grp].
  unfold group_has. simpl. destruct (decide (g0 = g)) as [->|Hne].
  - exists (f grp0). rewrite list_lookup_insert_eq by (by eapply lookup_lt_Some).
    split; [done|]. apply Hf. congruence.
  - exists grp. by rewrite list_lookup_insert_ne.
Qed.

Lemma group_has_refresh g0 defs : preserves (group_has P g) (refresh editor_set g0 defs).
Proof using P_frame.
  apply refresh_preserves. intros r f _. apply groups_only_update_row, group_has_ext.
Qed.

Lemma group_has_rebuild g0 defs : preserves (group_has P g) (rebuild editor_set g0 defs).
Proof using P_frame.
  apply rebuild_preserves with (touched := fun _ => True); [| | | | done].
  - intros r f _. apply groups_only_update_row, group_has_ext.
  - intros g1. by apply groups_only_modify; [apply group_has_ext|].
  - intros g1 f _ Hf. apply group_has_update. intros grp. by apply P_frame.
  - intros p d cb _. apply groups_only_acquire, group_has_ext.
Qed.

(** The property survives [on_widget_change] for [w] on any group, if the
    writes of [_widget], [_has_initialized] and [_prev_widget] keep it. *)
Lemma group_property_preserved w g' :
  (forall grp, P grp -> P (set_widget (Some w) grp)) ->
  (forall grp, P grp -> P (set_prev_widget (Some w) (set_has_initialized true grp))) ->
  preserves (group_has P g) (on_widget_change editor_set g' (Some w)).
Proof using P_frame.
  intros Hwidget Hfinish.
  apply on_widget_change_preserves with (touched := fun _ => True); [| | | | | | | | done].
  - intros r f _. apply groups_only_update_row, group_has_ext.
  - intros g0. by apply groups_only_modify; [apply group_has_ext|].
  - intros g0 f _ Hf. apply group_has_update. intros grp. by apply P_frame.
  - intros f. by apply groups_only_modify; [apply group_has_ext|].
  - intros e. by apply groups_only_modify; [apply group_has_ext|].
  - intros p d cb _. apply groups_only_acquire, group_has_ext.
  - intros g0 _. by apply group_has_update.
  - intros g0 _ s (grp & Hg & HP). unfold mbind, M_bind, update_group.
    destruct (groups s !! g0) as [grp0|] eqn:Hg0; simpl; [| by exists grp].
    rewrite list_lookup_insert_eq by (by eapply lookup_lt_Some). simpl.
    rewrite list_insert_insert_eq. unfold group_has. simpl.
    destruct (decide (g0 = g)) as [->|Hne].
    + eexists. rewrite list_lookup_insert_eq by (by eapply lookup_lt_Some).
      split; [done|]. apply Hfinish. congruence.
    + exists grp. by rewrite list_lookup_insert_ne.
Qed.

End GroupProperty.

Lemma is_notified_frame w grp f : group_frame f -> is_notified w grp -> is_notified w (f grp).
Proof. intros Hf. unfold is_notified. destruct (Hf grp) as (_ & -> & -> & ->). done. Qed.

Lemma is_told_frame w grp f : group_frame f -> is_told w grp -> is_told w (f grp).
Proof. intros Hf. unfold is_told. destruct (Hf grp) as (_ & -> & _). done. Qed.

Lemma notified_preserved w g g' :
  preserves (notified w g) (on_widget_change editor_set g' (Some w)).
Proof.
  apply (group_property_preserved (is_notified w) g (is_notified_frame w)).
  - intros grp (_ & ? & ?). done.
  - intros grp (? & _ & _). done.
Qed.

(** A group whose [on_widget_change] returns for a present widget holds it
    as [_widget] and [_prev_widget], and is initialized. *)
Lemma StyleGroup_on_widget_change_notifies w g :
  hoare (fun _ => True) (StyleGroup_on_widget_change editor_set g (Some w)) (notified w g).
Proof.
  unfold StyleGroup_on_widget_change.
  apply hoare_bind with (R := told w g).
  { intros s [] s' _ H. unfold update_group in H.
    destruct (groups s !! g) as [grp|] eqn:Hg; [| done]. injection H as <-.
    exists (set_widget (Some w) grp). split; [| reflexivity]. simpl.
    apply list_lookup_insert_eq. by eapply lookup_lt_Some. }
  intros _. apply hoare_bind with (R := told w g).
  { apply hoare_preserves, get_definition_preserves. }
  intros defs. apply hoare_bind with (R := told w g).
  { apply hoare_preserves, can_optimize_preserves. }
  intros optimize. apply hoare_bind with (R := told w g).
  { apply hoare_preserves. destruct optimize.
    - apply (group_has_refresh (is_told w) g (is_told_frame w)).
    - apply (group_has_rebuild (is_told w) g (is_told_frame w)). }
  intros _ s [] s' (grp & Hg & Hw) H.
  unfold mbind, M_bind, update_group in H. rewrite Hg in H. simpl in H.
  rewrite list_lookup_insert_eq in H by (by eapply lookup_lt_Some).
  injection H as <-.
  exists (set_prev_widget (Some w) (set_has_initialized true grp)). simpl.
  rewrite list_insert_insert_eq.
  rewrite list_lookup_insert_eq by (by eapply lookup_lt_Some). done.
Qed.

Lemma on_widget_change_notifies w g :
  hoare (fun _ => True) (on_widget_change editor_set g (Some w)) (notified w g).
Proof.
  unfold on_widget_change.
  apply hoare_bind with (R := fun _ => True); [done|]. intros grp.
  destruct (gclass grp); try apply StyleGroup_on_widget_change_notifies.
  unfold LayoutGroup_on_widget_change.
  apply hoare_bind with (R := notified w g);
    [apply StyleGroup_on_widget_change_notifies|].
  intros _. apply hoare_preserves.
  apply preserves_bind; [| intros _];
    apply (group_has_update (is_notified w) g); intros grp'; by apply is_notified_frame.
Qed.

Lemma for_each_notifies w gs :
  hoare (fun _ => True)
        (for_each gs (fun g => on_widget_change editor_set g (Some w)))
        (fun s => forall g, g ∈ gs -> notified w g s).
Proof.
  induction gs as [|g0 gs IH]; intros s [] s' _ H g Hin.
  - by apply not_elem_of_nil in Hin.
  - simpl in H. apply bind_Ret_inv in H as ([] & s1 & H1 & H2).
    apply elem_of_cons in Hin as [->|Hin].
    + pose proof (on_widget_change_notifies w g0 s tt s1 I H1) as Hn.
      assert (preserves (notified w g0)
                (for_each gs (fun g => on_widget_change editor_set g (Some w)))) as Hp.
      { apply preserves_for_each. intros g'. apply notified_preserved. }
      specialize (Hp s1 Hn). by rewrite H2 in Hp.
    + by apply (IH s1 tt s' I H2).
Qed.

(** [on_widget_change] on group [g] writes to no other group. *)
Lemma on_widget_change_frame w g g' X :
  g <> g' ->
  preserves (fun s => groups s !! g' = X) (on_widget_change editor_set g w).
Proof.
  intros Hne. set (I := fun s : State => groups s !! g' = X).
  assert (forall s s', groups s' = groups s -> I s -> I s') as Hext.
  { intros s s' Heq. unfold I. by rewrite Heq. }
  assert (forall f, preserves I (update_group g f)) as Hupd.
  { intros f s Hs. rewrite update_group_post.
    destruct (groups s !! g); [| done]. unfold I. simpl.
    by rewrite list_lookup_insert_ne. }
  apply on_widget_change_preserves with (touched := fun g0 => g0 = g);
    [| | | | | | | | done].
  - intros r f _. by apply groups_only_update_row.
  - intros g0. by apply groups_only_modify.
  - intros g0 f -> _. apply Hupd.
  - intros f. by apply groups_only_modify.
  - intros e. by apply groups_only_modify.
  - intros p d cb _. by apply groups_only_acquire.
  - intros g0 ->. apply Hupd.
  - intros g0 ->. apply preserves_bind; [| intros _]; apply Hupd.
Qed.

(** When the loop over the groups raises, the groups before the one that
    raised have been notified and the groups after it have not been
    touched. *)
Lemma for_each_first_failure w gs s e s' :
  for_each gs (fun g => on_widget_change editor_set g (Some w)) s = (Raise e, s') ->
  exists gs1 g gs2,
    gs = gs1 ++ g :: gs2
    /\ (forall g1, g1 ∈ gs1 -> notified w g1 s')
    /\ (forall g2, g2 ∉ gs1 -> g2 <> g -> groups s' !! g2 = groups s !! g2).
Proof.
  revert s. induction gs as [|g0 gs IH]; intros s H; [done|].
  simpl in H. apply bind_Raise_inv in H as [H0|([] & s1 & H0 & H1)].
  - exists [], g0, gs. split; [done|]. split.
    + intros g1 Hin. by apply not_elem_of_nil in Hin.
    + intros g2 _ Hne.
      pose proof (on_widget_change_frame (Some w) g0 g2 (groups s !! g2)
                    (not_eq_sym Hne) s eq_refl) as Hfr.
      by rewrite H0 in Hfr.
  - destruct (IH s1 H1) as (gs1 & g & gs2 & -> & Hnot & Hfr).
    exists (g0 :: gs1), g, gs2. split; [done|]. split.
    + intros g1 [->|Hin]%elem_of_cons; [| by apply Hnot].
      pose proof (on_widget_change_notifies w g0 s tt s1 I H0) as Hn.
      assert (preserves (notified w g0)
                (for_each (gs1 ++ g :: gs2)
                          (fun g => on_widget_change editor_set g (Some w)))) as Hp.
      { apply preserves_for_each. intros g'. apply notified_preserved. }
      specialize (Hp s1 Hn). by rewrite H1 in Hp.
    + intros g2 Hnin Hne. apply not_elem_of_cons in Hnin as [Hne0 Hnin].
      rewrite (Hfr g2 Hnin Hne).
      pose proof (on_widget_change_frame (Some w) g0 g2 (groups s !! g2)
                    (not_eq_sym Hne0) s eq_refl) as Hfr0.
      by rewrite H0 in Hfr0.
Qed.

(** C4, as amended.  For an absent widget [styles_for] shows the empty
    placeholder and returns without telling any group: groups, rows and pool
    are as before.  For a present widget it runs [on_widget_change] over the
    registered groups from first to last, starting under the loading
    placeholder; when it returns every registered group has been notified of
    the widget and the placeholder is hidden; when it raises, the groups
    registered before the one that raised have been notified and the groups
    registered after it are as they were. *)
Theorem styles_for_forwards_when_present s :
  styles_for editor_set None s = (Ret tt, deselected s)
  /\ forall w,
       styles_for editor_set (Some w) s
       = (for_each (pane_groups (pane s))
                   (fun g => on_widget_change editor_set g (Some w)) ;;
          remove_empty) (loading w s)
       /\ (forall s', styles_for editor_set (Some w) s = (Ret tt, s') ->
            placed (_empty_frame (pane s')) = false
            /\ forall g, g ∈ pane_groups (pane s) -> notified w g s')
       /\ (forall e s', styles_for editor_set (Some w) s = (Raise e, s') ->
            exists gs1 g gs2,
              pane_groups (pane s) = gs1 ++ g :: gs2
              /\ (forall g1, g1 ∈ gs1 -> notified w g1 s')
              /\ (forall g2, g2 ∉ gs1 -> g2 <> g ->
                    groups s' !! g2 = groups s !! g2)).
Proof.
  split; [reflexivity|]. intros w.
  assert (styles_for editor_set (Some w) s
          = (for_each (pane_groups (pane s))
                      (fun g => on_widget_change editor_set g (Some w)) ;;
             remove_empty) (loading w s)) as Heq by reflexivity.
  split; [exact Heq|]. split.
  - intros s' H. rewrite Heq in H.
    apply bind_Ret_inv in H as ([] & s1 & H1 & H2).
    injection H2 as <-. split; [reflexivity|]. intros g Hg.
    exact (for_each_notifies w _ _ _ _ I H1 g Hg).
  - intros e s' H. rewrite Heq in H.
    apply bind_Raise_inv in H as [H|([] & s1 & _ & H)]; [| done].
    exact (for_each_first_failure w _ _ _ _ H).
Qed.

End PaneFacts.

(** * Deselecting a group *)

Section GroupFacts.

Variable editor_set : Value -> option Exn.

(** What [on_widget_change(None)] does to a group that is not a Layout
    group: [_widget] is cleared and the group collapsed; rows and pool are
    not touched. *)
Lemma StyleGroup_deselect s g grp :
  groups s !! g = Some grp ->
  gclass grp <> LayoutGroup ->
  on_widget_change editor_set g None s
  = (Ret tt, set_groups (<[g := set_collapsed true (set_widget None grp)]> (groups s)) s).
Proof.
  intros Hg Hc. unfold on_widget_change.
  rewrite (bind_eval _ _ _ _ _ (read_group_eval _ _ _ Hg)).
  assert (StyleGroup_on_widget_change editor_set g None s
          = (Ret tt, set_groups (<[g := set_collapsed true (set_widget None grp)]> (groups s)) s))
    as Hs.
  { unfold StyleGroup_on_widget_change.
    rewrite (bind_eval _ _ _ _ _ (update_group_eval _ _ _ _ Hg)).
    unfold collapse, update_group. simpl.
    rewrite list_lookup_insert_eq by (by eapply lookup_lt_Some).
    unfold set_groups. simpl. by rewrite list_insert_insert_eq. }
  by destruct (gclass grp).
Qed.

(** On an already empty, collapsed group of those classes it changes
    nothing at all. *)
Lemma StyleGroup_deselect_idle s g grp :
  groups s !! g = Some grp ->
  gclass grp <> LayoutGroup ->
  _widget grp = None ->
  collapsed grp = true ->
  on_widget_change editor_set g None s = (Ret tt, s).
Proof.
  intros Hg Hc Hw Hcol. rewrite (StyleGroup_deselect _ _ _ Hg Hc). f_equal.
  assert (set_collapsed true (set_widget None grp) = grp) as ->.
  { destruct grp. simpl in *. by subst. }
  rewrite list_insert_id by done. by destruct s.
Qed.

(** On a Layout group it raises: the read of [widget.layout] comes before
    the test [if widget], whose [else] branch is never reached. *)
Lemma LayoutGroup_deselect s g grp :
  groups s !! g = Some grp ->
  gclass grp = LayoutGroup ->
  on_widget_change editor_set g None s
  = (Raise no_layout_attribute,
     set_groups (<[g := set_collapsed true (set_widget None grp)]> (groups s)) s).
Proof.
  intros Hg Hc. unfold on_widget_change.
  rewrite (bind_eval _ _ _ _ _ (read_group_eval _ _ _ Hg)), Hc.
  unfold LayoutGroup_on_widget_change, StyleGroup_on_widget_change.
  unfold mbind at 1, M_bind.
  rewrite (bind_eval _ _ _ _ _ (update_group_eval _ _ _ _ Hg)).
  unfold collapse, update_group. simpl.
  rewrite list_lookup_insert_eq by (by eapply lookup_lt_Some).
  unfold set_groups. simpl. by rewrite list_insert_insert_eq.
Qed.

(** C5.  The pane's Layout group, empty as [StylePane.__init__] leaves it,
    raises [AttributeError] on [on_widget_change(None)]. *)
Theorem layout_group_deselect_raises :
  (on_widget_change editor_set 1 None init).1 = Raise no_layout_attribute.
Proof. by rewrite (LayoutGroup_deselect init 1 (new_group LayoutGroup "Layout")). Qed.

(** * Missing definitions *)

(** An Identity group told of a widget without [identity] gets [None] from
    [get_definition], and its update raises on iterating it. *)
Lemma IdentityGroup_missing_identity s g grp w :
  groups s !! g = Some grp ->
  gclass grp = IdentityGroup ->
  identity w = None ->
  (get_definition g (update_group g (set_widget (Some w)) s).2).1 = Ret None
  /\ (on_widget_change editor_set g (Some w) s).1 = Raise not_iterable.
Proof.
  intros Hg Hc Hid.
  rewrite (update_group_eval _ _ _ _ Hg). simpl.
  set (s1 := set_groups _ s).
  assert (groups s1 !! g = Some (set_widget (Some w) grp)) as Hg1.
  { simpl. apply list_lookup_insert_eq. by eapply lookup_lt_Some. }
  assert (get_definition g s1 = (Ret None, s1)) as Hdef.
  { unfold get_definition. rewrite (bind_eval _ _ _ _ _ (read_group_eval _ _ _ Hg1)).
    simpl. by rewrite Hc, Hid. }
  split; [by rewrite Hdef|].
  unfold on_widget_change.
  rewrite (bind_eval _ _ _ _ _ (read_group_eval _ _ _ Hg)), Hc.
  unfold StyleGroup_on_widget_change.
  rewrite (bind_eval _ _ _ _ _ (update_group_eval _ _ _ _ Hg)). fold s1.
  rewrite (bind_eval _ _ _ _ _ Hdef).
  assert (can_optimize g s1 = (Ret (_has_initialized grp), s1)) as Hopt.
  { unfold can_optimize. rewrite (bind_eval _ _ _ _ _ (read_group_eval _ _ _ Hg1)).
    simpl. by rewrite Hc. }
  rewrite (bind_eval _ _ _ _ _ Hopt).
  destruct (_has_initialized grp).
  - by erewrite bind_raise by reflexivity.
  - assert (exists s', rebuild editor_set g None s1 = (Raise not_iterable, s')) as [s' Hr].
    { unfold rebuild. eexists.
      erewrite bind_eval by reflexivity.
      erewrite bind_eval by (apply update_group_eval; exact Hg1).
      by erewrite bind_raise by reflexivity. }
    by rewrite (bind_raise _ _ _ _ _ Hr).
Qed.

(** * Applying an edit *)

(** [StyleGroup.apply] when [configure] raises [e]. *)
Lemma StyleGroup_apply_failure s g grp w prop value e :
  groups s !! g = Some grp ->
  gclass grp <> LayoutGroup ->
  _widget grp = Some w ->
  configure w prop value = Some e ->
  apply g prop value s
  = (Ret tt,
     set_log (log s ++ (if not_empty_str value
                        then [LogExn e; LogMsg "Could not set style" prop value]
                        else [])) s).
Proof.
  intros Hg Hc Hw He. unfold apply.
  rewrite (bind_eval _ _ _ _ _ (read_group_eval _ _ _ Hg)).
  assert (StyleGroup_apply g prop value s
          = (Ret tt,
             set_log (log s ++ (if not_empty_str value
                                then [LogExn e; LogMsg "Could not set style" prop value]
                                else [])) s)) as Hs.
  { unfold StyleGroup_apply.
    rewrite (bind_eval _ _ _ _ _ (read_group_eval _ _ _ Hg)), Hw.
    unfold try_except. rewrite He. simpl.
    destruct (not_empty_str value).
    - unfold mbind, M_bind, logging, modify, set_log. simpl.
      by rewrite <- app_assoc.
    - unfold mret, M_ret. rewrite app_nil_r. by destruct s. }
  by destruct (gclass grp).
Qed.

(** [LayoutGroup.apply] when the layout's [apply] raises [e]. *)
Lemma LayoutGroup_apply_failure s g grp w prop value e :
  groups s !! g = Some grp ->
  gclass grp = LayoutGroup ->
  _widget grp = Some w ->
  layout_apply (layout w) prop value = Some e ->
  apply g prop value s
  = (Ret tt, set_log (log s ++ [LogExnMsg e "Could not set layout" prop value]) s).
Proof.
  intros Hg Hc Hw He. unfold apply.
  rewrite (bind_eval _ _ _ _ _ (read_group_eval _ _ _ Hg)), Hc.
  unfold LayoutGroup_apply.
  rewrite (bind_eval _ _ _ _ _ (read_group_eval _ _ _ Hg)), Hw.
  unfold try_except. by rewrite He.
Qed.

(** C7, as amended.  When the write is rejected with [e], [apply] returns
    normally and changes nothing but the log: rows, pool, groups and pane are
    as before.  A group that is not a Layout group logs the exception and a
    message unless the value is the empty string, for which it logs nothing.
    The Layout group logs one entry whatever the value, the empty string
    included. *)
Theorem apply_failure_is_swallowed s g grp w prop value e :
  groups s !! g = Some grp ->
  _widget grp = Some w ->
  (gclass grp <> LayoutGroup ->
   configure w prop value = Some e ->
   apply g prop value s
   = (Ret tt,
      set_log (log s ++ (if not_empty_str value
                         then [LogExn e; LogMsg "Could not set style" prop value]
                         else [])) s))
  /\ (gclass grp = LayoutGroup ->
      layout_apply (layout w) prop value = Some e ->
      apply g prop value s
      = (Ret tt, set_log (log s ++ [LogExnMsg e "Could not set layout" prop value]) s)).
Proof.
  intros Hg Hw. split; intros Hc He.
  - by eapply StyleGroup_apply_failure.
  - by eapply LayoutGroup_apply_failure.
Qed.

(** Whatever the host object does, no exception leaves [apply]. *)
Lemma apply_never_raises s g grp prop value :
  groups s !! g = Some grp -> (apply g prop value s).1 = Ret tt.
Proof.
  intros Hg. unfold apply.
  rewrite (bind_eval _ _ _ _ _ (read_group_eval _ _ _ Hg)).
  assert ((StyleGroup_apply g prop value s).1 = Ret tt) as Hs.
  { unfold StyleGroup_apply.
    rewrite (bind_eval _ _ _ _ _ (read_group_eval _ _ _ Hg)).
    destruct (_widget grp) as [w|]; [| done].
    unfold try_except, host_call.
    destruct (configure w prop value); [| done]. simpl.
    by destruct (not_empty_str value). }
  assert ((LayoutGroup_apply g prop value s).1 = Ret tt) as Hl.
  { unfold LayoutGroup_apply.
    rewrite (bind_eval _ _ _ _ _ (read_group_eval _ _ _ Hg)).
    unfold try_except, host_call.
    destruct (_widget grp) as [w|]; [| done].
    by destruct (layout_apply (layout w) prop value). }
  by destruct (gclass grp).
Qed.

(** * Destroying a row *)

(** In a store whose pool points into the heap no row object is a key, so
    [destroy] takes nothing out of the pool. *)
Lemma destroy_keeps_pool s r scope key :
  pool_inv s ->
  pool_row (destroy r s).2 scope key = pool_row s scope key.
Proof.
  intros Hinv. unfold destroy, read_row, mbind at 1, M_bind.
  destruct (heap s !! r) as [row|] eqn:Hrow; [| done].
  unfold mbind, M_bind, get, modify. simpl.
  set (pool := default ∅ (_pool s !! parent row)).
  assert (pool !! inr r = None) as Hkey.
  { destruct (pool !! inr r) as [r0|] eqn:Hk; [| done].
    apply default_pool_lookup in Hk as (pool0 & Hp & Hk).
    by destruct (Hinv _ _ _ _ Hp Hk) as (nm & ? & ? & _). }
  destruct (decide (is_Some (pool !! inr r))) as [[r0 Hr0]|_]; [congruence|].
  simpl. unfold update_row. simpl. rewrite Hrow. simpl.
  unfold pool_row. simpl. destruct (decide (parent row = scope)) as [<-|Hne].
  - rewrite lookup_insert_eq. unfold pool. by destruct (_pool s !! parent row).
  - by rewrite lookup_insert_ne.
Qed.

End GroupFacts.

(** * The callback during a rebind *)

Section RebindFacts.

Variable editor_set : Value -> option Exn.

Lemma suspended_update_row self r f :
  (forall row, _on_change (f row) = _on_change row) ->
  preserves (suspended self) (update_row r f).
Proof.
  intros Hf s Hs. rewrite update_row_post.
  destruct (heap s !! r) as [row|] eqn:Hr; [| exact Hs].
  unfold suspended, on_change_of in *. simpl.
  destruct (decide (r = self)) as [->|Hne].
  - rewrite list_lookup_insert_eq by (by eapply lookup_lt_Some). simpl.
    rewrite Hf. by rewrite Hr in Hs.
  - by rewrite list_lookup_insert_ne.
Qed.

Lemma suspended_rebind_stmts self d :
  Forall (preserves (suspended self)) (rebind_stmts editor_set self d).
Proof.
  unfold rebind_stmts, _editor_set. repeat constructor.
  - by apply suspended_update_row.
  - destruct (editor_set (d_value d)); [apply preserves_raise|].
    by apply suspended_update_row.
  - apply preserves_ret.
  - by apply suspended_update_row.
Qed.

Lemma on_change_of_with_row self row0 row s :
  heap s !! self = Some row0 ->
  on_change_of (with_row self row s) self = Some (_on_change row).
Proof. intros H. unfold on_change_of. by rewrite (with_row_lookup _ _ _ _ H). Qed.

(** C9, as amended.  While a row is re-purposed its callback is [None]
    after every statement of the reassignment, however far the reassignment
    gets.  When the reassignment completes, [_re_purposed] returns the row
    with the supplied callback, or with its previous one when none was
    supplied.  When the editor raises, [_re_purposed] raises the same
    exception and the row is left with no callback. *)
Theorem re_purposed_suspends_callback s self row d cb :
  heap s !! self = Some row ->
  (forall k,
     suspended self
       (run_stmts (take k (rebind_stmts editor_set self d))
                  (rebind_begin self cb s).2).2)
  /\ (editor_set (d_value d) = None ->
      exists s', _re_purposed editor_set self d cb s = (Ret self, s')
                 /\ on_change_of s' self = Some (installed cb row))
  /\ (forall e, editor_set (d_value d) = Some e ->
      exists s', _re_purposed editor_set self d cb s = (Raise e, s')
                 /\ on_change_of s' self = Some None).
Proof.
  intros Hrow. split_and!.
  - intros k. apply preserves_run_stmts.
    + apply Forall_take, suspended_rebind_stmts.
    + rewrite (rebind_begin_eval _ _ _ _ Hrow). simpl.
      apply (on_change_of_with_row _ _ (set_on_change None row) _ Hrow).
  - intros Hok. rewrite (re_purposed_eval _ _ _ _ _ _ Hrow), Hok.
    eexists. split; [done|]. apply (on_change_of_with_row _ _ (rebound d cb row) _ Hrow).
  - intros e He. rewrite (re_purposed_eval _ _ _ _ _ _ Hrow), He.
    eexists. split; [done|]. apply (on_change_of_with_row _ _ (abandoned d row) _ Hrow).
Qed.

End RebindFacts.

(** * A row that has not been shown yet *)

Section FreshRow.

Variable editor_set : Value -> option Exn.
Variables (scope : Scope) (key : string) (r : RowId).

Lemma on_offer_same_rows s s' :
  _pool s' = _pool s -> heap s' = heap s -> (on_offer scope key r) s -> (on_offer scope key r) s'.
Proof. unfold on_offer, pool_row, available. intros -> ->. done. Qed.

Lemma available_update_row r' f s :
  (r' <> r \/ forall row, is_available row = true -> is_available (f row) = true) ->
  available s r -> available (update_row r' f s).2 r.
Proof.
  intros Hf (row & Hrow & Hav). rewrite update_row_post.
  destruct (heap s !! r') as [row'|] eqn:Hr'; [| by exists row].
  unfold available. simpl. destruct (decide (r' = r)) as [->|Hne].
  - exists (f row'). rewrite list_lookup_insert_eq by (by eapply lookup_lt_Some).
    split; [done|]. destruct Hf as [?|Hf]; [done|]. apply Hf. congruence.
  - exists row. by rewrite list_lookup_insert_ne.
Qed.

Lemma on_offer_update_row r' f :
  (r' <> r \/ forall row, is_available row = true -> is_available (f row) = true) ->
  preserves (on_offer scope key r) (update_row r' f).
Proof.
  intros Hf s [Hp Hav]. split; [| by apply available_update_row].
  rewrite update_row_post. by destruct (heap s !! r').
Qed.

Lemma on_offer_clear_children g : preserves (on_offer scope key r) (clear_children g).
Proof.
  intros s [Hp (row & Hrow & Hav)]. split; [done|].
  unfold available. simpl. rewrite list_lookup_fmap, Hrow. simpl.
  eexists. split; [done|]. by destruct (parent row =? g).
Qed.

Lemma on_offer_update_group g f : preserves (on_offer scope key r) (update_group g f).
Proof.
  intros s Hs. rewrite update_group_post.
  destruct (groups s !! g); [| done]. by eapply on_offer_same_rows.
Qed.

Lemma pooled_state p d s : (pooled p d s).2 = s.
Proof.
  unfold pooled, mbind, M_bind, get, read_row, mret, M_ret.
  repeat case_match; simplify_eq; done.
Qed.

Lemma pooled_hit d s :
  d_name d = key -> (on_offer scope key r) s -> pooled scope d s = (Ret (Some r), s).
Proof.
  intros Hd [Hp (row & Hrow & Hav)]. unfold pool_row in Hp.
  unfold pooled, mbind at 1, M_bind, get.
  destruct (_pool s !! scope) as [pool|]; [| done]. simpl in Hp.
  destruct (decide (pool = ∅)) as [->|_]; [by rewrite lookup_empty in Hp|].
  rewrite Hd, Hp. unfold mbind, M_bind, read_row. by rewrite Hrow, Hav.
Qed.

Lemma on_offer_construct p d cb :
  (p, d_name d) <> (scope, key) -> preserves (on_offer scope key r) (ReusableStyleItem p d cb).
Proof.
  intros Hne s [Hp (row & Hrow & Hav)]. split.
  - unfold pool_row in *. simpl. destruct (decide (p = scope)) as [->|Hps].
    + rewrite lookup_insert_eq. simpl.
      rewrite lookup_insert_ne by congruence.
      by destruct (_pool s !! scope).
    + by rewrite lookup_insert_ne.
  - exists row. split; [| done]. simpl. by apply lookup_app_l_Some.
Qed.

Lemma on_offer_acquire p d cb : preserves (on_offer scope key r) (acquire editor_set p d cb).
Proof.
  assert (forall item, preserves (on_offer scope key r) (_re_purposed editor_set item d cb)) as Hre.
  { intros item. apply re_purposed_preserves. intros r' f Hf.
    apply on_offer_update_row. right. intros row. by destruct (Hf row) as (_ & -> & _). }
  intros s Hs. unfold acquire, mbind, M_bind.
  destruct (decide ((p, d_name d) = (scope, key))) as [[= -> Hd]|Hne].
  - rewrite (pooled_hit _ _ Hd Hs). by apply Hre.
  - pose proof (pooled_state p d s) as Hst.
    destruct (pooled p d s) as [[[item|]|e] s0]; simpl in Hst; subst s0.
    + by apply Hre.
    + by apply on_offer_construct.
    + done.
Qed.

Lemma on_offer_destroy r' : preserves (on_offer scope key r) (destroy r').
Proof.
  unfold destroy. apply preserves_bind; [apply preserves_read_row | intros row].
  intros s [Hp Hav]. unfold mbind, M_bind, get, modify. simpl.
  assert (forall pool' : gmap (string + nat) nat,
            pool' !! inl key = default ∅ (_pool s !! parent row) !! inl key ->
            (on_offer scope key r) (set_pool (<[parent row := pool']> (_pool s)) s)) as Hfile.
  { intros pool' Hk. split; [| done]. unfold pool_row in *. simpl.
    destruct (decide (parent row = scope)) as [Heq|Hne].
    - rewrite Heq in *. rewrite lookup_insert_eq. simpl. rewrite Hk.
      by destruct (_pool s !! scope).
    - by rewrite lookup_insert_ne. }
  destruct (decide (is_Some (default ∅ (_pool s !! parent row) !! inr r'))); simpl;
    apply on_offer_update_row; try (by right); apply Hfile; [| done].
  by rewrite lookup_delete_ne.
Qed.

Lemma on_offer_exec op : op <> MapEvent r -> preserves (on_offer scope key r) (exec editor_set op).
Proof.
  apply (exec_preserves editor_set (on_offer scope key r) (fun _ => True))
    with (allowed := fun op => op <> MapEvent r); try done.
  - intros r' f Hf. apply on_offer_update_row. right. intros row.
    by destruct (Hf row) as (_ & -> & _).
  - apply on_offer_clear_children.
  - intros g f _ _. apply on_offer_update_group.
  - intros f s Hs. by eapply on_offer_same_rows.
  - intros e s Hs. by eapply on_offer_same_rows.
  - intros p d cb _. apply on_offer_acquire.
  - intros w g. apply on_offer_update_group.
  - intros w g. apply preserves_bind; [| intros _]; apply on_offer_update_group.
  - apply on_offer_destroy.
  - intros r' Hne. assert (r' <> r) by congruence.
    unfold deliver_Map, _make_available. preserve; apply on_offer_update_row; by left.
  - intros r'. unfold deliver_Unmap, _make_available.
    preserve; apply on_offer_update_row; by right.
Qed.

Lemma on_offer_run ops s :
  Forall (fun op => op <> MapEvent r) ops -> (on_offer scope key r) s -> (on_offer scope key r) (run editor_set ops s).
Proof.
  intros Hops. revert s. induction Hops as [|op ops Hop _ IH]; intros s Hs; simpl.
  - exact Hs.
  - apply IH. by apply on_offer_exec.
Qed.

End FreshRow.

Lemma reachable_run editor_set ops s :
  reachable editor_set s -> reachable editor_set (run editor_set ops s).
Proof.
  revert s. induction ops as [|op ops IH]; intros s Hs; simpl; [done|].
  apply IH. by constructor.
Qed.

(** C10.  A row that [acquire] has just built is available, and stays so
    through any operations as long as no [<Map>] is delivered to it; a second
    [acquire] for the same scope and key then re-purposes that very row:
    it builds no row, leaves the pool as it is, and returns the row whenever
    the rebind completes. *)
Theorem fresh_row_is_reacquired editor_set s scope d cb ops d' cb' :
  reachable editor_set s ->
  (forall r, pool_row s scope (d_name d) = Some r -> ~ available s r) ->
  Forall (fun op => op <> MapEvent (length (heap s))) ops ->
  d_name d' = d_name d ->
  let r := length (heap s) in
  let s1 := (acquire editor_set scope d cb s).2 in
  let s2 := run editor_set ops s1 in
  (acquire editor_set scope d cb s).1 = Ret r
  /\ available s1 r
  /\ available s2 r
  /\ acquire editor_set scope d' cb' s2 = _re_purposed editor_set r d' cb' s2
  /\ (forall r', (acquire editor_set scope d' cb' s2).1 = Ret r' -> r' = r)
  /\ (editor_set (d_value d') = None -> (acquire editor_set scope d' cb' s2).1 = Ret r)
  /\ length (heap (acquire editor_set scope d' cb' s2).2) = length (heap s2)
  /\ _pool (acquire editor_set scope d' cb' s2).2 = _pool s2.
Proof.
  intros Hreach Hnone Hops Hd r s1 s2.
  pose proof (reachable_pool_inv _ _ Hreach) as Hinv.
  assert (acquire editor_set scope d cb s = ReusableStyleItem scope d cb s) as Hacq
    by by apply acquire_construct.
  assert (on_offer scope (d_name d) r s1) as Hoffer.
  { subst s1. rewrite Hacq. split; [apply pool_row_construct|].
    exists (mkRow scope (d_name d) d (d_value d) (d_display_name d) cb
                  true false false false).
    split; [| reflexivity]. simpl.
    rewrite lookup_app_r, Nat.sub_diag by done. done. }
  assert (reachable editor_set s1) as Hreach1.
  { assert (s1 = after editor_set (Acquire scope d cb) s) as ->; [| by constructor].
    subst s1. unfold after, exec, mbind, M_bind.
    by destruct (acquire editor_set scope d cb s) as [[?|?] ?]. }
  assert (on_offer scope (d_name d) r s2) as [Hp2 Hav2] by by apply on_offer_run.
  assert (reachable editor_set s2) as Hreach2 by by apply reachable_run.
  rewrite <- Hd in Hp2.
  destruct (acquire_reuse editor_set s2 scope d' cb' r
              (reachable_pool_inv _ _ Hreach2) (reachable_avail_inv _ _ Hreach2) Hp2 Hav2)
    as (row & _ & _ & _ & Heq & Hret & Hok & Hpool & Hlen).
  split_and!; try done.
  - by rewrite Hacq.
  - by destruct Hoffer.
  - intros Hed. by rewrite (Hok Hed).
Qed.

(** * The statements at concrete stores *)

Lemma pool_row_in_pool s scope key r : pool_row s scope key = Some r -> in_pool s r.
Proof.
  unfold pool_row, in_pool. destruct (_pool s !! scope) as [pool|] eqn:Hp; [| done].
  simpl. intros Hk. by exists scope, pool, (inl key).
Qed.

Lemma displayed_intro s g grp k r :
  groups s !! g = Some grp -> dict_get k (items grp) = Some r -> displayed s r.
Proof.
  intros Hg Hk. exists g, grp. split; [done|].
  unfold dict_values. induction (items grp) as [|[k' r'] its IH]; [done|].
  simpl in *. destruct (String.eqb k k').
  - injection Hk as ->. apply elem_of_cons. by left.
  - apply elem_of_cons. right. apply IH, Hk.
Qed.

(** C1, at a concrete store: with [button] selected, acquiring the colour
    row again under the Attribute group re-purposes row 2. *)
Lemma acquire_reuse_witness :
  reachable accepting selected
  /\ pool_row selected 2 "color" = Some 2
  /\ available selected 2
  /\ acquire accepting 2 colour_blue None selected
     = _re_purposed accepting 2 colour_blue None selected.
Proof.
  assert (reachable accepting selected) as Hreach by (constructor; constructor).
  assert (pool_row selected 2 "color" = Some 2) as Hp by (vm_compute; reflexivity).
  assert (available selected 2) as Hav by (eexists; split; vm_compute; reflexivity).
  split; [exact Hreach|]. split; [exact Hp|]. split; [exact Hav|].
  destruct (proj1 (acquire_reuses_exactly_the_available_row
                     accepting selected 2 colour_blue None Hreach) 2 Hp Hav)
    as (row & _ & _ & _ & Heq & _).
  exact Heq.
Defined.

(** C2, the claim refuted: after a search has hidden the colour row, the
    row is available and still in the Attribute group's [items]. *)
Lemma availability_duality_fails :
  reachable accepting filtered /\ ~ availability_duality filtered.
Proof.
  split.
  - unfold filtered. apply reachable_run. constructor.
  - intros Hdual.
    assert (exists row, heap filtered !! 2 = Some row /\ is_available row = true)
      as (row & Hrow & Hav) by (eexists; split; vm_compute; reflexivity).
    assert (in_pool filtered 2) as Hin.
    { apply (pool_row_in_pool filtered 2 "color"). vm_compute. reflexivity. }
    apply (proj1 (Hdual 2 row Hin Hrow) Hav).
    eapply (displayed_intro filtered 2 _ "color"); vm_compute; reflexivity.
Qed.

(** C2 as amended, at that store. *)
Lemma available_iff_not_mapped_witness :
  exists row, heap filtered !! 2 = Some row
              /\ (is_available row = true <-> mapped row = false).
Proof.
  assert (exists row, heap filtered !! 2 = Some row) as [row Hrow]
    by (eexists; vm_compute; reflexivity).
  exists row. split; [exact Hrow|].
  apply (available_iff_not_mapped accepting filtered 2 row); [| exact Hrow].
  unfold filtered. apply reachable_run. constructor.
Defined.

(** C3, at a concrete store: [button] selected a second time is refreshed
    in place by the Layout group. *)
Lemma layout_can_optimize_witness :
  exists grp, groups selected !! 1 = Some grp
              /\ gclass grp = LayoutGroup
              /\ spec_layout_can_optimize grp button = true
              /\ on_widget_change accepting 1 (Some button) selected
                 = layout_change_deciding accepting true 1 button selected.
Proof.
  assert (exists grp, groups selected !! 1 = Some grp /\ gclass grp = LayoutGroup
                      /\ spec_layout_can_optimize grp button = true)
    as (grp & Hg & Hc & Hb) by (eexists; split_and!; vm_compute; reflexivity).
  exists grp. split; [exact Hg|]. split; [exact Hc|]. split; [exact Hb|].
  assert (reachable accepting selected) as Hreach by (constructor; constructor).
  destruct (layout_can_optimize_decides accepting selected 1 grp button Hreach Hg Hc)
    as (_ & _ & Heq & _).
  rewrite Heq, Hb. reflexivity.
Defined.

(** C4, the claim refuted: deselecting with [button] shown tells no group
    (the Identity group still holds [button]) and hides no row (row 0 is
    still packed, mapped and unavailable). *)
Lemma deselect_skips_groups :
  ~ deselect_tells_every_group accepting shown
  /\ (packed <$> heap (after accepting (Select None) shown) !! 0) = Some true
  /\ (mapped <$> heap (after accepting (Select None) shown) !! 0) = Some true
  /\ (is_available <$> heap (after accepting (Select None) shown) !! 0) = Some false.
Proof.
  split_and!; try (vm_compute; reflexivity).
  intros H. destruct (H 0) as (grp & Hg & Hw).
  - apply elem_of_cons. by left.
  - vm_compute in Hg. injection Hg as <-. discriminate Hw.
Qed.

(** C4 as amended, at a concrete store. *)
Lemma styles_for_witness :
  (styles_for accepting (Some button) init).1 = Ret tt
  /\ placed (_empty_frame (pane (styles_for accepting (Some button) init).2)) = false
  /\ forall g, g ∈ pane_groups (pane init) ->
       notified button g (styles_for accepting (Some button) init).2.
Proof.
  assert ((styles_for accepting (Some button) init).1 = Ret tt) as Hret
    by (vm_compute; reflexivity).
  split; [exact Hret|].
  destruct (styles_for_forwards_when_present accepting init) as [_ Hpresent].
  destruct (Hpresent button) as (_ & Hdone & _).
  apply Hdone. rewrite <- Hret. apply surjective_pairing.
Defined.

(** C6.  The Identity group of a fresh pane, told of a widget without
    [identity]: [get_definition] answers [None] and the update raises
    [TypeError]. *)
Theorem identity_group_missing_identity_raises editor_set :
  (get_definition 0 (update_group 0 (set_widget (Some anonymous)) init).2).1 = Ret None
  /\ (on_widget_change editor_set 0 (Some anonymous) init).1 = Raise not_iterable.
Proof.
  by apply (IdentityGroup_missing_identity editor_set init 0
              (new_group IdentityGroup "Widget identity")).
Qed.

(** C7, the claim refuted: the Layout group logs a rejected write of the
    empty string. *)
Lemma layout_apply_logs_empty_value : ~ silent_on_empty_value selected 1 "side".
Proof. unfold silent_on_empty_value. vm_compute. discriminate. Qed.

(** C7 as amended, at a concrete store: the Attribute group swallows the
    rejected empty string without logging. *)
Lemma apply_failure_witness :
  exists grp, groups selected !! 2 = Some grp
              /\ _widget grp = Some button
              /\ apply 2 "color" (VStr "") selected
                 = (Ret tt, set_log (log selected ++ []) selected).
Proof.
  assert (exists grp, groups selected !! 2 = Some grp /\ _widget grp = Some button
                      /\ gclass grp <> LayoutGroup)
    as (grp & Hg & Hw & Hc) by (eexists; split_and!; vm_compute; done).
  exists grp. split; [exact Hg|]. split; [exact Hw|].
  apply (proj1 (apply_failure_is_swallowed selected 2 grp button "color" (VStr "")
                  (HostError "invalid value") Hg Hw) Hc).
  reflexivity.
Defined.

(** C8.  A row acquired and then destroyed is still what the pool holds
    under its scope and key. *)
Theorem destroy_leaves_row_in_pool editor_set :
  pool_row (acquire editor_set 0 colour None init).2 0 "color" = Some 0
  /\ (destroy 0 (acquire editor_set 0 colour None init).2).1 = Ret tt
  /\ pool_row (destroy 0 (acquire editor_set 0 colour None init).2).2 0 "color" = Some 0
  /\ (destroyed <$> heap (destroy 0 (acquire editor_set 0 colour None init).2).2 !! 0)
     = Some true.
Proof. split_and!; vm_compute; reflexivity. Qed.

(** C9, the claim refuted: when the editor rejects the value the row is
    left without its callback. *)
Lemma rebind_failure_drops_callback : ~ restores_callback rejecting one_row 0 colour_blue None.
Proof.
  intros H.
  assert (exists row, heap one_row !! 0 = Some row
                      /\ _on_change row = Some (BoundApply 0))
    as (row & Hrow & Hcb) by (eexists; split; vm_compute; reflexivity).
  specialize (H row Hrow). simpl in H. rewrite Hcb in H.
  vm_compute in H. discriminate H.
Qed.

(** C9 as amended, at that store. *)
Lemma re_purposed_witness :
  exists row, heap one_row !! 0 = Some row
    /\ exists s', _re_purposed rejecting 0 colour_blue None one_row
                  = (Raise (HostError "invalid value"), s')
                  /\ on_change_of s' 0 = Some None.
Proof.
  assert (exists row, heap one_row !! 0 = Some row) as [row Hrow]
    by (eexists; vm_compute; reflexivity).
  exists row. split; [exact Hrow|].
  destruct (re_purposed_suspends_callback rejecting one_row 0 row colour_blue None Hrow)
    as (_ & _ & Hraise).
  apply Hraise. reflexivity.
Defined.

(** C10, at a concrete store: a row acquired in a fresh pane, an
    [<Unmap>] and a search later, is the row a second [acquire] returns. *)
Lemma fresh_row_witness :
  (acquire accepting 0 colour_blue (Some (Callable 1))
     (run accepting [UnmapEvent 0; SearchQuery "x"]
          (acquire accepting 0 colour None init).2)).1 = Ret 0.
Proof.
  assert (reachable accepting init) as Hreach by constructor.
  assert (forall r, pool_row init 0 (d_name colour) = Some r -> ~ available init r) as Hnone.
  { intros r Hr. vm_compute in Hr. discriminate Hr. }
  assert (Forall (fun op => op <> MapEvent (length (heap init)))
                 [UnmapEvent 0; SearchQuery "x"]) as Hops
    by (repeat constructor; discriminate).
  pose proof (fresh_row_is_reacquired accepting init 0 colour None
                [UnmapEvent 0; SearchQuery "x"] colour_blue (Some (Callable 1))
                Hreach Hnone Hops eq_refl) as H.
  cbv zeta in H. destruct H as (_ & _ & _ & _ & _ & Hok & _).
  apply Hok. reflexivity.
Defined.

(** * Further properties of the pool *)

Lemma preserves_and {A} (I1 I2 : State -> Prop) (c : M A) :
  preserves I1 c -> preserves I2 c -> preserves (fun s => I1 s /\ I2 s) c.
Proof. intros H1 H2 s [Hs1 Hs2]. split; [by apply H1 | by apply H2]. Qed.

Lemma update_row_pool r f s : _pool (update_row r f s).2 = _pool s.
Proof. rewrite update_row_post. by destruct (heap s !! r). Qed.

Lemma update_group_pool g f s : _pool (update_group g f s).2 = _pool s.
Proof. rewrite update_group_post. by destruct (groups s !! g). Qed.

(** In a store whose pool points into the heap [destroy] changes no lookup
    of the pool, whatever the key. *)
Lemma destroy_pool_at r s p k :
  pool_inv s -> pool_at (_pool (destroy r s).2) p k = pool_at (_pool s) p k.
Proof.
  intros Hinv. unfold destroy, read_row, mbind at 1, M_bind.
  destruct (heap s !! r) as [row|] eqn:Hrow; [| done].
  unfold mbind, M_bind, get, modify. simpl.
  set (pool := default ∅ (_pool s !! parent row)).
  assert (pool !! inr r = None) as Hkey.
  { destruct (pool !! inr r) as [r0|] eqn:Hk; [| done].
    apply default_pool_lookup in Hk as (pool0 & Hp & Hk).
    by destruct (Hinv _ _ _ _ Hp Hk) as (nm & ? & ? & _). }
  destruct (decide (is_Some (pool !! inr r))) as [[r0 Hr0]|_]; [congruence|].
  simpl. unfold update_row. simpl. rewrite Hrow. simpl.
  unfold pool_at. destruct (decide (parent row = p)) as [<-|Hne].
  - rewrite lookup_insert_eq. unfold pool. destruct (_pool s !! parent row); [done|].
    simpl. by rewrite lookup_empty.
  - by rewrite lookup_insert_ne.
Qed.

(** ** Shapes of the pool that every operation keeps *)
Section PoolShape.

Variable editor_set : Value -> option Exn.
Variable Q : gmap nat (gmap (string + nat) nat) -> Prop.

Hypothesis Q_ext : forall pools pools',
  (forall p k, pool_at pools' p k = pool_at pools p k) -> Q pools -> Q pools'.
Hypothesis Q_construct : forall s (p : nat) nm,
  pool_inv s -> Q (_pool s) ->
  Q (<[p := <[inl nm := length (heap s)]> (default ∅ (_pool s !! p))]> (_pool s)).

Lemma shaped_same_pool {A} (c : M A) :
  preserves pool_inv c -> (forall s, _pool (c s).2 = _pool s) ->
  preserves (pool_shaped Q) c.
Proof. intros Hc Hp s [Hinv HQ]. split; [by apply Hc|]. by rewrite Hp. Qed.

Lemma shaped_update_row r f :
  (forall row, parent (f row) = parent row) -> preserves (pool_shaped Q) (update_row r f).
Proof.
  intros Hf. apply shaped_same_pool; [by apply pool_inv_update_row|].
  apply update_row_pool.
Qed.

Lemma shaped_update_group g f : preserves (pool_shaped Q) (update_group g f).
Proof.
  apply shaped_same_pool; [apply pool_inv_update_group | apply update_group_pool].
Qed.

Lemma shaped_acquire p d cb : preserves (pool_shaped Q) (acquire editor_set p d cb).
Proof using Q_construct.
  unfold acquire. apply preserves_bind.
  - unfold pooled. apply preserves_bind; [apply preserves_get | intros s0]. preserve.
  - intros [item|].
    + apply re_purposed_preserves. intros r f Hf. apply shaped_update_row, Hf.
    + intros s [Hinv HQ]. split; [by apply pool_inv_construct|].
      by apply Q_construct.
Qed.

Lemma shaped_destroy r : preserves (pool_shaped Q) (destroy r).
Proof using Q_ext.
  intros s [Hinv HQ]. split; [by apply pool_inv_destroy|].
  apply (Q_ext (_pool s)); [| done]. intros p k. by apply destroy_pool_at.
Qed.

Lemma shaped_exec op : preserves (pool_shaped Q) (exec editor_set op).
Proof using All.
  apply (exec_preserves editor_set (pool_shaped Q) (fun _ => True))
    with (allowed := fun _ => True); [| | | | | | done | | | | | | done].
  - intros r f Hf. apply shaped_update_row, Hf.
  - intros g. apply shaped_same_pool; [apply pool_inv_clear_children | done].
  - intros g f _ _. apply shaped_update_group.
  - intros f. apply shaped_same_pool; [apply pool_inv_update_pane | done].
  - intros e. apply shaped_same_pool; [apply pool_inv_logging | done].
  - intros p d cb _. apply shaped_acquire.
  - intros w g. apply shaped_update_group.
  - intros w g. apply preserves_bind; [| intros _]; apply shaped_update_group.
  - apply shaped_destroy.
  - intros r _. unfold deliver_Map, _make_available.
    preserve; by apply shaped_update_row.
  - intros r. unfold deliver_Unmap, _make_available.
    preserve; by apply shaped_update_row.
Qed.

Lemma shaped_run ops s : pool_shaped Q s -> pool_shaped Q (run editor_set ops s).
Proof using All.
  revert s. induction ops as [|op ops IH]; intros s Hs; simpl; [done|].
  apply IH. by apply shaped_exec.
Qed.

End PoolShape.

Lemma pool_at_insert_scope (pools : gmap nat (gmap (string + nat) nat))
    (p p0 : nat) (pool' : gmap (string + nat) nat) k :
  pool_at (<[p := pool']> pools) p0 k
  = if decide (p = p0) then pool' !! k else pool_at pools p0 k.
Proof.
  unfold pool_at. destruct (decide (p = p0)) as [<-|Hne].
  - by rewrite lookup_insert_eq.
  - by rewrite lookup_insert_ne.
Qed.

Lemma pool_at_default (pools : gmap nat (gmap (string + nat) nat)) (p : nat) k :
  default ∅ (pools !! p) !! k = pool_at pools p k.
Proof. unfold pool_at. destruct (pools !! p); [done|]. simpl. apply lookup_empty. Qed.

Lemma pool_at_bound s p k r : pool_inv s -> pool_at (_pool s) p k = Some r -> r < length (heap s).
Proof.
  intros Hinv H. unfold pool_at in H.
  destruct (_pool s !! p) as [pool|] eqn:Hp; [| done]. simpl in H.
  destruct (Hinv _ _ _ _ Hp H) as (nm & row & _ & Hrow & _).
  by eapply lookup_lt_Some.
Qed.

Lemma pool_injective_ext pools pools' :
  (forall p k, pool_at pools' p k = pool_at pools p k) ->
  pool_injective pools -> pool_injective pools'.
Proof. intros Heq H p1 k1 p2 k2 r. rewrite !Heq. apply H. Qed.

Lemma pool_injective_construct s (p : nat) nm :
  pool_inv s -> pool_injective (_pool s) ->
  pool_injective (<[p := <[inl nm := length (heap s)]> (default ∅ (_pool s !! p))]> (_pool s)).
Proof.
  intros Hinv Hinj p1 k1 p2 k2 r. rewrite !pool_at_insert_scope.
  assert (forall p0 k0, pool_at (_pool s) p0 k0 = Some (length (heap s)) -> False) as Hfresh.
  { intros p0 k0 H. apply (pool_at_bound _ _ _ _ Hinv) in H. lia. }
  destruct (decide (p = p1)) as [<-|Hn1], (decide (p = p2)) as [<-|Hn2].
  - destruct (decide (k1 = inl nm)) as [->|Hk1], (decide (k2 = inl nm)) as [->|Hk2];
      rewrite ?lookup_insert_eq, ?lookup_insert_ne, ?pool_at_default by done.
    + done.
    + intros [= <-] H. by destruct (Hfresh _ _ H).
    + intros H [= <-]. by destruct (Hfresh _ _ H).
    + apply Hinj.
  - destruct (decide (k1 = inl nm)) as [->|Hk1];
      rewrite ?lookup_insert_eq, ?lookup_insert_ne, ?pool_at_default by done.
    + intros [= <-] H. by destruct (Hfresh _ _ H).
    + apply Hinj.
  - destruct (decide (k2 = inl nm)) as [->|Hk2];
      rewrite ?lookup_insert_eq, ?lookup_insert_ne, ?pool_at_default by done.
    + intros H [= <-]. by destruct (Hfresh _ _ H).
    + apply Hinj.
  - apply Hinj.
Qed.

Lemma pool_shaped_init Q : Q ∅ -> pool_shaped Q init.
Proof. intros HQ. split; [apply pool_inv_init | exact HQ]. Qed.

Lemma reachable_pool_shaped editor_set Q s :
  (forall pools pools', (forall p k, pool_at pools' p k = pool_at pools p k) ->
                        Q pools -> Q pools') ->
  (forall s (p : nat) nm, pool_inv s -> Q (_pool s) ->
     Q (<[p := <[inl nm := length (heap s)]> (default ∅ (_pool s !! p))]> (_pool s))) ->
  Q ∅ -> reachable editor_set s -> pool_shaped Q s.
Proof.
  intros Hext Hcons H0. induction 1 as [|s op _ IH].
  - by apply pool_shaped_init.
  - by apply shaped_exec.
Qed.

(** X1.  In every reachable store a row is filed in the pool at most once:
    two pool entries that hold the same row are the same entry (same scope,
    same key).  No row is shared between two scopes or two keys. *)
Theorem pool_files_each_row_once editor_set s p1 k1 p2 k2 r :
  reachable editor_set s ->
  pool_row s p1 k1 = Some r ->
  pool_row s p2 k2 = Some r ->
  p1 = p2 /\ k1 = k2.
Proof.
  intros Hreach H1 H2.
  destruct (reachable_pool_shaped editor_set pool_injective s
              pool_injective_ext pool_injective_construct) as [_ Hinj]; [| done |].
  { intros ? ? ? ? ? H. unfold pool_at in H. by rewrite lookup_empty in H. }
  destruct (Hinj p1 (inl k1) p2 (inl k2) r H1 H2) as [-> [= ->]]. done.
Qed.

Lemma pool_holds_since_ext scope key r pools pools' :
  (forall p k, pool_at pools' p k = pool_at pools p k) ->
  pool_holds_since scope key r pools -> pool_holds_since scope key r pools'.
Proof. intros Heq (r' & H & Hle). exists r'. by rewrite Heq. Qed.

Lemma pool_holds_since_construct scope key r s (p : nat) nm :
  pool_inv s -> pool_holds_since scope key r (_pool s) ->
  pool_holds_since scope key r
    (<[p := <[inl nm := length (heap s)]> (default ∅ (_pool s !! p))]> (_pool s)).
Proof.
  intros Hinv (r' & H & Hle). unfold pool_holds_since.
  rewrite pool_at_insert_scope.
  destruct (decide (p = scope)) as [->|Hne]; [| by exists r'].
  destruct (decide (nm = key)) as [->|Hk].
  - rewrite lookup_insert_eq. eexists. split; [done|].
    apply (pool_at_bound _ _ _ _ Hinv) in H. lia.
  - rewrite lookup_insert_ne by congruence. rewrite pool_at_default. by exists r'.
Qed.

(** X2.  The pool never forgets a key: once [pool[scope][key]] holds a row,
    after any sequence of operations ([destroy] included) it still holds a
    row, and that row is the same one or one built later. *)
Theorem pool_entry_is_never_removed editor_set s ops scope key r :
  reachable editor_set s ->
  pool_row s scope key = Some r ->
  exists r', pool_row (run editor_set ops s) scope key = Some r' /\ r <= r'.
Proof.
  intros Hreach Hr.
  assert (pool_shaped (pool_holds_since scope key r) s) as Hs.
  { split; [by eapply reachable_pool_inv|]. by exists r. }
  apply (shaped_run editor_set _ (pool_holds_since_ext scope key r)
           (pool_holds_since_construct scope key r) ops) in Hs.
  exact (proj2 Hs).
Qed.

(** ** Rows stay where they were built *)

Lemma row_of_scope_exec editor_set r p op :
  preserves (row_of_scope r p) (exec editor_set op).
Proof.
  assert (forall s s', heap s' = heap s -> row_of_scope r p s -> row_of_scope r p s') as Hext.
  { intros s s' Heq. unfold row_of_scope. by rewrite Heq. }
  assert (forall r' f, (forall row, parent (f row) = parent row) ->
                       preserves (row_of_scope r p) (update_row r' f)) as Hrow.
  { intros r' f Hf s (row & Hrow & Hpar). rewrite update_row_post.
    destruct (heap s !! r') as [row'|] eqn:Hr'; [| by exists row].
    unfold row_of_scope. simpl. destruct (decide (r' = r)) as [->|Hne].
    - exists (f row'). rewrite list_lookup_insert_eq by (by eapply lookup_lt_Some).
      split; [done|]. rewrite Hf. congruence.
    - exists row. by rewrite list_lookup_insert_ne. }
  assert (forall g f, preserves (row_of_scope r p) (update_group g f)) as Hgrp.
  { intros g f s Hs. rewrite update_group_post.
    destruct (groups s !! g); [| done]. by apply (Hext s). }
  assert (forall p' d cb, preserves (row_of_scope r p) (ReusableStyleItem p' d cb)) as Hnew.
  { intros p' d cb s (row & Hrow' & Hpar). exists row. split; [| done].
    simpl. by apply lookup_app_l_Some. }
  apply (exec_preserves editor_set (row_of_scope r p) (fun _ => True))
    with (allowed := fun _ => True); [| | | | | | done | | | | | | done].
  - intros r' f Hf. apply Hrow. intros row. apply Hf.
  - intros g s (row & Hrow' & Hpar). unfold row_of_scope. simpl.
    rewrite list_lookup_fmap, Hrow'. simpl. eexists. split; [done|].
    by destruct (parent row =? g).
  - intros g f _ _. apply Hgrp.
  - intros f s. by apply Hext.
  - intros e s. by apply Hext.
  - intros p' d cb _. unfold acquire. apply preserves_bind.
    + unfold pooled. apply preserves_bind; [apply preserves_get | intros s0]. preserve.
    + intros [item|]; [| apply Hnew].
      apply re_purposed_preserves. intros r' f Hf. apply Hrow. intros row. apply Hf.
  - intros w g. apply Hgrp.
  - intros w g. apply preserves_bind; [| intros _]; apply Hgrp.
  - intros r'. unfold destroy.
    apply preserves_bind; [apply preserves_read_row | intros row].
    apply preserves_bind; [apply preserves_get | intros s0].
    assert (forall x, preserves (row_of_scope r p) (modify (set_pool x))) as Hpool.
    { intros x. apply preserves_modify. intros s. by apply Hext. }
    preserve; by apply Hrow.
  - intros r' _. unfold deliver_Map, _make_available. preserve; by apply Hrow.
  - intros r'. unfold deliver_Unmap, _make_available. preserve; by apply Hrow.
Qed.

(** X3.  A row, once built, stays in the store under the scope it was built
    for: no sequence of operations removes it or gives it another parent. *)
Theorem row_keeps_its_scope editor_set s ops r row :
  heap s !! r = Some row ->
  exists row', heap (run editor_set ops s) !! r = Some row'
               /\ parent row' = parent row.
Proof.
  intros Hrow.
  assert (row_of_scope r (parent row) s) as Hs by by exists row.
  clear Hrow. revert s Hs. induction ops as [|op ops IH]; intros s Hs; simpl.
  - exact Hs.
  - apply IH. by apply row_of_scope_exec.
Qed.

(** X1, at a concrete store. *)
Lemma pool_files_each_row_once_witness :
  reachable accepting selected
  /\ pool_row selected 2 "color" = Some 2
  /\ (2 = 2 /\ "color" = "color").
Proof.
  assert (reachable accepting selected) as Hreach by (constructor; constructor).
  assert (pool_row selected 2 "color" = Some 2) as Hp by (vm_compute; reflexivity).
  split; [exact Hreach|]. split; [exact Hp|].
  exact (pool_files_each_row_once accepting selected 2 "color" 2 "color" 2 Hreach Hp Hp).
Defined.

(** X2, at a concrete store: the colour row destroyed and the widget
    selected again. *)
Lemma pool_entry_is_never_removed_witness :
  reachable accepting shown
  /\ pool_row shown 2 "color" = Some 2
  /\ exists r', pool_row (run accepting [Destroy 2; Select (Some button)] shown) 2 "color"
                = Some r' /\ 2 <= r'.
Proof.
  assert (reachable accepting shown) as Hreach.
  { unfold shown. apply reachable_run. constructor. }
  assert (pool_row shown 2 "color" = Some 2) as Hp by (vm_compute; reflexivity).
  split; [exact Hreach|]. split; [exact Hp|].
  exact (pool_entry_is_never_removed accepting shown [Destroy 2; Select (Some button)]
           2 "color" 2 Hreach Hp).
Defined.

(** X3, at a concrete store. *)
Lemma row_keeps_its_scope_witness :
  exists row, heap selected !! 1 = Some row
    /\ exists row', heap (run accepting [Destroy 1; ClearAll] selected) !! 1 = Some row'
                    /\ parent row' = parent row.
Proof.
  assert (exists row, heap selected !! 1 = Some row) as [row Hrow]
    by (eexists; vm_compute; reflexivity).
  exists row. split; [exact Hrow|].
  exact (row_keeps_its_scope accepting selected [Destroy 1; ClearAll] 1 row Hrow).
Defined.

(** ** Use after [destroy] *)

Lemma destroy_eval s r row :
  pool_inv s -> heap s !! r = Some row ->
  exists pools, (forall p k, pool_at pools p k = pool_at (_pool s) p k)
    /\ destroy r s = (Ret tt, set_heap (<[r := set_destroyed true row]> (heap s))
                                (set_pool pools s)).
Proof.
  intros Hinv Hrow. unfold destroy, read_row, mbind at 1, M_bind. rewrite Hrow.
  unfold mbind, M_bind, get, modify. simpl.
  set (pool := default ∅ (_pool s !! parent row)).
  assert (pool !! inr r = None) as Hkey.
  { destruct (pool !! inr r) as [r0|] eqn:Hk; [| done].
    apply default_pool_lookup in Hk as (pool0 & Hp & Hk).
    by destruct (Hinv _ _ _ _ Hp Hk) as (nm & ? & ? & _). }
  destruct (decide (is_Some (pool !! inr r))) as [[r0 Hr0]|_]; [congruence|].
  simpl. unfold update_row. simpl. rewrite Hrow. simpl.
  exists (<[parent row := pool]> (_pool s)). split; [| done].
  intros p k. rewrite pool_at_insert_scope.
  destruct (decide (parent row = p)) as [<-|Hne]; [| done].
  apply pool_at_default.
Qed.

(** X4.  A destroyed row is handed out again.  [destroy] leaves the row
    filed and available, so the next [acquire] for its scope and key
    re-purposes and returns the destroyed row. *)
Theorem acquire_returns_destroyed_row editor_set s scope d cb r :
  reachable editor_set s ->
  pool_row s scope (d_name d) = Some r ->
  available s r ->
  editor_set (d_value d) = None ->
  let s1 := after editor_set (Destroy r) s in
  exists row,
    heap s1 !! r = Some row
    /\ destroyed row = true
    /\ acquire editor_set scope d cb s1 = (Ret r, with_row r (rebound d cb row) s1)
    /\ destroyed (rebound d cb row) = true.
Proof.
  intros Hreach Hp Hav Hed s1.
  assert (reachable editor_set s1) as Hreach1 by by constructor.
  pose proof (reachable_pool_inv _ _ Hreach) as Hinv.
  assert (on_offer scope (d_name d) r s1) as [Hp1 Hav1].
  { apply on_offer_destroy. by split. }
  destruct (acquire_reuse editor_set s1 scope d cb r
              (reachable_pool_inv _ _ Hreach1) (reachable_avail_inv _ _ Hreach1) Hp1 Hav1)
    as (row & Hrow & _ & _ & _ & _ & Hok & _).
  exists row. split; [exact Hrow|].
  assert (destroyed row = true) as Hd.
  { destruct Hav as (row0 & Hrow0 & _).
    destruct (destroy_eval s r row0 Hinv Hrow0) as (pools & _ & Heq).
    unfold s1, after in Hrow. simpl in Hrow. rewrite Heq in Hrow. simpl in Hrow.
    rewrite list_lookup_insert_eq in Hrow by (by eapply lookup_lt_Some).
    by injection Hrow as <-. }
  split; [exact Hd|]. split; [by apply Hok|]. exact Hd.
Qed.

Lemma acquire_returns_destroyed_row_witness :
  exists row,
    heap (after accepting (Destroy 2) selected) !! 2 = Some row
    /\ destroyed row = true
    /\ (acquire accepting 2 colour_blue None (after accepting (Destroy 2) selected)).1 = Ret 2.
Proof.
  assert (reachable accepting selected) as Hreach by (constructor; constructor).
  assert (pool_row selected 2 (d_name colour_blue) = Some 2) as Hp by (vm_compute; reflexivity).
  assert (available selected 2) as Hav by (eexists; split; vm_compute; reflexivity).
  destruct (acquire_returns_destroyed_row accepting selected 2 colour_blue None 2
              Hreach Hp Hav eq_refl) as (row & Hrow & Hd & Heq & _).
  exists row. split; [exact Hrow|]. split; [exact Hd|]. by rewrite Heq.
Defined.

(** ** What a group never loses *)

Section GroupStability.

Variable editor_set : Value -> option Exn.
Variable P : Group -> Prop.
Variable g : Scope.
Hypothesis P_frame : forall grp f, group_frame f -> P grp -> P (f grp).
Hypothesis P_widget : forall w grp, P grp -> P (set_widget w grp).
Hypothesis P_init : forall grp, P grp -> P (set_has_initialized true grp).
Hypothesis P_prev : forall w grp, P grp -> P (set_prev_widget w grp).

Lemma group_has_destroy r : preserves (group_has P g) (destroy r).
Proof.
  unfold destroy.
  apply preserves_bind; [apply preserves_read_row | intros row].
  apply preserves_bind; [apply preserves_get | intros s0].
  assert (forall x, preserves (group_has P g) (modify (set_pool x))) as Hpool.
  { intros x. by apply groups_only_modify; [apply group_has_ext|]. }
  preserve; apply groups_only_update_row, group_has_ext.
Qed.

Lemma group_has_exec op : preserves (group_has P g) (exec editor_set op).
Proof using All.
  apply (exec_preserves editor_set (group_has P g) (fun _ => True))
    with (allowed := fun _ => True); [| | | | | | done | | | | | | done].
  - intros r f _. apply groups_only_update_row, group_has_ext.
  - intros g0. by apply groups_only_modify; [apply group_has_ext|].
  - intros g0 f _ Hf. apply group_has_update. intros grp. by apply P_frame.
  - intros f. by apply groups_only_modify; [apply group_has_ext|].
  - intros e. by apply groups_only_modify; [apply group_has_ext|].
  - intros p d cb _. apply groups_only_acquire, group_has_ext.
  - intros w g0. apply group_has_update, P_widget.
  - intros w g0. apply preserves_bind; [| intros _]; apply group_has_update.
    + apply P_init.
    + apply P_prev.
  - apply group_has_destroy.
  - intros r _. unfold deliver_Map, _make_available.
    preserve; apply groups_only_update_row, group_has_ext.
  - intros r. unfold deliver_Unmap, _make_available.
    preserve; apply groups_only_update_row, group_has_ext.
Qed.

Lemma group_has_run ops s : group_has P g s -> group_has P g (run editor_set ops s).
Proof using All.
  revert s. induction ops as [|op ops IH]; intros s Hs; simpl; [done|].
  apply IH. by apply group_has_exec.
Qed.

End GroupStability.

(** X5.  A group is never reclassified and never un-initialized: whatever
    operations run, the group is still in the store with the class it had, and
    once [_has_initialized] is set it stays set. *)
Theorem group_is_never_reset editor_set s ops g grp :
  groups s !! g = Some grp ->
  exists grp', groups (run editor_set ops s) !! g = Some grp'
               /\ gclass grp' = gclass grp
               /\ (_has_initialized grp = true -> _has_initialized grp' = true).
Proof.
  intros Hg.
  apply (group_has_run editor_set
           (fun grp' => gclass grp' = gclass grp
                        /\ (_has_initialized grp = true -> _has_initialized grp' = true)) g).
  - intros grp0 f Hf [Hc Hi]. destruct (Hf grp0) as (-> & _ & -> & _). done.
  - intros w grp0 [Hc Hi]. done.
  - intros grp0 [Hc Hi]. done.
  - intros w grp0 [Hc Hi]. done.
  - by exists grp.
Qed.

Lemma group_is_never_reset_witness :
  exists grp, groups selected !! 0 = Some grp
    /\ exists grp', groups (run accepting [Select None; GroupChange 0 None; ClearAll] selected) !! 0
                    = Some grp'
                    /\ gclass grp' = gclass grp
                    /\ (_has_initialized grp = true -> _has_initialized grp' = true).
Proof.
  assert (exists grp, groups selected !! 0 = Some grp) as [grp Hg]
    by (eexists; vm_compute; reflexivity).
  exists grp. split; [exact Hg|].
  exact (group_is_never_reset accepting selected
           [Select None; GroupChange 0 None; ClearAll] 0 grp Hg).
Defined.

(** ** The branch a group takes *)

Lemma get_definition_eval g grp s :
  groups s !! g = Some grp -> exists defs, get_definition g s = (Ret defs, s).
Proof.
  intros Hg. unfold get_definition.
  rewrite (bind_eval _ _ _ _ _ (read_group_eval _ _ _ Hg)).
  destruct (gclass grp), (_widget grp) as [w|];
    try destruct (identity w); try destruct (properties w); by eexists.
Qed.

Lemma lookup_set_widget g grp w s :
  groups s !! g = Some grp ->
  groups (set_groups (<[g := set_widget w grp]> (groups s)) s) !! g
  = Some (set_widget w grp).
Proof. intros Hg. simpl. apply list_lookup_insert_eq. by eapply lookup_lt_Some. Qed.

Lemma can_optimize_eval s g grp w :
  init_inv s ->
  groups s !! g = Some grp ->
  let s1 := set_groups (<[g := set_widget (Some w) grp]> (groups s)) s in
  can_optimize g s1 = (Ret (refreshes_in_place grp w), s1).
Proof.
  intros Hinit Hg s1. subst s1. unfold can_optimize.
  rewrite (bind_eval _ _ _ _ _ (read_group_eval _ _ _ (lookup_set_widget _ _ _ _ Hg))).
  unfold refreshes_in_place, same_class_as_previous, spec_layout_can_optimize. simpl.
  destruct (gclass grp); try done.
  - destruct (_prev_widget grp) as [w'|] eqn:Hprev; simpl; [| done].
    rewrite (Hinit g grp Hg) by by rewrite Hprev. by rewrite andb_true_r.
  - destruct (_prev_widget grp) as [w'|] eqn:Hprev; simpl.
    + rewrite (Hinit g grp Hg) by by rewrite Hprev. done.
    + by rewrite !andb_false_r.
Qed.

(** X6.  Which branch a group takes.  For a present widget, in every
    reachable store, [on_widget_change] of a group that is not the Layout
    group is the method with the branch fixed by the group's class: the base
    class always rebuilds, the Identity group refreshes in place once it is
    initialized, and the Attribute group refreshes in place exactly when the
    previous widget exists and has the class of the new one (its
    [_has_initialized] conjunct never decides). *)
Theorem group_change_takes_the_class_branch editor_set s g grp w :
  reachable editor_set s ->
  groups s !! g = Some grp ->
  gclass grp <> LayoutGroup ->
  on_widget_change editor_set g (Some w) s
  = group_change_deciding editor_set (refreshes_in_place grp w) g w s
  /\ (gclass grp = StyleGroup -> refreshes_in_place grp w = false)
  /\ (gclass grp = IdentityGroup -> refreshes_in_place grp w = _has_initialized grp)
  /\ (gclass grp = AttributeGroup ->
      refreshes_in_place grp w = true
      <-> exists w', _prev_widget grp = Some w' /\ wclass w' = wclass w).
Proof.
  intros Hreach Hg Hc. split_and!.
  - unfold on_widget_change.
    rewrite (bind_eval _ _ _ _ _ (read_group_eval _ _ _ Hg)).
    assert (StyleGroup_on_widget_change editor_set g (Some w) s
            = group_change_deciding editor_set (refreshes_in_place grp w) g w s) as Heq.
    { unfold StyleGroup_on_widget_change, group_change_deciding.
      rewrite !(bind_eval _ _ _ _ _ (update_group_eval _ _ _ _ Hg)).
      destruct (get_definition_eval g _ _ (lookup_set_widget g grp (Some w) s Hg))
        as [defs Hdefs].
      rewrite !(bind_eval _ _ _ _ _ Hdefs).
      by rewrite (bind_eval _ _ _ _ _
                    (can_optimize_eval s g grp w (reachable_init_inv _ _ Hreach) Hg)). }
    by destruct (gclass grp).
  - unfold refreshes_in_place. by intros ->.
  - unfold refreshes_in_place. by intros ->.
  - unfold refreshes_in_place, same_class_as_previous. intros ->.
    rewrite bool_decide_eq_true. destruct (_prev_widget grp) as [w'|]; simpl.
    + split; [intros [= Heq]; by exists w' | intros (? & [= <-] & ->); done].
    + split; [done | intros (? & ? & _); done].
Qed.

Lemma group_change_takes_the_class_branch_witness :
  exists grp, groups selected !! 2 = Some grp
    /\ refreshes_in_place grp button = true
    /\ on_widget_change accepting 2 (Some button) selected
       = group_change_deciding accepting true 2 button selected.
Proof.
  assert (exists grp, groups selected !! 2 = Some grp /\ gclass grp <> LayoutGroup
                      /\ refreshes_in_place grp button = true)
    as (grp & Hg & Hc & Hb) by (eexists; split_and!; vm_compute; done).
  exists grp. split; [exact Hg|]. split; [exact Hb|].
  assert (reachable accepting selected) as Hreach by (constructor; constructor).
  destruct (group_change_takes_the_class_branch accepting selected 2 grp button Hreach Hg Hc)
    as (Heq & _).
  rewrite Heq, Hb. reflexivity.
Defined.

(** ** What a refresh leaves alone *)

Lemma re_purposed_post editor_set self d cb s :
  (_re_purposed editor_set self d cb s).2
  = match heap s !! self with
    | Some row =>
        with_row self (match editor_set (d_value d) with
                       | Some _ => abandoned d row
                       | None => rebound d cb row
                       end) s
    | None => s
    end.
Proof.
  destruct (heap s !! self) as [row|] eqn:Hrow.
  - rewrite (re_purposed_eval _ _ _ _ _ _ Hrow). by destruct (editor_set (d_value d)).
  - unfold _re_purposed, rebind_begin, mbind, M_bind, update_row, read_row.
    destruct cb; simpl; by rewrite Hrow.
Qed.

Lemma same_place_refl row : same_place row row.
Proof. by repeat split. Qed.

Lemma same_place_trans row1 row2 row3 :
  same_place row1 row2 -> same_place row2 row3 -> same_place row1 row3.
Proof.
  intros (? & ? & ? & ? & ? & ?) (? & ? & ? & ? & ? & ?). repeat split; congruence.
Qed.

Lemma rebinds_only_refl s : rebinds_only s s.
Proof.
  split; [done|]. split; [done|]. intros r row Hrow. exists row.
  split; [done | apply same_place_refl].
Qed.

Lemma rebinds_only_ext s s1 s2 :
  _pool s2 = _pool s1 -> heap s2 = heap s1 -> rebinds_only s s1 -> rebinds_only s s2.
Proof. unfold rebinds_only. by intros -> ->. Qed.

Lemma rebinds_only_with_row s s1 r row1 row2 :
  heap s1 !! r = Some row1 -> same_place row1 row2 ->
  rebinds_only s s1 -> rebinds_only s (with_row r row2 s1).
Proof.
  intros Hr Hsame (Hp & Hlen & Hrows). split; [done|]. split.
  - simpl. by rewrite length_insert.
  - intros r0 row Hrow. destruct (Hrows r0 row Hrow) as (row' & Hrow' & Hs').
    simpl. destruct (decide (r = r0)) as [->|Hne].
    + exists row2. rewrite list_lookup_insert_eq by (by eapply lookup_lt_Some).
      split; [done|]. apply (same_place_trans _ row'); [done|]. congruence.
    + exists row'. by rewrite list_lookup_insert_ne.
Qed.

Lemma rebinds_only_re_purposed editor_set s self d cb :
  preserves (rebinds_only s) (_re_purposed editor_set self d cb).
Proof.
  intros s1 Hs1. rewrite re_purposed_post.
  destruct (heap s1 !! self) as [row|] eqn:Hrow; [| done].
  apply (rebinds_only_with_row _ _ _ row); [done | | done].
  destruct (editor_set (d_value d)); by repeat split.
Qed.

Lemma rebinds_only_update_group s g f : preserves (rebinds_only s) (update_group g f).
Proof.
  intros s1 Hs1. rewrite update_group_post.
  destruct (groups s1 !! g); [| done]. by apply (rebinds_only_ext _ s1).
Qed.

(** X7.  A group that refreshes in place only rebinds.  In every reachable
    store, when a group takes the refresh branch for a present widget, then
    whether the update returns or raises, the pool is as before, no row has
    been built, every row has kept its parent, its definition, its flags and
    its packing, and the group's [items] is unchanged. *)
Theorem refresh_only_rebinds editor_set s g grp w :
  reachable editor_set s ->
  groups s !! g = Some grp ->
  refreshes_in_place grp w = true ->
  let s' := (on_widget_change editor_set g (Some w) s).2 in
  rebinds_only s s'
  /\ exists grp', groups s' !! g = Some grp' /\ items grp' = items grp.
Proof.
  intros Hreach Hg Hopt s'.
  set (J := fun s0 : State =>
              rebinds_only s s0
              /\ group_has (fun grp' => items grp' = items grp) g s0).
  assert (forall g0 f, (forall grp0, items (f grp0) = items grp0) ->
                       preserves J (update_group g0 f)) as Hupd.
  { intros g0 f Hf. apply preserves_and; [apply rebinds_only_update_group|].
    apply group_has_update. intros grp0. by rewrite Hf. }
  assert (forall item d cb, preserves J (_re_purposed editor_set item d cb)) as Hre.
  { intros item d cb. apply preserves_and; [apply rebinds_only_re_purposed|].
    apply re_purposed_preserves. intros r f _.
    apply groups_only_update_row, group_has_ext. }
  set (s1 := set_groups (<[g := set_widget (Some w) grp]> (groups s)) s).
  assert (J s1) as Hs1.
  { split; [by apply (rebinds_only_ext _ s), rebinds_only_refl|].
    exists (set_widget (Some w) grp). split; [| done].
    by apply lookup_set_widget. }
  assert (J (StyleGroup_on_widget_change editor_set g (Some w) s).2) as Hstyle.
  { unfold StyleGroup_on_widget_change.
    rewrite (bind_eval _ _ _ _ _ (update_group_eval _ _ _ _ Hg)). fold s1.
    destruct (get_definition_eval g _ _ (lookup_set_widget g grp (Some w) s Hg))
      as [defs Hdefs].
    rewrite (bind_eval _ _ _ _ _ Hdefs).
    rewrite (bind_eval _ _ _ _ _
               (can_optimize_eval s g grp w (reachable_init_inv _ _ Hreach) Hg)).
    rewrite Hopt. fold s1. revert Hs1. generalize s1. change (preserves J
      (refresh editor_set g defs ;;
       update_group g (set_has_initialized true) ;;
       update_group g (set_prev_widget (Some w)))).
    unfold refresh. preserve; by apply Hupd. }
  subst s'. change (J (on_widget_change editor_set g (Some w) s).2).
  unfold on_widget_change.
  rewrite (bind_eval _ _ _ _ _ (read_group_eval _ _ _ Hg)).
  destruct (gclass grp); try exact Hstyle.
  unfold LayoutGroup_on_widget_change. revert Hstyle.
  unfold mbind at 1, M_bind.
  destruct (StyleGroup_on_widget_change editor_set g (Some w) s) as [[[]|e] s2];
    simpl; [| done].
  generalize s2. change (preserves J
    (update_group g (set_prev_layout (Some (layout_strategy (layout w)))) ;;
     update_group g
       (set_label ("Layout (" +:+ strategy_name (layout_strategy (layout w)) +:+ ")")))).
  preserve; by apply Hupd.
Qed.

Lemma refresh_only_rebinds_witness :
  exists grp, groups selected !! 0 = Some grp
    /\ refreshes_in_place grp button = true
    /\ rebinds_only selected (on_widget_change accepting 0 (Some button) selected).2.
Proof.
  assert (exists grp, groups selected !! 0 = Some grp
                      /\ refreshes_in_place grp button = true)
    as (grp & Hg & Hb) by (eexists; split; vm_compute; reflexivity).
  exists grp. split; [exact Hg|]. split; [exact Hb|].
  assert (reachable accepting selected) as Hreach by (constructor; constructor).
  exact (proj1 (refresh_only_rebinds accepting selected 0 grp button Hreach Hg Hb)).
Defined.

(** ** Edits *)

Lemma set_log_nil s : set_log (log s ++ []) s = s.
Proof. rewrite app_nil_r. by destruct s. Qed.

(** X8.  [apply] never raises and writes to nothing but the log, whatever
    the group, the key, the value and the host object do.  When the host
    accepts the write nothing is logged.  With no widget selected the generic
    [apply] returns at once, while the Layout group's [apply], which has no
    such guard, logs the [AttributeError] of reading [None.layout]. *)
Theorem apply_writes_only_the_log s g grp prop value :
  groups s !! g = Some grp ->
  exists entries,
    apply g prop value s = (Ret tt, set_log (log s ++ entries) s)
    /\ (forall w, _widget grp = Some w ->
          (if gclass grp is LayoutGroup
           then layout_apply (layout w) prop value
           else configure w prop value) = None ->
          entries = [])
    /\ (_widget grp = None ->
          entries = if gclass grp is LayoutGroup
                    then [LogExnMsg no_layout_attribute "Could not set layout" prop value]
                    else []).
Proof.
  intros Hg. unfold apply.
  rewrite (bind_eval _ _ _ _ _ (read_group_eval _ _ _ Hg)).
  assert (exists entries,
            StyleGroup_apply g prop value s = (Ret tt, set_log (log s ++ entries) s)
            /\ (forall w, _widget grp = Some w -> configure w prop value = None ->
                  entries = [])
            /\ (_widget grp = None -> entries = [])) as Hstyle.
  { unfold StyleGroup_apply.
    rewrite (bind_eval _ _ _ _ _ (read_group_eval _ _ _ Hg)).
    destruct (_widget grp) as [w|].
    - unfold try_except, host_call.
      destruct (configure w prop value) as [e|] eqn:He; simpl.
      + destruct (not_empty_str value).
        * exists [LogExn e; LogMsg "Could not set style" prop value]. split_and!.
          -- unfold mbind, M_bind, logging, modify, set_log. simpl.
             by rewrite <- app_assoc.
          -- intros w' [= <-]. by rewrite He.
          -- done.
        * exists []. by rewrite set_log_nil.
      + exists []. by rewrite set_log_nil.
    - exists []. by rewrite set_log_nil. }
  assert (exists entries,
            LayoutGroup_apply g prop value s = (Ret tt, set_log (log s ++ entries) s)
            /\ (forall w, _widget grp = Some w ->
                  layout_apply (layout w) prop value = None -> entries = [])
            /\ (_widget grp = None ->
                  entries = [LogExnMsg no_layout_attribute "Could not set layout" prop value]))
    as Hlayout.
  { unfold LayoutGroup_apply.
    rewrite (bind_eval _ _ _ _ _ (read_group_eval _ _ _ Hg)).
    unfold try_except, host_call.
    destruct (_widget grp) as [w|].
    - destruct (layout_apply (layout w) prop value) as [e|] eqn:He; simpl.
      + eexists. split_and!; [done | | done]. intros w' [= <-]. by rewrite He.
      + exists []. by rewrite set_log_nil.
    - eexists. split_and!; done. }
  by destruct (gclass grp).
Qed.

Lemma apply_writes_only_the_log_witness :
  exists grp, groups init !! 1 = Some grp
    /\ apply 1 "side" (VStr "top") init
       = (Ret tt,
          set_log (log init ++ [LogExnMsg no_layout_attribute "Could not set layout"
                                          "side" (VStr "top")]) init).
Proof.
  assert (exists grp, groups init !! 1 = Some grp /\ _widget grp = None
                      /\ gclass grp = LayoutGroup)
    as (grp & Hg & Hw & Hc) by (eexists; split_and!; vm_compute; reflexivity).
  exists grp. split; [exact Hg|].
  destruct (apply_writes_only_the_log init 1 grp "side" (VStr "top") Hg)
    as (entries & Heq & _ & Hnone).
  rewrite Heq, (Hnone Hw), Hc. reflexivity.
Defined.

(** * The pane's wiring *)

Lemma dict_values_set {A} k (v : A) d x :
  x ∈ dict_values (dict_set k v d) -> x = v \/ x ∈ dict_values d.
Proof.
  unfold dict_values. induction d as [|[k' v'] d IH]; simpl.
  - intros [->|H]%elem_of_cons; [by left | by apply not_elem_of_nil in H].
  - destruct (String.eqb k k'); simpl; intros [->|H]%elem_of_cons.
    + by left.
    + right. apply elem_of_cons. by right.
    + right. apply elem_of_cons. by left.
    + destruct (IH H) as [->|Hd]; [by left|]. right. apply elem_of_cons. by right.
Qed.

Lemma dict_values_pop {A} k (d : list (string * A)) x :
  x ∈ dict_values (dict_pop k d) -> x ∈ dict_values d.
Proof.
  unfold dict_values. induction d as [|[k' v'] d IH]; simpl; [done|].
  destruct (String.eqb k k'); simpl.
  - intros H. apply elem_of_cons. by right.
  - intros [->|H]%elem_of_cons; apply elem_of_cons; [by left | right; by apply IH].
Qed.

Lemma wired_heap s s' :
  groups s' = groups s -> pane s' = pane s ->
  length (heap s) <= length (heap s') -> wired s -> wired s'.
Proof.
  intros Hg Hp Hlen (H1 & H2 & H3 & H4). unfold wired. rewrite Hg, Hp.
  split_and!; try done. intros g grp r Hgrp Hr. specialize (H4 g grp r Hgrp Hr). lia.
Qed.

Lemma wired_update_row r f : preserves wired (update_row r f).
Proof.
  intros s Hs. rewrite update_row_post. destruct (heap s !! r); [| done].
  apply (wired_heap s); try done. simpl. by rewrite length_insert.
Qed.

Lemma wired_clear_children g : preserves wired (clear_children g).
Proof.
  intros s Hs. apply (wired_heap s); try done. simpl. by rewrite length_fmap.
Qed.

Lemma wired_update_group g f :
  (forall grp, gclass (f grp) = gclass grp
               /\ forall r, r ∈ dict_values (items (f grp)) -> r ∈ dict_values (items grp)) ->
  preserves wired (update_group g f).
Proof.
  intros Hf s (H1 & H2 & H3 & H4). rewrite update_group_post.
  destruct (groups s !! g) as [grp|] eqn:Hg; [| done].
  split_and!; try done.
  - simpl. rewrite list_fmap_insert. destruct (Hf grp) as [-> _].
    rewrite list_insert_id; [done|]. by rewrite list_lookup_fmap, Hg.
  - intros g0 grp0 r. simpl. destruct (decide (g = g0)) as [->|Hne].
    + rewrite list_lookup_insert_eq by (by eapply lookup_lt_Some).
      intros [= <-] Hr. apply (H4 g0 grp r Hg). by apply (Hf grp).
    + rewrite list_lookup_insert_ne by done. apply H4.
Qed.

Lemma wired_update_flags g f :
  (forall grp, gclass (f grp) = gclass grp /\ items (f grp) = items grp) ->
  preserves wired (update_group g f).
Proof.
  intros Hf. apply wired_update_group. intros grp. destruct (Hf grp) as [-> ->]. done.
Qed.

Lemma wired_update_pane f :
  (forall p, pane_groups (f p) = pane_groups p /\ _layout_group (f p) = _layout_group p) ->
  preserves wired (update_pane f).
Proof.
  intros Hf s (H1 & H2 & H3 & H4). unfold wired. simpl.
  destruct (Hf (pane s)) as [-> ->]. done.
Qed.

Lemma wired_logging e : preserves wired (logging e).
Proof. intros s Hs. by apply (wired_heap s). Qed.

Lemma wired_set_pool x : preserves wired (modify (set_pool x)).
Proof. apply preserves_modify. intros s Hs. by apply (wired_heap s). Qed.

Lemma wired_construct p d cb : preserves wired (ReusableStyleItem p d cb).
Proof.
  intros s Hs. apply (wired_heap s); try done.
  simpl. rewrite length_app. lia.
Qed.

Section Wiring.

Variable editor_set : Value -> option Exn.

Lemma wired_re_purposed self d cb : preserves wired (_re_purposed editor_set self d cb).
Proof. apply re_purposed_preserves. intros r f _. apply wired_update_row. Qed.

Lemma wired_acquire p d cb : preserves wired (acquire editor_set p d cb).
Proof.
  unfold acquire. apply preserves_bind.
  - unfold pooled. apply preserves_bind; [apply preserves_get | intros s0]. preserve.
  - intros [item|]; [apply wired_re_purposed | apply wired_construct].
Qed.

Lemma wired_add g item : preserves wired (add g item).
Proof.
  intros s Hs. unfold add, read_row, mbind at 1, M_bind.
  destruct (heap s !! item) as [row|] eqn:Hrow; [| done].
  set (J := fun s0 : State => wired s0 /\ item < length (heap s0)).
  assert (J s) as HJ by (split; [done | by eapply lookup_lt_Some]).
  refine (proj1 (preserves_bind J _ _ _ _ s HJ)).
  - clear s Hs Hrow HJ. intros s [(H1 & H2 & H3 & H4) Hlt]. rewrite update_group_post.
    destruct (groups s !! g) as [grp|] eqn:Hg; [| done].
    split; [| done]. split_and!; try done.
    + simpl. rewrite list_fmap_insert. simpl.
      rewrite list_insert_id; [done|]. by rewrite list_lookup_fmap, Hg.
    + intros g0 grp0 r. simpl. destruct (decide (g = g0)) as [->|Hne].
      * rewrite list_lookup_insert_eq by (by eapply lookup_lt_Some).
        intros [= <-] Hr. simpl in Hr.
        apply dict_values_set in Hr as [->|Hr]; [done|]. by apply (H4 g0 grp r).
      * rewrite list_lookup_insert_ne by done. apply H4.
  - clear s Hs Hrow HJ. intros _ s [Hs Hlt]. split.
    + by apply wired_update_row.
    + unfold _show, pack. rewrite update_row_post.
      destruct (heap s !! item); [| done]. simpl. by rewrite length_insert.
Qed.

Lemma wired_remove g item : preserves wired (remove g item).
Proof.
  unfold remove, _hide, pack_forget.
  apply preserves_bind; [apply preserves_read_row | intros row].
  apply preserves_bind; [| intros _; apply wired_update_row].
  apply wired_update_group. intros grp. split; [done|]. apply dict_values_pop.
Qed.

Local Hint Resolve wired_update_row wired_clear_children wired_logging wired_set_pool
  wired_construct wired_re_purposed wired_acquire wired_add wired_remove : preserve.

Lemma wired_flags_widget g w : preserves wired (update_group g (set_widget w)).
Proof. by apply wired_update_flags. Qed.
Lemma wired_flags_prev_widget g w : preserves wired (update_group g (set_prev_widget w)).
Proof. by apply wired_update_flags. Qed.
Lemma wired_flags_initialized g b : preserves wired (update_group g (set_has_initialized b)).
Proof. by apply wired_update_flags. Qed.
Lemma wired_flags_label g x : preserves wired (update_group g (set_label x)).
Proof. by apply wired_update_flags. Qed.
Lemma wired_flags_prev_layout g x : preserves wired (update_group g (set_prev_layout x)).
Proof. by apply wired_update_flags. Qed.
Lemma wired_flags_collapsed g x : preserves wired (update_group g (set_collapsed x)).
Proof. by apply wired_update_flags. Qed.
Lemma wired_no_items g : preserves wired (update_group g (set_items [])).
Proof.
  apply wired_update_group. intros grp. split; [done|].
  intros r Hr. by apply not_elem_of_nil in Hr.
Qed.
Lemma wired_pane_empty_frame x : preserves wired (update_pane (set_empty_frame x)).
Proof. by apply wired_update_pane. Qed.
Lemma wired_pane_current x : preserves wired (update_pane (set_current x)).
Proof. by apply wired_update_pane. Qed.
Lemma wired_pane_expanded x : preserves wired (update_pane (set_expanded x)).
Proof. by apply wired_update_pane. Qed.

Local Hint Resolve wired_flags_widget wired_flags_prev_widget wired_flags_initialized
  wired_flags_label wired_flags_prev_layout wired_flags_collapsed wired_no_items
  wired_pane_empty_frame wired_pane_current wired_pane_expanded
  get_definition_preserves can_optimize_preserves : preserve.

Lemma wired_on_widget_change g w : preserves wired (on_widget_change editor_set g w).
Proof.
  assert (preserves wired (StyleGroup_on_widget_change editor_set g w)) as Hstyle.
  { unfold StyleGroup_on_widget_change, collapse, refresh, rebuild. preserve. }
  unfold on_widget_change, LayoutGroup_on_widget_change. preserve.
Qed.

Lemma wired_on_search_query g q : preserves wired (on_search_query g q).
Proof. unfold on_search_query, _show, _hide, pack, pack_forget. preserve. Qed.

Local Hint Resolve wired_on_widget_change wired_on_search_query : preserve.

Lemma wired_exec op : preserves wired (exec editor_set op).
Proof.
  destruct op; simpl.
  - unfold styles_for, show_empty, show_loading, remove_empty. preserve.
  - unfold layout_for. preserve.
  - preserve.
  - apply apply_preserves. apply wired_logging.
  - preserve.
  - unfold destroy. preserve.
  - preserve.
  - preserve.
  - unfold pane_on_search_query. preserve.
  - unfold pane_on_search_clear, on_search_clear. preserve.
  - unfold expand_all, expand. preserve.
  - unfold collapse_all, collapse. preserve.
  - unfold clear_all. preserve.
  - unfold deliver_Map, _make_available. preserve.
  - unfold deliver_Unmap, _make_available. preserve.
Qed.

End Wiring.

Lemma wired_init : wired init.
Proof.
  split_and!; try done. intros [|[|[|g]]] grp r; simpl; try done;
    intros [= <-] Hr; by apply not_elem_of_nil in Hr.
Qed.

Lemma reachable_wired editor_set s : reachable editor_set s -> wired s.
Proof.
  induction 1 as [|s op _ IH]; [apply wired_init | by apply wired_exec].
Qed.

(** X9.  The wiring of the pane is permanent.  In every reachable store the
    pane still holds the three groups it registered, in registration order
    and with their classes, the Layout group is still the second of them,
    and every row that a group lists in [items] is a row of the store. *)
Theorem pane_stays_wired editor_set s :
  reachable editor_set s ->
  pane_groups (pane s) = [0; 1; 2]
  /\ _layout_group (pane s) = 1
  /\ gclass <$> groups s = [IdentityGroup; LayoutGroup; AttributeGroup]
  /\ forall r, displayed s r -> is_Some (heap s !! r).
Proof.
  intros (H1 & H2 & H3 & H4)%reachable_wired. split_and!; try done.
  intros r (g & grp & Hg & Hr). apply lookup_lt_is_Some. by apply (H4 g grp).
Qed.

Lemma pane_stays_wired_witness :
  pane_groups (pane filtered) = [0; 1; 2]
  /\ gclass <$> groups filtered = [IdentityGroup; LayoutGroup; AttributeGroup].
Proof.
  assert (reachable accepting filtered) as Hreach.
  { unfold filtered. apply reachable_run. constructor. }
  destruct (pane_stays_wired accepting filtered Hreach) as (H1 & _ & H3 & _).
  exact (conj H1 H3).
Defined.

(** * Searching *)

Lemma append_String c q post : String c q +:+ post = String c (q +:+ post).
Proof. reflexivity. Qed.

Lemma append_empty post : "" +:+ post = post.
Proof. reflexivity. Qed.

Lemma prefix_spec q t : String.prefix q t = true <-> exists post, t = q +:+ post.
Proof.
  revert q. induction t as [|c' t IH]; intros [|c q]; simpl.
  - split; [intros _; by exists "" | done].
  - split; [done|]. intros [post Hpost]. by rewrite append_String in Hpost.
  - split; [intros _; by eexists | done].
  - destruct (Ascii.ascii_dec c c') as [->|Hne].
    + rewrite IH. split; intros [post Hpost]; exists post;
        rewrite append_String in *; congruence.
    + split; [done|]. intros [post Hpost]. rewrite append_String in Hpost. congruence.
Qed.

Lemma contains_spec q t :
  contains q t = true <-> exists pre post, t = pre +:+ q +:+ post.
Proof.
  induction t as [|c t IH].
  - change (contains q "") with (String.prefix q "" || false).
    rewrite orb_false_r, prefix_spec. split.
    + intros [post Hpost]. by exists "", post.
    + intros ([|? pre] & post & H); [by exists post|].
      by rewrite append_String in H.
  - change (contains q (String c t))
      with (String.prefix q (String c t) || contains q t).
    rewrite orb_true_iff, prefix_spec, IH. split.
    + intros [[post Hpost]|(pre & post & ->)]; [by exists "", post|].
      by exists (String c pre), post.
    + intros ([|c' pre] & post & H); [left; by exists post|].
      right. rewrite append_String in H. injection H as -> ->. by exists pre, post.
Qed.

Lemma filter_row_again q b row :
  b = contains q (d_display_name (definition row)) ->
  set_packed b (filter_row q row) = filter_row q row
  /\ set_packed b row = filter_row q row.
Proof. intros ->. by destruct row. Qed.

Lemma searched_refl q s : searched q [] s s.
Proof.
  by split_and!.
Qed.

(** One row more. *)
Lemma searched_step q seen s s1 item :
  item < length (heap s) ->
  searched q seen s s1 ->
  exists s2,
    (row ← read_row item;
     if contains q (d_display_name (definition row)) then _show item else _hide item) s1
    = (Ret tt, s2)
    /\ searched q (seen ++ [item]) s s2.
Proof.
  intros Hlt (Hg & Hp & Hpa & Hl & Hlen & Hrows).
  destruct (lookup_lt_is_Some_2 _ _ Hlt) as [row Hrow].
  pose proof (Hrows _ _ Hrow) as Hrow1.
  set (row1 := if decide (item ∈ seen) then filter_row q row else row) in Hrow1.
  assert (definition row1 = definition row) as Hdef.
  { unfold row1. by destruct (decide (item ∈ seen)). }
  exists (set_heap (<[item := filter_row q row]> (heap s1)) s1). split.
  - unfold mbind, M_bind, read_row. rewrite Hrow1, Hdef.
    assert (forall b, b = contains q (d_display_name (definition row)) ->
                      update_row item (set_packed b) s1
                      = (Ret tt, set_heap (<[item := filter_row q row]> (heap s1)) s1)) as Hupd.
    { intros b Hb. unfold update_row. rewrite Hrow1. do 3 f_equal.
      unfold row1. destruct (decide (item ∈ seen));
        by apply (filter_row_again q b row). }
    destruct (contains q (d_display_name (definition row))) eqn:Hc;
      unfold _show, _hide, pack, pack_forget; by apply Hupd.
  - split_and!; try done.
    + simpl. by rewrite length_insert.
    + intros r row0 Hrow0. simpl. destruct (decide (r = item)) as [->|Hne].
      * rewrite list_lookup_insert_eq by (by eapply lookup_lt_Some).
        rewrite decide_True by (apply elem_of_app; right; apply elem_of_cons; by left).
        congruence.
      * rewrite list_lookup_insert_ne by done. rewrite (Hrows _ _ Hrow0).
        f_equal. destruct (decide (r ∈ seen)) as [Hin|Hnin].
        -- rewrite decide_True; [done|]. apply elem_of_app. by left.
        -- rewrite decide_False; [done|].
           intros [?|[?|H]%elem_of_cons]%elem_of_app; try done.
           by apply not_elem_of_nil in H.
Qed.

(** The rows of one group. *)
Lemma searched_rows q items0 seen s s1 :
  (forall r, r ∈ items0 -> r < length (heap s)) ->
  searched q seen s s1 ->
  exists s2,
    for_each items0 (fun item =>
      row ← read_row item;
      if contains q (d_display_name (definition row)) then _show item else _hide item) s1
    = (Ret tt, s2)
    /\ searched q (seen ++ items0) s s2.
Proof.
  revert seen s1. induction items0 as [|item items0 IH]; intros seen s1 Hin Hs1.
  - exists s1. by rewrite app_nil_r.
  - destruct (searched_step q seen s s1 item) as (s2 & Hstep & Hs2);
      [apply Hin, elem_of_cons; by left | done |].
    destruct (IH (seen ++ [item]) s2) as (s3 & Hrest & Hs3);
      [intros r Hr; apply Hin, elem_of_cons; by right | done |].
    exists s3. split.
    + simpl. by rewrite (bind_eval _ _ _ _ _ Hstep).
    + by rewrite <- app_assoc in Hs3.
Qed.

(** The groups of the pane. *)
Lemma searched_groups q gs seen s s1 :
  (forall g, g ∈ gs -> is_Some (groups s !! g)) ->
  (forall r, displayed s r -> r < length (heap s)) ->
  searched q seen s s1 ->
  exists s2 seen',
    for_each gs (fun g => on_search_query g q) s1 = (Ret tt, s2)
    /\ searched q seen' s s2
    /\ forall r, r ∈ seen' <->
         r ∈ seen \/ exists g grp, g ∈ gs /\ groups s !! g = Some grp
                                   /\ r ∈ dict_values (items grp).
Proof.
  intros Hgs Hheap. revert seen s1. induction gs as [|g gs IH]; intros seen s1 Hs1.
  - exists s1, seen. split_and!; try done. intros r. split; [by left|].
    intros [?|(g & grp & Hg & _)]; [done | by apply not_elem_of_nil in Hg].
  - destruct (Hgs g) as [grp Hgrp]; [apply elem_of_cons; by left|].
    destruct (searched_rows q (dict_values (items grp)) seen s s1) as (s2 & Hrows & Hs2);
      [| done |].
    { intros r Hr. apply Hheap. by exists g, grp. }
    destruct IH with (seen := seen ++ dict_values (items grp)) (s1 := s2)
      as (s3 & seen' & Hrest & Hs3 & Hseen'); [| done |].
    { intros g' Hg'. apply Hgs, elem_of_cons. by right. }
    exists s3, seen'. split_and!; [| done |].
    + assert (groups s1 !! g = Some grp) as Hgrp1.
      { destruct Hs1 as (-> & _). done. }
      assert (on_search_query g q s1 = (Ret tt, s2)) as Hq.
      { unfold on_search_query.
        by rewrite (bind_eval _ _ _ _ _ (read_group_eval _ _ _ Hgrp1)). }
      simpl. by rewrite (bind_eval _ _ _ _ _ Hq).
    + intros r. rewrite Hseen', elem_of_app. split.
      * intros [[?|Hr]|(g' & grp' & Hg' & Hgrp' & Hr)].
        -- by left.
        -- right. exists g, grp. split_and!; try done. apply elem_of_cons. by left.
        -- right. exists g', grp'. split_and!; try done. apply elem_of_cons. by right.
      * intros [?|(g' & grp' & [->|Hg']%elem_of_cons & Hgrp' & Hr)].
        -- left. by left.
        -- left. right. congruence.
        -- right. by exists g', grp'.
Qed.

Lemma wired_groups s g grp :
  wired s -> groups s !! g = Some grp -> g ∈ pane_groups (pane s).
Proof.
  intros (-> & _ & Hc & _) Hg.
  assert (g < 3) as Hlt.
  { apply lookup_lt_Some in Hg. by rewrite <- (length_fmap gclass), Hc in Hg. }
  destruct g as [|[|[|g]]]; [| | | lia].
  - apply elem_of_cons. by left.
  - apply elem_of_cons. right. apply elem_of_cons. by left.
  - apply elem_of_cons. right. apply elem_of_cons. right. apply elem_of_cons. by left.
Qed.

Lemma wired_pane_groups s g :
  wired s -> g ∈ pane_groups (pane s) -> is_Some (groups s !! g).
Proof.
  intros (-> & _ & Hc & _) Hg. apply lookup_lt_is_Some.
  rewrite <- (length_fmap gclass), Hc. simpl.
  repeat (apply elem_of_cons in Hg as [->|Hg]; [lia|]). by apply not_elem_of_nil in Hg.
Qed.

Lemma search_eval q s :
  wired s ->
  exists s' seen,
    pane_on_search_query q s = (Ret tt, s')
    /\ searched q seen s s'
    /\ forall r, r ∈ seen <-> displayed s r.
Proof.
  intros Hw.
  destruct (searched_groups q (pane_groups (pane s)) [] s s)
    as (s' & seen & Heq & Hs' & Hseen).
  - intros g. by apply wired_pane_groups.
  - intros r (g & grp & Hg & Hr). destruct Hw as (_ & _ & _ & H4). by apply (H4 g grp).
  - apply searched_refl.
  - exists s', seen. split_and!; [done | done |].
    intros r. rewrite Hseen. split.
    + intros [H|(g & grp & _ & Hg & Hr)]; [by apply not_elem_of_nil in H|].
      by exists g, grp.
    + intros (g & grp & Hg & Hr). right. exists g, grp. split_and!; try done.
      by apply (wired_groups s g grp).
Qed.

(** X10.  What a search does.  In every reachable store [on_search_query]
    returns; it shows the rows that some group lists in [items] and whose
    definition's display name has the query as a substring, hides the other
    listed rows, and leaves every row that no group lists as it was; of a
    row it changes nothing but the packing, and it changes neither the
    groups (a hidden row stays in [items]) nor the pool, the pane or the
    log. *)
Theorem search_shows_the_matching_rows editor_set s query :
  reachable editor_set s ->
  exists s',
    pane_on_search_query query s = (Ret tt, s')
    /\ groups s' = groups s /\ _pool s' = _pool s /\ pane s' = pane s /\ log s' = log s
    /\ length (heap s') = length (heap s)
    /\ (forall r row, heap s !! r = Some row ->
          (displayed s r -> heap s' !! r = Some (filter_row query row))
          /\ (~ displayed s r -> heap s' !! r = Some row))
    /\ (forall row,
          packed (filter_row query row) = true
          <-> exists pre post,
                d_display_name (definition row) = pre +:+ query +:+ post).
Proof.
  intros Hreach.
  destruct (search_eval query s (reachable_wired _ _ Hreach))
    as (s' & seen & Heq & (Hg & Hp & Hpa & Hl & Hlen & Hrows) & Hseen).
  exists s'. split_and!; try done.
  - intros r row Hrow. rewrite (Hrows _ _ Hrow). split; intros Hd.
    + by rewrite decide_True by by apply Hseen.
    + rewrite decide_False; [done|]. by rewrite Hseen.
  - intros row. apply contains_spec.
Qed.

Lemma search_shows_the_matching_rows_witness :
  exists s', pane_on_search_query "olo" shown = (Ret tt, s')
    /\ (packed <$> heap s' !! 2) = Some true
    /\ (packed <$> heap s' !! 0) = Some false.
Proof.
  assert (reachable accepting shown) as Hreach.
  { unfold shown. apply reachable_run. constructor. }
  destruct (search_shows_the_matching_rows accepting shown "olo" Hreach)
    as (s' & Heq & _ & _ & _ & _ & _ & Hrows & _).
  exists s'. split; [exact Heq|].
  assert (s' = (pane_on_search_query "olo" shown).2) as -> by by rewrite Heq.
  split; vm_compute; reflexivity.
Defined.

Lemma contains_empty t : contains "" t = true.
Proof. by destruct t. Qed.

(** X11.  Closing the search brings back every listed row.  In every
    reachable store [on_search_clear] returns, and afterwards every row that
    some group lists in [items] is packed; rows that no group lists are as
    they were, and groups and pool are unchanged. *)
Theorem search_clear_shows_every_listed_row editor_set s :
  reachable editor_set s ->
  exists s',
    pane_on_search_clear s = (Ret tt, s')
    /\ groups s' = groups s /\ _pool s' = _pool s
    /\ forall r row, heap s !! r = Some row ->
         (displayed s r -> heap s' !! r = Some (set_packed true row))
         /\ (~ displayed s r -> heap s' !! r = Some row).
Proof.
  intros Hreach.
  destruct (search_eval "" s (reachable_wired _ _ Hreach))
    as (s' & seen & Heq & (Hg & Hp & Hpa & Hl & Hlen & Hrows) & Hseen).
  exists s'. split_and!; try done.
  intros r row Hrow. rewrite (Hrows _ _ Hrow). split; intros Hd.
  - rewrite decide_True by by apply Hseen.
    unfold filter_row. by rewrite contains_empty.
  - rewrite decide_False; [done|]. by rewrite Hseen.
Qed.

Lemma search_clear_shows_every_listed_row_witness :
  exists s', pane_on_search_clear filtered = (Ret tt, s')
    /\ (packed <$> heap filtered !! 2) = Some false
    /\ (packed <$> heap s' !! 2) = Some true.
Proof.
  assert (reachable accepting filtered) as Hreach.
  { unfold filtered. apply reachable_run. constructor. }
  destruct (search_clear_shows_every_listed_row accepting filtered Hreach)
    as (s' & Heq & _).
  exists s'. split; [exact Heq|].
  assert (s' = (pane_on_search_clear filtered).2) as -> by by rewrite Heq.
  split; vm_compute; reflexivity.
Defined.

(** * Expanding and collapsing *)

Lemma wired_three_groups s :
  wired s -> exists g0 g1 g2, groups s = [g0; g1; g2].
Proof.
  intros (_ & _ & Hc & _).
  destruct (groups s) as [|g0 [|g1 [|g2 [|g3 gs]]]]; try done. by exists g0, g1, g2.
Qed.

Lemma fold_all_eval b s :
  wired s ->
  for_each (pane_groups (pane s)) (fun g => update_group g (set_collapsed b)) s
  = (Ret tt, set_groups (set_collapsed b <$> groups s) s).
Proof.
  intros Hw. destruct (wired_three_groups s Hw) as (g0 & g1 & g2 & Hgs).
  destruct Hw as (-> & _). simpl.
  unfold mbind, M_bind, update_group. simpl. rewrite Hgs. reflexivity.
Qed.

(** X12.  The header button.  In every reachable store [_toggle] returns;
    it flips [_expanded] and folds every group of the pane the same way:
    all expanded when the pane was not expanded, all collapsed when it was,
    whatever state the single groups were in.  Rows, pool and log are not
    touched.  Two clicks in a row restore [_expanded]. *)
Theorem toggle_folds_every_group editor_set s :
  reachable editor_set s ->
  let e := _expanded (pane s) in
  _toggle s
  = (Ret tt, set_pane (set_expanded (negb e) (pane s))
                      (set_groups (set_collapsed e <$> groups s) s))
  /\ (_toggle ;; _toggle) s
     = (Ret tt, set_groups (set_collapsed (negb e) <$> groups s) s).
Proof.
  intros Hreach e.
  assert (forall s0, wired s0 ->
            _toggle s0
            = (Ret tt, set_pane (set_expanded (negb (_expanded (pane s0))) (pane s0))
                         (set_groups (set_collapsed (_expanded (pane s0)) <$> groups s0) s0)))
    as Hone.
  { intros s0 Hw. unfold _toggle, mbind at 1, M_bind, get.
    destruct (_expanded (pane s0)) eqn:He; simpl.
    - unfold collapse_all, mbind at 1, M_bind, get.
      change collapse with (fun g => update_group g (set_collapsed true)).
      by rewrite (bind_eval _ _ _ _ _ (fold_all_eval true s0 Hw)).
    - unfold expand_all, mbind at 1, M_bind, get.
      change expand with (fun g => update_group g (set_collapsed false)).
      by rewrite (bind_eval _ _ _ _ _ (fold_all_eval false s0 Hw)). }
  pose proof (reachable_wired _ _ Hreach) as Hw.
  split; [by apply Hone|].
  rewrite (bind_eval _ _ _ _ _ (Hone s Hw)). fold e.
  assert (reachable editor_set
            (set_pane (set_expanded (negb e) (pane s))
                      (set_groups (set_collapsed e <$> groups s) s))) as Hreach'.
  { destruct e eqn:He.
    - assert (after editor_set CollapseAll s
              = set_pane (set_expanded (negb true) (pane s))
                         (set_groups (set_collapsed true <$> groups s) s)) as <-;
        [| by constructor].
      unfold after. simpl. unfold collapse_all, mbind at 1, M_bind, get.
      change collapse with (fun g => update_group g (set_collapsed true)).
      by rewrite (bind_eval _ _ _ _ _ (fold_all_eval true s Hw)).
    - assert (after editor_set ExpandAll s
              = set_pane (set_expanded (negb false) (pane s))
                         (set_groups (set_collapsed false <$> groups s) s)) as <-;
        [| by constructor].
      unfold after. simpl. unfold expand_all, mbind at 1, M_bind, get.
      change expand with (fun g => update_group g (set_collapsed false)).
      by rewrite (bind_eval _ _ _ _ _ (fold_all_eval false s Hw)). }
  rewrite (Hone _ (reachable_wired _ _ Hreach')). simpl. f_equal.
  rewrite negb_involutive. fold e.
  assert (set_expanded e (set_expanded (negb e) (pane s)) = pane s) as ->.
  { unfold e. by destruct (pane s). }
  rewrite <- list_fmap_compose. destruct s. simpl. f_equal.
Qed.

Lemma toggle_folds_every_group_witness :
  (collapsed <$> groups (_toggle shown).2) = [false; false; false]
  /\ _expanded (pane (_toggle shown).2) = true.
Proof.
  assert (reachable accepting shown) as Hreach.
  { unfold shown. apply reachable_run. constructor. }
  rewrite (proj1 (toggle_folds_every_group accepting shown Hreach)).
  split; vm_compute; reflexivity.
Defined.

(** X13.  [clear_all] takes the rows of the pane's groups off the screen
    and nothing else.  In every reachable store it returns; every row built
    under one of the three groups is un-packed, rows of other scopes are as
    they were; the groups still list the rows in [items], and the pool still
    files them. *)
Theorem clear_all_unpacks_the_groups_rows editor_set s :
  reachable editor_set s ->
  exists s',
    clear_all s = (Ret tt, s')
    /\ groups s' = groups s /\ _pool s' = _pool s
    /\ forall r row, heap s !! r = Some row ->
         heap s' !! r
         = Some (if decide (parent row < 3) then set_packed false row else row).
Proof.
  intros (Hgs & _)%reachable_wired.
  unfold clear_all, mbind at 1, M_bind, get. rewrite Hgs.
  eexists. split; [reflexivity|]. split_and!; try done.
  intros r row Hrow. simpl. rewrite !list_lookup_fmap, Hrow. simpl. f_equal.
  destruct row as [p ? ? ? ? ? ? ? ? ?]. simpl.
  destruct p as [|[|[|p]]]; simpl; try done.
Qed.

Lemma clear_all_unpacks_the_groups_rows_witness :
  exists s', clear_all shown = (Ret tt, s')
    /\ (packed <$> heap shown) = [true; true; true]
    /\ (packed <$> heap s') = [false; false; false]
    /\ (items <$> groups s') = (items <$> groups shown).
Proof.
  assert (reachable accepting shown) as Hreach.
  { unfold shown. apply reachable_run. constructor. }
  destruct (clear_all_unpacks_the_groups_rows accepting shown Hreach) as (s' & Heq & _).
  exists s'. split; [exact Heq|].
  assert (s' = (clear_all shown).2) as -> by by rewrite Heq.
  split_and!; vm_compute; reflexivity.
Defined.

(** * Rebuilding from the pool *)

Lemma dict_get_elem {A} k (v : A) d : dict_get k d = Some v -> (k, v) ∈ d.
Proof.
  induction d as [|[k' v'] d IH]; simpl; [done|].
  destruct (String.eqb k k') eqn:Hk.
  - apply String.eqb_eq in Hk as ->. intros [= ->]. apply elem_of_cons. by left.
  - intros H. apply elem_of_cons. right. by apply IH.
Qed.

Lemma preserves_ret_bind {A B} I (a : A) (f : A -> M B) :
  preserves I (f a) -> preserves I (mret a ≫= f).
Proof. intros H s Hs. exact (H s Hs). Qed.

Lemma preserves_raise_bind {A B} I e (f : A -> M B) :
  preserves I (raise e ≫= f).
Proof. intros s Hs. exact Hs. Qed.

(** X14.  A rebuild takes every row it can from the pool.  When each
    definition of the new widget has a row on offer (filed under the group
    and its name, and available), the rebuild builds no row and files none:
    the store has the rows it had and the pool is unchanged, whether the
    rebuild returns or an editor raises on the way. *)
Theorem rebuild_builds_nothing_when_rows_are_on_offer editor_set s g defs :
  (forall k d, (k, d) ∈ defs -> exists r, on_offer g (d_name d) r s) ->
  length (heap (rebuild editor_set g (Some defs) s).2) = length (heap s)
  /\ _pool (rebuild editor_set g (Some defs) s).2 = _pool s.
Proof.
  intros Hoffer.
  set (J := fun s0 : State =>
              (forall k d, (k, d) ∈ defs -> exists r, on_offer g (d_name d) r s0)
              /\ length (heap s0) = length (heap s) /\ _pool s0 = _pool s).
  assert (forall r f, row_frame f -> preserves J (update_row r f)) as Hrow.
  { intros r f Hf s0 (Hoff & Hlen & Hp). split_and!.
    - intros k d Hd. destruct (Hoff k d Hd) as [r0 Hr0]. exists r0.
      apply on_offer_update_row; [| done]. right. intros row.
      by destruct (Hf row) as (_ & -> & _).
    - rewrite update_row_post. destruct (heap s0 !! r); [| done].
      simpl. by rewrite length_insert.
    - by rewrite update_row_pool. }
  assert (forall g0 f, preserves J (update_group g0 f)) as Hgroup.
  { intros g0 f s0 (Hoff & Hlen & Hp). split_and!.
    - intros k d Hd. destruct (Hoff k d Hd) as [r0 Hr0]. exists r0.
      by apply on_offer_update_group.
    - rewrite update_group_post. by destruct (groups s0 !! g0).
    - by rewrite update_group_pool. }
  assert (preserves J (clear_children g)) as Hclear.
  { intros s0 (Hoff & Hlen & Hp). split_and!; [| | done].
    - intros k d Hd. destruct (Hoff k d Hd) as [r0 Hr0]. exists r0.
      by apply on_offer_clear_children.
    - simpl. by rewrite length_fmap. }
  assert (forall k d cb, (k, d) ∈ defs -> preserves J (acquire editor_set g d cb)) as Hacq.
  { intros k d cb Hd s0 HJ. destruct (proj1 HJ k d Hd) as [r0 Hr0].
    unfold acquire. rewrite (bind_eval _ _ _ _ _ (pooled_hit g _ r0 d s0 eq_refl Hr0)).
    by apply re_purposed_preserves. }
  assert (J s) as HJ by done.
  assert (preserves J (rebuild editor_set g (Some defs))) as Hrebuild.
  { unfold rebuild, iter.
    apply preserves_bind; [done | intros _].
    apply preserves_bind; [done | intros _].
    apply preserves_ret_bind.
    apply preserves_for_each. intros p. unfold subscript.
    destruct (dict_get p defs) as [d|] eqn:Hd; [| apply preserves_raise_bind].
    apply preserves_ret_bind.
    apply preserves_bind; [by apply (Hacq p), dict_get_elem | intros item].
    unfold add, _show, pack. preserve. }
  exact (proj2 (Hrebuild s HJ)).
Qed.

Lemma rebuild_builds_nothing_when_rows_are_on_offer_witness :
  length (heap (rebuild accepting 2 (Some [("color", colour_blue)]) selected).2)
  = length (heap selected)
  /\ _pool (rebuild accepting 2 (Some [("color", colour_blue)]) selected).2
     = _pool selected.
Proof.
  apply (rebuild_builds_nothing_when_rows_are_on_offer accepting selected 2
           [("color", colour_blue)]).
  intros k d [[= -> ->]|H]%elem_of_cons; [| by apply not_elem_of_nil in H].
  exists 2. split; [vm_compute; reflexivity|].
  eexists. split; vm_compute; reflexivity.
Defined.

(** * Refreshing a key that is not listed *)

Lemma dict_get_app_l {A} k (d1 d2 : list (string * A)) :
  k ∈ dict_keys d1 ->
  exists v, dict_get k (d1 ++ d2) = Some v /\ (k, v) ∈ d1.
Proof.
  unfold dict_keys. induction d1 as [|[k' v'] d1 IH]; simpl.
  - intros H. by apply not_elem_of_nil in H.
  - intros Hin. destruct (String.eqb k k') eqn:Hk.
    + apply String.eqb_eq in Hk as ->. exists v'. split; [done|].
      apply elem_of_cons. by left.
    + apply elem_of_cons in Hin as [->|Hin]; [by rewrite String.eqb_refl in Hk|].
      destruct (IH Hin) as (v & Hv & Hel). exists v. split; [done|].
      apply elem_of_cons. by right.
Qed.

Lemma dict_get_values {A} k (v : A) d : dict_get k d = Some v -> v ∈ dict_values d.
Proof.
  intros H%dict_get_elem. unfold dict_values.
  apply list_elem_of_fmap. by exists (k, v).
Qed.

Section RefreshFacts.

Variable editor_set : Value -> option Exn.
Variables (s : State) (g : Scope) (grp : Group).
Variables (pre post : Definitions) (k : string) (d : StyleDef).

Hypothesis H_group : groups s !! g = Some grp.
Hypothesis H_listed : forall k', k' ∈ dict_keys pre ->
  exists r, dict_get k' (items grp) = Some r /\ r < length (heap s).
Hypothesis H_editor : forall k' d', (k', d') ∈ pre -> editor_set (d_value d') = None.
Hypothesis H_missing : dict_get k (items grp) = None.

(** The loop of the refresh, from any of the keys before [k] on. *)
Lemma refresh_loop_raises ks rest s1 :
  (forall k', k' ∈ ks -> k' ∈ dict_keys pre) ->
  groups s1 = groups s -> length (heap s1) = length (heap s) ->
  exists s2,
    for_each (ks ++ k :: rest) (fun prop =>
      grp ← read_group g;
      item ← subscript (items grp) prop;
      d ← subscript (pre ++ (k, d) :: post) prop;
      _re_purposed editor_set item d None ;;
      mret tt) s1
    = (Raise (KeyError k), s2)
    /\ groups s2 = groups s.
Proof using All.
  revert s1. induction ks as [|k' ks IH]; intros s1 Hks Hg Hlen; simpl.
  - exists s1. split; [| done].
    assert (groups s1 !! g = Some grp) as Hg1 by by rewrite Hg.
    unfold mbind at 1, M_bind.
    rewrite (bind_eval _ _ _ _ _ (read_group_eval _ _ _ Hg1)).
    unfold subscript. by rewrite H_missing.
  - assert (k' ∈ dict_keys pre) as Hk' by (apply Hks, elem_of_cons; by left).
    destruct (H_listed k' Hk') as (r & Hr & Hlt).
    destruct (dict_get_app_l k' pre ((k, d) :: post) Hk') as (d' & Hd' & Hel).
    assert (exists row, heap s1 !! r = Some row) as [row Hrow].
    { apply lookup_lt_is_Some. by rewrite Hlen. }
    destruct (IH (with_row r (rebound d' None row) s1)) as (s2 & Hrest & Hg2).
    + intros k0 Hk0. apply Hks, elem_of_cons. by right.
    + done.
    + simpl. by rewrite length_insert.
    + exists s2. split; [| done].
      assert (groups s1 !! g = Some grp) as Hg1 by by rewrite Hg.
      unfold mbind at 1, M_bind.
      rewrite (bind_eval _ _ _ _ _ (read_group_eval _ _ _ Hg1)).
      unfold subscript. rewrite Hr, Hd'.
      unfold mbind at 1 2, M_bind, mret at 1 2, M_ret.
      rewrite (bind_eval _ _ _ _ _
                 (eq_trans (re_purposed_eval editor_set r d' None row s1 Hrow)
                           ltac:(by rewrite (H_editor k' d' Hel)))).
      exact Hrest.
Qed.

End RefreshFacts.

(** X15.  A refresh cannot take a key the group does not list.  An
    initialized Identity group refreshes in place whatever the new widget
    is; when the widget's [identity] has a key that is not in [items], the
    update rebinds the rows of the keys before it and then raises
    [KeyError] for that key.  The group is left holding the new widget as
    [_widget] while [_prev_widget] and [items] are those of the old one. *)
Theorem identity_refresh_raises_on_an_unlisted_key editor_set s g grp w pre k d post :
  reachable editor_set s ->
  groups s !! g = Some grp ->
  gclass grp = IdentityGroup ->
  _has_initialized grp = true ->
  identity w = Some (pre ++ (k, d) :: post) ->
  (forall k', k' ∈ dict_keys pre -> is_Some (dict_get k' (items grp))) ->
  (forall k' d', (k', d') ∈ pre -> editor_set (d_value d') = None) ->
  dict_get k (items grp) = None ->
  exists s',
    on_widget_change editor_set g (Some w) s = (Raise (KeyError k), s')
    /\ groups s' = <[g := set_widget (Some w) grp]> (groups s).
Proof.
  intros Hreach Hg Hc Hinit Hid Hlisted Heditor Hmissing.
  pose proof (reachable_wired _ _ Hreach) as (_ & _ & _ & Hheap).
  set (s1 := set_groups (<[g := set_widget (Some w) grp]> (groups s)) s).
  assert (groups s1 !! g = Some (set_widget (Some w) grp)) as Hg1
    by by apply lookup_set_widget.
  destruct (refresh_loop_raises editor_set s1 g (set_widget (Some w) grp)
              pre post k d Hg1) with (ks := dict_keys pre) (rest := dict_keys post) (s1 := s1)
    as (s' & Hloop & Hgs'); try done.
  { intros k' Hk'. destruct (Hlisted k' Hk') as [r Hr]. exists r. split; [done|].
    apply (Hheap g grp r Hg). by eapply dict_get_values. }
  exists s'. split; [| done].
  unfold on_widget_change.
  rewrite (bind_eval _ _ _ _ _ (read_group_eval _ _ _ Hg)), Hc.
  unfold StyleGroup_on_widget_change.
  rewrite (bind_eval _ _ _ _ _ (update_group_eval _ _ _ _ Hg)). fold s1.
  assert (get_definition g s1 = (Ret (Some (pre ++ (k, d) :: post)), s1)) as Hdefs.
  { unfold get_definition. rewrite (bind_eval _ _ _ _ _ (read_group_eval _ _ _ Hg1)).
    simpl. by rewrite Hc, Hid. }
  rewrite (bind_eval _ _ _ _ _ Hdefs).
  pose proof (can_optimize_eval s g grp w (reachable_init_inv _ _ Hreach) Hg) as Hopt.
  simpl in Hopt. fold s1 in Hopt. unfold refreshes_in_place in Hopt.
  rewrite Hc, Hinit in Hopt.
  rewrite (bind_eval _ _ _ _ _ Hopt).
  apply bind_raise. unfold refresh, iter.
  change (for_each (dict_keys (pre ++ (k, d) :: post))
            (fun prop =>
               grp ← read_group g;
               item ← subscript (items grp) prop;
               d ← subscript (pre ++ (k, d) :: post) prop;
               _re_purposed editor_set item d None ;;
               mret tt) s1
          = (Raise (KeyError k), s')).
  unfold dict_keys in *. by rewrite fmap_app.
Qed.

Lemma identity_refresh_raises_on_an_unlisted_key_witness :
  exists s',
    on_widget_change accepting 0
      (Some (mkWidget 9 "Label"
               (Some [("id", mkDef "id" "ID" (VStr "label_1"));
                      ("class", mkDef "class" "Class" (VStr "Label"))])
               None strict_layout (fun _ _ => None)))
      selected
    = (Raise (KeyError "class"), s').
Proof.
  assert (reachable accepting selected) as Hreach by (constructor; constructor).
  assert (exists grp, groups selected !! 0 = Some grp /\ gclass grp = IdentityGroup
                      /\ _has_initialized grp = true
                      /\ dict_get "id" (items grp) = Some 0
                      /\ dict_get "class" (items grp) = None)
    as (grp & Hg & Hc & Hi & Hid & Hclass)
    by (eexists; split_and!; vm_compute; reflexivity).
  destruct (identity_refresh_raises_on_an_unlisted_key accepting selected 0 grp
              (mkWidget 9 "Label"
                 (Some [("id", mkDef "id" "ID" (VStr "label_1"));
                        ("class", mkDef "class" "Class" (VStr "Label"))])
                 None strict_layout (fun _ _ => None))
              [("id", mkDef "id" "ID" (VStr "label_1"))] "class"
              (mkDef "class" "Class" (VStr "Label")) [] Hreach Hg Hc Hi eq_refl)
    as (s' & Heq & _).
  - intros k' Hk'. change (k' ∈ ["id"]) in Hk'.
    apply elem_of_cons in Hk'. destruct Hk' as [Hk'|H]; [| destruct (not_elem_of_nil _ H)].
    rewrite Hk'. exists 0. exact Hid.
  - intros k' d' _. reflexivity.
  - exact Hclass.
  - exists s'. exact Heq.
Defined.

(** * Listing and unlisting a row *)

Lemma dict_pop_set {A} k (v : A) d : dict_pop k (dict_set k v d) = dict_pop k d.
Proof.
  induction d as [|[k' v'] d IH]; simpl.
  - by rewrite String.eqb_refl.
  - destruct (String.eqb k k') eqn:Hk; simpl.
    + by rewrite String.eqb_refl.
    + by rewrite Hk, IH.
Qed.

Lemma dict_pop_absent {A} k (d : list (string * A)) : dict_get k d = None -> dict_pop k d = d.
Proof.
  induction d as [|[k' v'] d IH]; simpl; [done|].
  destruct (String.eqb k k'); [done|]. intros H. by rewrite IH.
Qed.

(** X16.  [add] followed by [remove] of the same row.  The pair returns
    and leaves the row un-packed and unlisted.  When the row's name was not
    in [items], [items] is what it was; when another row was listed under
    that name, that row has been dropped from [items] too, although nothing
    has hidden it: [remove] pops by name, not by row. *)
Theorem add_then_remove_unlists_the_name s g grp r row :
  groups s !! g = Some grp ->
  heap s !! r = Some row ->
  (add g r ;; remove g r) s
  = (Ret tt,
     set_heap (<[r := set_packed false row]> (heap s))
       (set_groups (<[g := set_items (dict_pop (name row) (items grp)) grp]> (groups s)) s))
  /\ (dict_get (name row) (items grp) = None ->
      dict_pop (name row) (items grp) = items grp)
  /\ (forall r0, dict_get (name row) (items grp) = Some r0 ->
      dict_pop (name row) (items grp) <> items grp).
Proof.
  intros Hg Hrow. split_and!.
  - assert (add g r s
            = (Ret tt,
               set_heap (<[r := set_packed true row]> (heap s))
                 (set_groups (<[g := set_items (dict_set (name row) r (items grp)) grp]>
                                (groups s)) s))) as Hadd.
    { unfold add, read_row, mbind at 1, M_bind. rewrite Hrow.
      rewrite (bind_eval _ _ _ _ _ (update_group_eval _ _ _ _ Hg)).
      unfold _show, pack, update_row. simpl. by rewrite Hrow. }
    rewrite (bind_eval _ _ _ _ _ Hadd).
    unfold remove, read_row, mbind at 1, M_bind. simpl.
    rewrite list_lookup_insert_eq by (by eapply lookup_lt_Some).
    unfold mbind, M_bind, update_group. simpl.
    rewrite list_lookup_insert_eq by (by eapply lookup_lt_Some).
    unfold _hide, pack_forget, update_row. simpl.
    rewrite list_lookup_insert_eq by (by eapply lookup_lt_Some).
    unfold set_heap, set_groups. simpl.
    by rewrite !list_insert_insert_eq, dict_pop_set.
  - apply dict_pop_absent.
  - intros r0 Hr0 Heq.
    assert (length (dict_pop (name row) (items grp)) < length (items grp)) as Hlen;
      [| rewrite Heq in Hlen; lia].
    clear Heq. revert Hr0. generalize (items grp). intros its.
    induction its as [|[k' v'] its IH]; simpl; [done|].
    destruct (String.eqb (name row) k'); simpl; [lia|].
    intros H. specialize (IH H). lia.
Qed.

Lemma add_then_remove_unlists_the_name_witness :
  exists grp row,
    groups selected !! 2 = Some grp /\ heap selected !! 2 = Some row
    /\ (items <$> groups ((add 2 2 ;; remove 2 2) selected).2 !! 2) = Some [].
Proof.
  assert (exists grp, groups selected !! 2 = Some grp) as [grp Hg]
    by (eexists; vm_compute; reflexivity).
  assert (exists row, heap selected !! 2 = Some row) as [row Hrow]
    by (eexists; vm_compute; reflexivity).
  exists grp, row. split; [exact Hg|]. split; [exact Hrow|].
  rewrite (proj1 (add_then_remove_unlists_the_name selected 2 grp 2 row Hg Hrow)).
  vm_compute in Hg, Hrow. injection Hg as <-. injection Hrow as <-.
  vm_compute. reflexivity.
Defined.

(** * What a selection change leaves alone *)

Section Locality.

Variable editor_set : Value -> option Exn.
Variables (s : State) (g : Scope).

(** Nothing outside group [g] and its scope of the pool differs from [s]
    (rows apart). *)
Lemma local_preserved w :
  let J := fun s0 : State =>
             pane s0 = pane s /\ log s0 = log s
             /\ (forall g', g' <> g -> groups s0 !! g' = groups s !! g')
             /\ (forall p, p <> g -> _pool s0 !! p = _pool s !! p) in
  preserves J (on_widget_change editor_set g w).
Proof.
  intros J.
  assert (forall s1 s2, pane s2 = pane s1 -> log s2 = log s1 -> groups s2 = groups s1 ->
                        _pool s2 = _pool s1 -> J s1 -> J s2) as Hext.
  { unfold J. intros s1 s2 -> -> -> ->. done. }
  assert (forall r f, preserves J (update_row r f)) as Hrow.
  { intros r f s0 Hs0. rewrite update_row_post.
    destruct (heap s0 !! r); [| done]. by apply (Hext s0). }
  assert (preserves J (clear_children g)) as Hclear.
  { intros s0 Hs0. by apply (Hext s0). }
  assert (forall f, preserves J (update_group g f)) as Hgroup.
  { intros f s0 (Hp & Hl & Hgs & Hpool). rewrite update_group_post.
    destruct (groups s0 !! g); [| done]. split_and!; try done.
    intros g' Hne. simpl. rewrite list_lookup_insert_ne by done. by apply Hgs. }
  assert (forall d cb, preserves J (ReusableStyleItem g d cb)) as Hnew.
  { intros d cb s0 (Hp & Hl & Hgs & Hpool). split_and!; try done.
    intros p Hne. simpl. rewrite lookup_insert_ne by done. by apply Hpool. }
  assert (forall item d cb, preserves J (_re_purposed editor_set item d cb)) as Hre.
  { intros item d cb. apply re_purposed_preserves. intros r f _. apply Hrow. }
  assert (forall d cb, preserves J (acquire editor_set g d cb)) as Hacq.
  { intros d cb. unfold acquire. apply preserves_bind.
    - unfold pooled. apply preserves_bind; [apply preserves_get | intros s0]. preserve.
    - intros [item|]; [apply Hre | apply Hnew]. }
  assert (preserves J (StyleGroup_on_widget_change editor_set g w)) as Hstyle.
  { pose proof (get_definition_preserves J g). pose proof (can_optimize_preserves J g).
    unfold StyleGroup_on_widget_change, collapse, refresh, rebuild, add, _show, pack.
    preserve. }
  unfold on_widget_change, LayoutGroup_on_widget_change. preserve.
Qed.

End Locality.

(** X17.  A group's update is its own business.  Whatever
    [on_widget_change] does on group [g], and whether it returns or raises,
    it changes no other group, files nothing under another scope of the
    pool, and leaves the pane and the log as they were. *)
Theorem group_change_is_local editor_set s g w :
  let s' := (on_widget_change editor_set g w s).2 in
  pane s' = pane s /\ log s' = log s
  /\ (forall g', g' <> g -> groups s' !! g' = groups s !! g')
  /\ (forall p, p <> g -> _pool s' !! p = _pool s !! p).
Proof. apply (local_preserved editor_set s g w s). done. Qed.

(** X18.  A failed selection leaves the pane loading.  When the update of
    some group raises, [styles_for] raises with it and never reaches
    [remove_empty]: the pane keeps the widget as [_current] and the
    placeholder stays up with the text "Loading...". *)
Theorem failed_selection_leaves_the_pane_loading editor_set s w e s' :
  styles_for editor_set (Some w) s = (Raise e, s') ->
  pane s' = pane (loading w s)
  /\ _current (pane s') = Some w
  /\ _empty_frame (pane s') = mkEmptyFrame true (Some "Loading...").
Proof.
  intros H.
  assert (styles_for editor_set (Some w) s
          = (for_each (pane_groups (pane s))
                      (fun g => on_widget_change editor_set g (Some w)) ;;
             remove_empty) (loading w s)) as Heq by reflexivity.
  rewrite Heq in H. apply bind_Raise_inv in H as [H|([] & s1 & _ & H)]; [| done].
  assert (pane s' = pane (loading w s)) as Hp; [| by rewrite Hp].
  assert (preserves (fun s0 => pane s0 = pane (loading w s))
            (for_each (pane_groups (pane s))
                      (fun g => on_widget_change editor_set g (Some w)))) as Hloop.
  { apply preserves_for_each. intros g s0 Hs0.
    destruct (local_preserved editor_set s0 g (Some w) s0) as (Hpane & _); [done|].
    by rewrite Hpane. }
  specialize (Hloop (loading w s) eq_refl). by rewrite H in Hloop.
Qed.

Lemma failed_selection_leaves_the_pane_loading_witness :
  exists s',
    styles_for accepting (Some anonymous) init = (Raise not_iterable, s')
    /\ _empty_frame (pane s') = mkEmptyFrame true (Some "Loading...").
Proof.
  assert (exists s', styles_for accepting (Some anonymous) init = (Raise not_iterable, s'))
    as [s' Heq] by (eexists; vm_compute; reflexivity).
  exists s'. split; [exact Heq|].
  exact (proj2 (proj2 (failed_selection_leaves_the_pane_loading
                         accepting init anonymous not_iterable s' Heq))).
Defined.

(** * Rows the pool has lost *)

Lemma displaced_ext scope key r pools pools' :
  (forall p k, pool_at pools' p k = pool_at pools p k) ->
  displaced scope key r pools -> displaced scope key r pools'.
Proof.
  intros Heq [Hsince Hno]. split.
  - by apply (pool_holds_since_ext _ _ _ pools).
  - intros p k. rewrite Heq. apply Hno.
Qed.

Lemma displaced_construct scope key r s (p : nat) nm :
  pool_inv s -> displaced scope key r (_pool s) ->
  displaced scope key r
    (<[p := <[inl nm := length (heap s)]> (default ∅ (_pool s !! p))]> (_pool s)).
Proof.
  intros Hinv [Hsince Hno]. split; [by apply pool_holds_since_construct|].
  assert (r < length (heap s)) as Hlt.
  { destruct Hsince as (r' & Hr' & Hle). apply (pool_at_bound _ _ _ _ Hinv) in Hr'. lia. }
  intros p0 k0. rewrite pool_at_insert_scope.
  destruct (decide (p = p0)) as [<-|Hne]; [| apply Hno].
  destruct (decide (k0 = inl nm)) as [->|Hk].
  - rewrite lookup_insert_eq. intros [= Heq]. lia.
  - rewrite lookup_insert_ne by done. rewrite pool_at_default. apply Hno.
Qed.

(** X19.  A row that was on screen when its key was asked for again is
    lost to the pool for good.  In a reachable store, when [pool[scope][key]]
    holds a row that is not available, [acquire] builds a new row and files
    it in its place; from then on, whatever operations run, no entry of the
    pool holds the displaced row: it is never handed out again. *)
Theorem displaced_row_is_never_filed_again editor_set s scope d cb r ops :
  reachable editor_set s ->
  pool_row s scope (d_name d) = Some r ->
  ~ available s r ->
  let s1 := after editor_set (Acquire scope d cb) s in
  pool_row s1 scope (d_name d) = Some (length (heap s))
  /\ r < length (heap s)
  /\ ~ in_pool (run editor_set ops s1) r.
Proof.
  intros Hreach Hr Hnav s1.
  pose proof (reachable_pool_inv _ _ Hreach) as Hinv.
  assert (pool_injective (_pool s)) as Hinj.
  { apply (reachable_pool_shaped editor_set pool_injective s
             pool_injective_ext pool_injective_construct); [| done].
    intros ? ? ? ? ? H. unfold pool_at in H. by rewrite lookup_empty in H. }
  assert (r < length (heap s)) as Hlt by by apply (pool_at_bound s scope (inl (d_name d))).
  assert (s1 = (ReusableStyleItem scope d cb s).2) as Hs1.
  { unfold s1, after. simpl. unfold mbind, M_bind.
    rewrite (acquire_construct editor_set s scope d cb Hinv); [done|].
    intros r0 Hr0. rewrite Hr in Hr0. by injection Hr0 as <-. }
  assert (pool_row s1 scope (d_name d) = Some (length (heap s))) as Hnew.
  { rewrite Hs1. apply pool_row_construct. }
  split; [exact Hnew|]. split; [exact Hlt|].
  assert (pool_shaped (displaced scope (d_name d) r) s1) as Hshape.
  { split.
    - rewrite Hs1. by apply pool_inv_construct.
    - split; [exists (length (heap s)); split; [exact Hnew | lia]|].
      intros p k. rewrite Hs1. simpl. rewrite pool_at_insert_scope.
      destruct (decide (scope = p)) as [<-|Hne].
      + destruct (decide (k = inl (d_name d))) as [->|Hk].
        * rewrite lookup_insert_eq. intros [= Heq]. lia.
        * rewrite lookup_insert_ne by done. rewrite pool_at_default. intros Hk'.
          destruct (Hinj scope k scope (inl (d_name d)) r Hk' Hr) as [_ ?]. done.
      + intros Hp. destruct (Hinj p k scope (inl (d_name d)) r Hp Hr) as [? _]. done. }
  apply (shaped_run editor_set _ (displaced_ext scope (d_name d) r)
           (displaced_construct scope (d_name d) r) ops) in Hshape.
  destruct Hshape as [_ [_ Hno]].
  intros (p & pool & k & Hp & Hk). apply (Hno p k). unfold pool_at. by rewrite Hp.
Qed.

Lemma displaced_row_is_never_filed_again_witness :
  pool_row (after accepting (Acquire 2 colour_blue None) shown) 2 "color" = Some 3
  /\ ~ in_pool (run accepting [UnmapEvent 2; Select (Some button)]
                    (after accepting (Acquire 2 colour_blue None) shown)) 2.
Proof.
  assert (reachable accepting shown) as Hreach.
  { unfold shown. apply reachable_run. constructor. }
  assert (pool_row shown 2 (d_name colour_blue) = Some 2) as Hp by (vm_compute; reflexivity).
  assert (~ available shown 2) as Hnav.
  { intros (row & Hrow & Hav). vm_compute in Hrow. injection Hrow as <-. discriminate Hav. }
  destruct (displaced_row_is_never_filed_again accepting shown 2 colour_blue None 2
              [UnmapEvent 2; Select (Some button)] Hreach Hp Hnav) as (Hnew & _ & Hno).
  split; [exact Hnew | exact Hno].
Defined.

(** * What a rebuild builds *)

Lemma dict_get_set_eq {A} k (v : A) d : dict_get k (dict_set k v d) = Some v.
Proof.
  induction d as [|[k' v'] d IH]; simpl.
  - by rewrite String.eqb_refl.
  - destruct (String.eqb k k') eqn:Hk; simpl; [by rewrite String.eqb_refl | by rewrite Hk].
Qed.

Lemma dict_get_set_ne {A} k k0 (v : A) d :
  k0 <> k -> dict_get k0 (dict_set k v d) = dict_get k0 d.
Proof.
  intros Hne. induction d as [|[k' v'] d IH]; simpl.
  - destruct (String.eqb k0 k) eqn:Hk; [by apply String.eqb_eq in Hk | done].
  - destruct (String.eqb k k') eqn:Hk; simpl.
    + apply String.eqb_eq in Hk as <-.
      destruct (String.eqb k0 k) eqn:Hk0; [by apply String.eqb_eq in Hk0 | done].
    + by rewrite IH.
Qed.

Lemma dict_keys_set_fresh {A} k (v : A) d :
  k ∉ dict_keys d -> dict_keys (dict_set k v d) = dict_keys d ++ [k].
Proof.
  unfold dict_keys. induction d as [|[k' v'] d IH]; simpl; [done|].
  intros [Hne Hnin]%not_elem_of_cons.
  destruct (String.eqb k k') eqn:Hk; [by apply String.eqb_eq in Hk|].
  simpl. f_equal. by apply IH.
Qed.

Lemma dict_get_NoDup {A} k (v : A) d :
  NoDup (dict_keys d) -> (k, v) ∈ d -> dict_get k d = Some v.
Proof.
  unfold dict_keys. induction d as [|[k' v'] d IH]; simpl.
  - intros _ H. by apply not_elem_of_nil in H.
  - intros [Hnin Hnd]%NoDup_cons [[= -> ->]|Hin]%elem_of_cons.
    + by rewrite String.eqb_refl.
    + destruct (String.eqb k k') eqn:Hk; [| by apply IH].
      apply String.eqb_eq in Hk as ->. destruct Hnin.
      apply list_elem_of_fmap. by exists (k', v).
Qed.

Section RebuildFacts.

Variable editor_set : Value -> option Exn.
Variable g : Scope.

(** What [acquire] hands to a group: a row of the group, filed under the
    definition's name and bound to the definition; the rows filed under the
    group's other names are not touched. *)
Lemma acquire_binds s d cb :
  pool_shaped pool_injective s ->
  editor_set (d_value d) = None ->
  exists r row' s',
    acquire editor_set g d (Some cb) s = (Ret r, s')
    /\ pool_shaped pool_injective s'
    /\ groups s' = groups s
    /\ pool_row s' g (d_name d) = Some r
    /\ heap s' !! r = Some row'
    /\ parent row' = g /\ name row' = d_name d /\ editor_value row' = d_value d
    /\ label_text row' = d_display_name d /\ _on_change row' = Some cb
    /\ forall key r0, key <> d_name d -> pool_row s g key = Some r0 ->
         pool_row s' g key = Some r0 /\ r0 <> r /\ heap s' !! r0 = heap s !! r0.
Proof.
  intros Hshape Hed.
  pose proof (shaped_acquire editor_set pool_injective pool_injective_construct
                g d (Some cb) s Hshape) as Hshape'.
  destruct Hshape as [Hinv Hinj].
  rewrite (acquire_eval editor_set s g d (Some cb) Hinv) in *.
  destruct (reusable s g (d_name d)) as [r|] eqn:Hre.
  - apply reusable_Some in Hre as [Hp _].
    destruct (pool_row_parent s g (d_name d) r Hinv Hp) as (row & Hrow & Hpar).
    rewrite (re_purposed_eval editor_set r d (Some cb) row s Hrow), Hed in *.
    exists r, (rebound d (Some cb) row), (with_row r (rebound d (Some cb) row) s).
    split_and!; try done.
    + simpl. apply list_lookup_insert_eq. by eapply lookup_lt_Some.
    + intros key r0 Hkey Hr0. split; [done|].
      assert (r0 <> r) as Hne.
      { intros ->. destruct (Hinj g (inl key) g (inl (d_name d)) r Hr0 Hp) as [_ [= ?]].
        done. }
      split; [done|]. simpl. by rewrite list_lookup_insert_ne.
  - exists (length (heap s)),
           (mkRow g (d_name d) d (d_value d) (d_display_name d) (Some cb)
                  true false false false),
           (ReusableStyleItem g d (Some cb) s).2.
    split_and!; try done.
    + apply pool_row_construct.
    + simpl. rewrite lookup_app_r, Nat.sub_diag by done. done.
    + intros key r0 Hkey Hr0.
      assert (r0 < length (heap s)) as Hlt
        by by apply (pool_at_bound s g (inl key)).
      split_and!.
      * unfold pool_row in *. simpl. rewrite lookup_insert_eq. simpl.
        rewrite lookup_insert_ne by congruence.
        destruct (_pool s !! g); [done|]. by simpl in Hr0.
      * lia.
      * simpl. by rewrite lookup_app_l.
Qed.

(** One definition more. *)
Lemma rebuild_step ds d s :
  pool_shaped pool_injective s ->
  lists_rows_for g ds s ->
  d_name d ∉ (d_name <$> ds) ->
  editor_set (d_value d) = None ->
  exists s',
    (item ← acquire editor_set g d (Some (BoundApply g)); add g item) s = (Ret tt, s')
    /\ pool_shaped pool_injective s'
    /\ lists_rows_for g (ds ++ [d]) s'.
Proof.
  intros Hshape (grp & Hg & Hkeys & Hrows) Hfresh Hed.
  destruct (acquire_binds s d (BoundApply g) Hshape Hed)
    as (r & row' & s1 & Hacq & Hshape1 & Hgs1 & Hp1 & Hrow1 & Hpar & Hname & Hval & Hlab
        & Hcb & Hothers).
  assert (groups s1 !! g = Some grp) as Hg1 by by rewrite Hgs1.
  set (grp' := set_items (dict_set (d_name d) r (items grp)) grp).
  set (s' := set_heap (<[r := set_packed true row']> (heap s1))
               (set_groups (<[g := grp']> (groups s1)) s1)).
  assert (add g r s1 = (Ret tt, s')) as Hadd.
  { unfold add, read_row, mbind at 1, M_bind. rewrite Hrow1.
    rewrite (bind_eval _ _ _ _ _ (update_group_eval _ _ _ _ Hg1)).
    unfold _show, pack, update_row. simpl. rewrite Hrow1, Hname. done. }
  exists s'. split; [by rewrite (bind_eval _ _ _ _ _ Hacq)|].
  assert (pool_shaped pool_injective s') as Hshape'.
  { assert (preserves (pool_shaped pool_injective) (add g r)) as Hadd'.
    { unfold add, _show, pack. apply preserves_bind; [apply preserves_read_row | intros row0].
      apply preserves_bind; [apply shaped_update_group | intros _].
      by apply shaped_update_row. }
    specialize (Hadd' s1 Hshape1). by rewrite Hadd in Hadd'. }
  split; [exact Hshape'|].
  exists grp'. split_and!.
  - simpl. apply list_lookup_insert_eq. by eapply lookup_lt_Some.
  - simpl. rewrite dict_keys_set_fresh by by rewrite Hkeys.
    by rewrite Hkeys, fmap_app.
  - intros d0 [Hd0|Hd0]%elem_of_app.
    + assert (d_name d0 <> d_name d) as Hne.
      { intros Heq. apply Hfresh. rewrite <- Heq.
        apply list_elem_of_fmap. by exists d0. }
      destruct (Hrows d0 Hd0) as (r0 & row0 & Hget & Hp0 & Hrow0 & Hshows).
      destruct (Hothers (d_name d0) r0 Hne Hp0) as (Hp0' & Hr0 & Hheap0).
      exists r0, row0. split_and!; try done.
      * simpl. by rewrite dict_get_set_ne.
      * simpl. rewrite list_lookup_insert_ne by done. by rewrite Hheap0.
    + apply elem_of_cons in Hd0 as [->|Hd0]; [| by apply not_elem_of_nil in Hd0].
      exists r, (set_packed true row'). split_and!; try done.
      * simpl. apply dict_get_set_eq.
      * simpl. apply list_lookup_insert_eq. by eapply lookup_lt_Some.
Qed.

(** The loop of the rebuild over the definitions still to do. *)
Lemma rebuild_loop defs todo ds s :
  (forall k d, (k, d) ∈ todo -> dict_get k defs = Some d /\ editor_set (d_value d) = None) ->
  NoDup (d_name <$> (ds ++ dict_values todo)) ->
  pool_shaped pool_injective s ->
  lists_rows_for g ds s ->
  exists s',
    for_each (dict_keys todo) (fun p =>
      d ← subscript defs p;
      item ← acquire editor_set g d (Some (BoundApply g));
      add g item) s
    = (Ret tt, s')
    /\ pool_shaped pool_injective s'
    /\ lists_rows_for g (ds ++ dict_values todo) s'.
Proof.
  revert ds s. induction todo as [|[k d] todo IH]; intros ds s Htodo Hnd Hshape Hlist.
  - exists s. unfold dict_values. simpl. by rewrite app_nil_r.
  - destruct (Htodo k d) as [Hget Hed]; [apply elem_of_cons; by left|].
    unfold dict_values in *. simpl in Hnd.
    assert (d_name d ∉ (d_name <$> ds)) as Hfresh.
    { rewrite fmap_app, fmap_cons in Hnd. apply NoDup_app in Hnd as (_ & Hdis & _).
      intros Hin. apply (Hdis _ Hin). apply elem_of_cons. by left. }
    destruct (rebuild_step ds d s Hshape Hlist Hfresh Hed) as (s1 & Hstep & Hshape1 & Hlist1).
    destruct (IH (ds ++ [d]) s1) as (s' & Hrest & Hshape' & Hlist'); try done.
    + intros k0 d0 Hin. apply Htodo, elem_of_cons. by right.
    + by rewrite <- app_assoc.
    + exists s'. split_and!; [| done |].
      * assert ((d ← subscript defs k;
                 item ← acquire editor_set g d (Some (BoundApply g));
                 add g item) s = (Ret tt, s1)) as Hbody.
        { unfold subscript. rewrite Hget. exact Hstep. }
        change (dict_keys ((k, d) :: todo)) with (k :: dict_keys todo).
        simpl for_each. by rewrite (bind_eval _ _ _ _ _ Hbody).
      * simpl. by rewrite <- app_assoc in Hlist'.
Qed.

End RebuildFacts.

(** X20.  What a rebuild builds.  In every reachable store, for
    definitions with distinct keys and distinct names whose values the
    editors accept, the rebuild returns, and afterwards the group lists
    exactly one row for each definition, in the order of the definitions and
    under their names; each of these rows is a row of the group, filed in
    the pool under the definition's name, bound to the definition's name,
    value and label, packed, and reporting edits to the group's [apply]. *)
Theorem rebuild_lists_a_row_for_every_definition editor_set s g defs :
  reachable editor_set s ->
  is_Some (groups s !! g) ->
  NoDup (dict_keys defs) ->
  NoDup (d_name <$> dict_values defs) ->
  (forall k d, (k, d) ∈ defs -> editor_set (d_value d) = None) ->
  exists s',
    rebuild editor_set g (Some defs) s = (Ret tt, s')
    /\ lists_rows_for g (dict_values defs) s'.
Proof.
  intros Hreach [grp Hg] Hkeys Hnames Hed.
  assert (pool_shaped pool_injective s) as Hshape.
  { apply (reachable_pool_shaped editor_set pool_injective s
             pool_injective_ext pool_injective_construct); [| done].
    intros ? ? ? ? ? H. unfold pool_at in H. by rewrite lookup_empty in H. }
  set (s0 := (clear_children g s).2).
  assert (groups s0 !! g = Some grp) as Hg0 by done.
  set (s1 := set_groups (<[g := set_items [] grp]> (groups s0)) s0).
  assert (pool_shaped pool_injective s1) as Hshape1.
  { pose proof (shaped_update_group pool_injective g (set_items []) s0) as Hupd.
    rewrite (update_group_eval _ _ _ _ Hg0) in Hupd. apply Hupd.
    apply (shaped_same_pool pool_injective (clear_children g)
             (pool_inv_clear_children g)); done. }
  assert (lists_rows_for g [] s1) as Hlist1.
  { exists (set_items [] grp). split_and!; [| done |].
    - simpl. apply list_lookup_insert_eq. by eapply lookup_lt_Some.
    - intros d Hd. by apply not_elem_of_nil in Hd. }
  destruct (rebuild_loop editor_set g defs defs [] s1) as (s' & Hloop & _ & Hlist');
    try done.
  { intros k d Hin. split; [by apply dict_get_NoDup | by eapply Hed]. }
  exists s'. split; [| done].
  unfold rebuild.
  erewrite bind_eval by reflexivity. fold s0.
  rewrite (bind_eval _ _ _ _ _ (update_group_eval _ _ _ _ Hg0)). fold s1.
  exact Hloop.
Qed.

Lemma rebuild_lists_a_row_for_every_definition_witness :
  exists s',
    rebuild accepting 2 (Some [("color", colour_blue); ("side", side)]) shown = (Ret tt, s')
    /\ lists_rows_for 2 [colour_blue; side] s'.
Proof.
  assert (NoDup (dict_keys [("color", colour_blue); ("side", side)])) as Hkeys.
  { apply (bool_decide_unpack _). vm_compute. exact I. }
  assert (NoDup (d_name <$> dict_values [("color", colour_blue); ("side", side)])) as Hnames.
  { apply (bool_decide_unpack _). vm_compute. exact I. }
  assert (is_Some (groups shown !! 2)) as Hg by (eexists; vm_compute; reflexivity).
  assert (reachable accepting shown) as Hreach.
  { unfold shown. apply reachable_run. constructor. }
  apply (rebuild_lists_a_row_for_every_definition accepting shown 2
           [("color", colour_blue); ("side", side)] Hreach Hg Hkeys Hnames).
  intros k d _. reflexivity.
Defined.

(** X21.  A layout change is the Layout group's business.  In every
    reachable store [layout_for] runs the update of the Layout group and of
    no other: the Identity and Attribute groups, the pool entries of their
    scopes, the pane and the log are as they were, whether the update returns
    or raises. *)
Theorem layout_change_touches_only_the_layout_group editor_set s w :
  reachable editor_set s ->
  let s' := (layout_for editor_set w s).2 in
  layout_for editor_set w s = on_widget_change editor_set 1 w s
  /\ (gclass <$> groups s !! 1) = Some LayoutGroup
  /\ pane s' = pane s /\ log s' = log s
  /\ (forall g', g' <> 1 -> groups s' !! g' = groups s !! g')
  /\ (forall p, p <> 1 -> _pool s' !! p = _pool s !! p).
Proof.
  intros (_ & Hl & Hc & _)%reachable_wired s'.
  assert (layout_for editor_set w s = on_widget_change editor_set 1 w s) as Heq.
  { unfold layout_for, mbind, M_bind, get. by rewrite Hl. }
  split; [exact Heq|]. split.
  { rewrite <- list_lookup_fmap, Hc. done. }
  subst s'. rewrite Heq. apply (local_preserved editor_set s 1 w s). done.
Qed.

Lemma layout_change_touches_only_the_layout_group_witness :
  groups (layout_for accepting None shown).2 !! 0 = groups shown !! 0
  /\ groups (layout_for accepting None shown).2 !! 2 = groups shown !! 2.
Proof.
  assert (reachable accepting shown) as Hreach.
  { unfold shown. apply reachable_run. constructor. }
  destruct (layout_change_touches_only_the_layout_group accepting shown None Hreach)
    as (_ & _ & _ & _ & Hgroups & _).
  split; apply Hgroups; discriminate.
Defined.
